(** * Sismotower: the structural bonus, the disaster wave resolver,
      the result classification and the repair operation of [App].

    JavaScript numbers are modelled as rationals ([Q]).  Damage, costs and
    the structural bonus follow the arithmetic of the source expression by
    expression in exact arithmetic, leaving binary64 rounding out.  The
    mean of the health values, which the source compares with fixed
    thresholds to choose the result message, is computed as the source
    computes it: every addition and the division are rounded to binary64
    ([round64]).  An array read outside its bounds gives
    [undefined] in the source, after which the arithmetic yields [NaN] or
    the property access throws; the model leaves the numeric domain there
    and returns [None]. *)

From Stdlib Require Import QArith Qminmax Qround Qpower Qfield Qabs Lqa ZArith Lia Sorted.
From stdpp Require Import base option list functions strings relations.

(** ** Data model *)

(** Modelled from the spec: the enum [BuildingComponentId] of [types],
    whose declaration is not part of the sources at hand.  The members are
    the ones the spec lists and [App] and [ControlPanel] refer to. *)
Inductive BuildingComponentId : Type :=
  | Pillars | Beams | Walls | Glass | Floor | Roof
  | LightningRod | WindDampers | TsunamiBarriers | SeismicDampers.

#[global] Instance BuildingComponentId_eq_dec : EqDecision BuildingComponentId.
Proof. solve_decision. Defined.

(** Modelled from the spec: the enum [DisasterId] of [types]; the four
    members are the keys of [disasterButtonColors] in [ControlPanel]. *)
Inductive DisasterId : Type :=
  | Earthquake | Hurricane | Tsunami | LightningStorm.

#[global] Instance DisasterId_eq_dec : EqDecision DisasterId.
Proof. solve_decision. Defined.

(** Material identifiers are strings in the source (['weak'], ...). *)
Abbreviation MaterialTypeId := string.

(** The fields of a catalog entry that [App] reads. *)
Record Material : Type := mkMaterial { cost : Q; resistance : Q }.

(** [Record<BuildingComponentId, MaterialTypeId[]>] and
    [Record<BuildingComponentId, number[]>]: every component has an entry. *)
Abbreviation BuildingState := (BuildingComponentId -> list MaterialTypeId).
Abbreviation ComponentHealth := (BuildingComponentId -> list Q).

Inductive SimulationPhase : Type :=
  | idle
  | wave (n : Z)
  | repair (n : Z)
  | results.

(** The four messages [runSimulationWave] can store after the last wave;
    the integrity percentage interpolated in the text is presentation and
    is left out. *)
Inductive ResultMessage : Type :=
  | MinimalDamage         (* "resistiu bravamente com danos minimos" *)
  | SignificantDamage     (* "danos significativos, mas permaneceu de pe" *)
  | SeverelyCompromised   (* "severamente comprometida" *)
  | TotalCollapse.        (* "Colapso total" *)

Record SimulationState : Type := mkSim {
  phase : SimulationPhase;
  activeDisaster : option DisasterId;
  resultMessage : option ResultMessage
}.

(** The object keys in enumeration order. *)
Definition allComponents : list BuildingComponentId :=
  [Pillars; Beams; Walls; Glass; Floor; Roof;
   LightningRod; WindDampers; TsunamiBarriers; SeismicDampers].

Definition defenseComponents : list BuildingComponentId :=
  [LightningRod; WindDampers; TsunamiBarriers; SeismicDampers].

Definition structuralComponents : list BuildingComponentId :=
  [Pillars; Beams; Floor].

(** [defenseComponents.includes(componentId)] *)
Definition includes (l : list BuildingComponentId) (c : BuildingComponentId) : bool :=
  bool_decide (c ∈ l).

(** A JavaScript array index or length used as a number. *)
Definition num (n : nat) : Q := inject_Z (Z.of_nat n).

(** [a < b] and [a <= b] on numbers, as booleans. *)
Definition Qltb (a b : Q) : bool := negb (Qle_bool b a).
Definition Qleb (a b : Q) : bool := Qle_bool a b.

(** [Math.max(0, x)] is [Qmax 0 x]. *)

(** ** Binary64 rounding *)

(** The nearest integer, ties to the even one. *)
Definition rne (x : Q) : Z :=
  let f := Qfloor x in
  match Qcompare (x - inject_Z f) (1 # 2) with
  | Lt => f
  | Gt => (f + 1)%Z
  | Eq => if Z.even f then f else (f + 1)%Z
  end.

(** For [q > 0], the exponent [e] with [2 ^ e <= q < 2 ^ (e + 1)]. *)
Definition Qlog2 (q : Q) : Z :=
  let e := (Z.log2 (Qnum q) - Z.log2 (Zpos (Qden q)))%Z in
  if Qle_bool (2 ^ e) q then e else (e - 1)%Z.

(** The exponent of the last place of the binary64 numbers around
    [q > 0]: 53 significant bits, and [2 ^ -1074] for the subnormals. *)
Definition ulpExp (q : Q) : Z := Z.max (Qlog2 q - 52) (-1074).

(** The multiple of [2 ^ k] nearest to [q], ties to even. *)
Definition roundAt (k : Z) (q : Q) : Q := (inject_Z (rne (q / 2 ^ k)) * 2 ^ k)%Q.

(** The binary64 number nearest to [q], ties to even (IEEE 754
    round-to-nearest).  Overflow to infinity, which starts at
    [2 ^ 1024], is not modelled. *)
Definition round64 (q : Q) : Q :=
  match Qcompare 0 q with
  | Lt => roundAt (ulpExp q) q
  | Gt => (- roundAt (ulpExp (- q)) (- q))%Q
  | Eq => 0%Q
  end.

(** The finite binary64 numbers: a significand of at most 53 bits times a
    power of two no smaller than [2 ^ -1074]. *)
Definition binary64 (f : Q) : Prop :=
  exists m e : Z,
    (f == inject_Z m * 2 ^ e)%Q /\ (Z.abs m <= 2 ^ 53)%Z /\ (-1074 <= e)%Z.

(** [a + b] and [a / b] on two numbers: the exact result, rounded. *)
Definition jsAdd (a b : Q) : Q := round64 (a + b).
Definition jsDiv (a b : Q) : Q := round64 (a / b).

(** [xs.reduce((a, b) => a + b, 0)] *)
Definition reduceSum (xs : list Q) : Q := fold_left jsAdd xs 0%Q.

(** ** A small catalog and a two-floor building, for the examples *)

Definition sampleConfig (c : BuildingComponentId) (m : MaterialTypeId) : Material :=
  match c with
  | WindDampers =>
      if String.eqb m "weak" then mkMaterial 200 20 else mkMaterial 900 60
  | Glass =>
      if String.eqb m "weak" then mkMaterial 200 10 else mkMaterial 600 30
  | LightningRod =>
      if String.eqb m "weak" then mkMaterial 300 30 else mkMaterial 1000 200
  | _ =>
      if String.eqb m "weak" then mkMaterial 200 10 else mkMaterial 500 50
  end.

Definition samplePower (d : DisasterId) : Q :=
  match d with
  | Earthquake => 120
  | Hurricane => 100
  | Tsunami => 110
  | LightningStorm => 150
  end.

Definition sampleBuilding : BuildingState :=
  fun c =>
    match c with
    | Pillars | Beams | Walls | Glass | Floor => ["weak"; "strong"]
    | _ => ["weak"]
    end.

(** The same building with the stronger lightning rod. *)
Definition sampleBuildingRod : BuildingState :=
  <[LightningRod := ["strong"]]> sampleBuilding.

(** The same building with strong pillars, beams and floors. *)
Definition sampleBuildingStrong : BuildingState :=
  fun c =>
    match c with
    | Pillars | Beams | Floor => ["strong"; "strong"]
    | _ => sampleBuilding c
    end.

Definition sampleHealth : ComponentHealth :=
  fun c => map (fun _ => 100%Q) (sampleBuilding c).

(** The ground-floor glass is down to 40. *)
Definition sampleDamagedHealth : ComponentHealth :=
  <[Glass := [40%Q; 100%Q]]> sampleHealth.

Definition sampleState : SimulationState :=
  mkSim (wave 1) (Some Hurricane) None.

Definition sampleLabel (c : BuildingComponentId) : string :=
  match c with
  | Glass => "Vidros"
  | Roof => "Cobertura"
  | _ => "Componente"
  end.

(** Both glass levels are damaged. *)
Definition sampleTwoDamagedHealth : ComponentHealth :=
  <[Glass := [40%Q; 80%Q]]> sampleHealth.

(** The same building with the stronger wind dampers. *)
Definition sampleBuildingDampers : BuildingState :=
  <[WindDampers := ["strong"]]> sampleBuilding.




(** A tower of five floors, the top one of the stronger material. *)
Definition sampleTower : BuildingState :=
  fun c =>
    match c with
    | Pillars | Beams | Walls | Glass | Floor => ["weak"; "weak"; "weak"; "weak"; "strong"]
    | _ => ["weak"]
    end.

Definition sampleTowerHealth : ComponentHealth :=
  fun c => map (fun _ => 100%Q) (sampleTower c).

(** ** The sound module ([sounds]) *)

Inductive OscillatorType : Type := sine | square | sawtooth | triangle.

(** What the module hands to the audio destination: a tone of [play], a
    band of noise of [playNoise] (its random samples are left out), or a
    note of the music.  [peak] is the gain the sound ramps up to. *)
Inductive Sound : Type :=
  | Tone (type : OscillatorType) (frequency frequencyEnd peak duration attack : Q)
  | Noise (peak duration attack filterFrequency filterQ : Q)
  | MusicNote (type : OscillatorType) (frequency peak duration : Q).

(** The module's variables.  [audioContext] tells whether the context
    exists, [musicInterval] whether the music timer is set, [musicNodes]
    how many nodes [stopMusic] has to release; [scheduled] lists the
    sounds started so far. *)
Record SoundState : Type := mkSound {
  audioContext : bool;
  sfxVolume : Q;
  musicVolume : Q;
  isGloballyMuted : bool;
  lastSfxVolume : Q;
  lastMusicVolume : Q;
  musicNodes : nat;
  musicInterval : bool;
  currentStep : nat;
  scheduled : list Sound
}.

Definition initialSoundState : SoundState :=
  mkSound false 1.0 0.5 false 1.0 0.5 0 false 0 [].

(** [{ freq, dur }], with [None] for [freq: null]. *)
Definition musicSequence : list (option Q * nat) :=
  [ (Some 130.81%Q, 1%nat); (None, 1%nat); (Some 155.56%Q, 1%nat); (Some 174.61%Q, 2%nat);
    (Some 155.56%Q, 1%nat); (Some 130.81%Q, 2%nat);
    (Some 196.00%Q, 1%nat); (None, 1%nat); (Some 174.61%Q, 1%nat); (Some 155.56%Q, 2%nat);
    (Some 130.81%Q, 1%nat); (None, 2%nat);
    (Some 207.65%Q, 1%nat); (None, 1%nat); (Some 233.08%Q, 1%nat); (Some 207.65%Q, 2%nat);
    (Some 174.61%Q, 1%nat); (Some 155.56%Q, 2%nat);
    (Some 155.56%Q, 3%nat); (Some 174.61%Q, 1%nat); (Some 130.81%Q, 4%nat) ].

(** [initAudioContext]; [hasWindow] is [typeof window !== 'undefined']. *)
Definition initAudioContext (hasWindow : bool) (st : SoundState) : SoundState :=
  if negb (audioContext st) && hasWindow then
    mkSound true (sfxVolume st) (musicVolume st) (isGloballyMuted st)
      (lastSfxVolume st) (lastMusicVolume st) (musicNodes st) (musicInterval st)
      (currentStep st) (scheduled st)
  else st.

(** [Math.max(0, Math.min(1, volume))] *)
Definition clampVolume (volume : Q) : Q := Qmax 0 (Qmin 1 volume).

Definition setSfxVolume (volume : Q) (st : SoundState) : SoundState :=
  let sfx := clampVolume volume in
  mkSound (audioContext st) sfx (musicVolume st) (isGloballyMuted st)
    (if isGloballyMuted st then lastSfxVolume st else sfx) (lastMusicVolume st)
    (musicNodes st) (musicInterval st) (currentStep st) (scheduled st).

Definition getSfxVolume (st : SoundState) : Q := sfxVolume st.

Definition setMusicVolume (volume : Q) (st : SoundState) : SoundState :=
  let music := clampVolume volume in
  mkSound (audioContext st) (sfxVolume st) music (isGloballyMuted st)
    (lastSfxVolume st) (if isGloballyMuted st then lastMusicVolume st else music)
    (musicNodes st) (musicInterval st) (currentStep st) (scheduled st).

Definition getMusicVolume (st : SoundState) : Q := musicVolume st.

Definition getIsMuted (st : SoundState) : bool := isGloballyMuted st.

(** [stopMusic]: the timer is cleared, the nodes are released and the
    sequence goes back to its start. *)
Definition stopMusic (st : SoundState) : SoundState :=
  mkSound (audioContext st) (sfxVolume st) (musicVolume st) (isGloballyMuted st)
    (lastSfxVolume st) (lastMusicVolume st) 0 false 0 (scheduled st).

(** [scheduleNextNote], the closure of [playMusic] that the music timer
    calls again: the note of the current step sounds unless it is a rest
    or the module is muted, the step advances and the timer is set.  The
    step lasts [(60 / 100) / 2] seconds. *)
Definition scheduleNextNote (st : SoundState) : SoundState :=
  let stepDuration := (60 / 100 / 2)%Q in
  match musicSequence !! (currentStep st mod length musicSequence)%nat with
  | None => st
  | Some (freq, dur) =>
      let sounding :=
        match freq with
        | Some f => negb (Qeq_bool f 0) && negb (isGloballyMuted st)
        | None => false
        end in
      let note :=
        match freq with
        | Some f =>
            [MusicNote (if Qltb f 180 then triangle else square) f
               (musicVolume st * 0.15)%Q (stepDuration * num dur)%Q]
        | None => []
        end in
      mkSound (audioContext st) (sfxVolume st) (musicVolume st) (isGloballyMuted st)
        (lastSfxVolume st) (lastMusicVolume st)
        (if sounding then (musicNodes st + 3)%nat else musicNodes st)
        true (S (currentStep st))
        (if sounding then scheduled st ++ note else scheduled st)
  end.

Definition playMusic (hasWindow : bool) (st : SoundState) : SoundState :=
  let st := initAudioContext hasWindow st in
  if negb (audioContext st) || musicInterval st || isGloballyMuted st then st
  else scheduleNextNote st.

(** [toggleMute]: the new state and the returned flag. *)
Definition toggleMute (hasWindow : bool) (st : SoundState) : SoundState * bool :=
  let st := initAudioContext hasWindow st in
  let st :=
    mkSound (audioContext st) (sfxVolume st) (musicVolume st)
      (negb (isGloballyMuted st))
      (lastSfxVolume st) (lastMusicVolume st) (musicNodes st) (musicInterval st)
      (currentStep st) (scheduled st) in
  let st :=
    if isGloballyMuted st then
      let st :=
        mkSound (audioContext st) (sfxVolume st) (musicVolume st) (isGloballyMuted st)
          (sfxVolume st) (musicVolume st) (musicNodes st) (musicInterval st)
          (currentStep st) (scheduled st) in
      let st := stopMusic st in
      let st := setSfxVolume 0 st in
      setMusicVolume 0 st
    else
      let st := setSfxVolume (lastSfxVolume st) st in
      let st := setMusicVolume (lastMusicVolume st) st in
      playMusic hasWindow st in
  (st, isGloballyMuted st).

(** The parameters of [play]; [None] stands for an omitted one. *)
Record PlayParams : Type := mkPlay {
  play_type : OscillatorType;
  play_frequency : option Q;
  play_volume : option Q;
  play_duration : Q;
  play_attack : option Q;
  play_frequencyEnd : option Q
}.

Definition play (hasWindow : bool) (params : PlayParams) (st : SoundState) : SoundState :=
  let st := initAudioContext hasWindow st in
  if negb (audioContext st) then st
  else
    let frequency := default 440%Q (play_frequency params) in
    let attack := default 0.01%Q (play_attack params) in
    let frequencyEnd := default frequency (play_frequencyEnd params) in
    let baseVolume := default 0.3%Q (play_volume params) in
    let finalVolume := (baseVolume * sfxVolume st)%Q in
    if Qleb finalVolume 0 then st
    else
      mkSound (audioContext st) (sfxVolume st) (musicVolume st) (isGloballyMuted st)
        (lastSfxVolume st) (lastMusicVolume st) (musicNodes st) (musicInterval st)
        (currentStep st)
        (scheduled st ++
           [Tone (play_type params) frequency frequencyEnd finalVolume
              (play_duration params) attack]).

(** The parameters of [playNoise]. *)
Record NoiseParams : Type := mkNoise {
  noise_volume : option Q;
  noise_duration : Q;
  noise_attack : option Q;
  noise_filterFrequency : option Q;
  noise_filterQ : option Q
}.

Definition playNoise (hasWindow : bool) (params : NoiseParams) (st : SoundState)
    : SoundState :=
  let st := initAudioContext hasWindow st in
  if negb (audioContext st) then st
  else
    let attack := default 0.01%Q (noise_attack params) in
    let filterFrequency := default 800%Q (noise_filterFrequency params) in
    let filterQ := default 1%Q (noise_filterQ params) in
    let baseVolume := default 0.2%Q (noise_volume params) in
    let finalVolume := (baseVolume * sfxVolume st)%Q in
    if Qleb finalVolume 0 then st
    else
      mkSound (audioContext st) (sfxVolume st) (musicVolume st) (isGloballyMuted st)
        (lastSfxVolume st) (lastMusicVolume st) (musicNodes st) (musicInterval st)
        (currentStep st)
        (scheduled st ++
           [Noise finalVolume (noise_duration params) attack filterFrequency filterQ]).

(** One call into the module, or one firing of the music timer. *)
Inductive soundStep (hasWindow : bool) : SoundState -> SoundState -> Prop :=
  | soundStep_setSfx (volume : Q) (st : SoundState) :
      soundStep hasWindow st (setSfxVolume volume st)
  | soundStep_setMusic (volume : Q) (st : SoundState) :
      soundStep hasWindow st (setMusicVolume volume st)
  | soundStep_toggle (st : SoundState) :
      soundStep hasWindow st (toggleMute hasWindow st).1
  | soundStep_play (params : PlayParams) (st : SoundState) :
      soundStep hasWindow st (play hasWindow params st)
  | soundStep_noise (params : NoiseParams) (st : SoundState) :
      soundStep hasWindow st (playNoise hasWindow params st)
  | soundStep_playMusic (st : SoundState) :
      soundStep hasWindow st (playMusic hasWindow st)
  | soundStep_stopMusic (st : SoundState) :
      soundStep hasWindow st (stopMusic st)
  | soundStep_timer (st : SoundState) :
      musicInterval st = true ->
      soundStep hasWindow st (scheduleNextNote st).

(** What the module keeps true of its variables and of the sounds it has
    started. *)
Definition soundInvariant (st : SoundState) : Prop :=
  (0 <= sfxVolume st <= 1)%Q /\
  (0 <= musicVolume st <= 1)%Q /\
  (0 <= lastSfxVolume st <= 1)%Q /\
  (0 <= lastMusicVolume st <= 1)%Q /\
  (isGloballyMuted st = true -> musicInterval st = false) /\
  Forall (fun sound =>
            match sound with
            | Tone _ _ _ peak _ _ | Noise peak _ _ _ _ => (0 < peak)%Q
            | MusicNote _ _ peak _ => (0 <= peak <= 0.15)%Q
            end)
    (scheduled st).

Section App.

(** The tables and constants of [constants], which is not part of the
    sources at hand: they are parameters of the development.
    [COMPONENT_CONFIG c m] stands for [COMPONENT_CONFIG[c].materials[m]]
    and [DISASTER_CONFIG d] for [DISASTER_CONFIG[d].power]. *)
Variable COMPONENT_CONFIG : BuildingComponentId -> MaterialTypeId -> Material.
Variable DISASTER_CONFIG : DisasterId -> Q.
Variable MIN_STRUCTURAL_RESISTANCE : Q.
Variable MAX_STRUCTURAL_RESISTANCE : Q.
Variable MAX_STRUCTURAL_BONUS : Q.

(** ** The structural bonus ([structuralBonus], a [useMemo] over
       [buildingState]) *)

(** The inner [forEach]: one level adds its resistance and counts. *)
Definition scanLevels (componentId : BuildingComponentId)
    (levels : list MaterialTypeId) (acc : Q * nat) : Q * nat :=
  fold_left
    (fun '(totalResistance, componentCount) materialId =>
       ((totalResistance + resistance (COMPONENT_CONFIG componentId materialId))%Q,
        S componentCount))
    levels acc.

(** The outer [forEach] over [structuralComponents]. *)
Definition scanStructure (buildingState : BuildingState) : Q * nat :=
  fold_left
    (fun acc componentId => scanLevels componentId (buildingState componentId) acc)
    structuralComponents (0%Q, O).

Definition structuralBonus (buildingState : BuildingState) : Q :=
  let '(totalResistance, componentCount) := scanStructure buildingState in
  if Nat.eqb componentCount 0 then 0%Q
  else
    let avgResistance := (totalResistance / num componentCount)%Q in
    if Qleb avgResistance MIN_STRUCTURAL_RESISTANCE then 0%Q
    else if Qleb MAX_STRUCTURAL_RESISTANCE avgResistance then MAX_STRUCTURAL_BONUS
    else
      ((avgResistance - MIN_STRUCTURAL_RESISTANCE)
         / (MAX_STRUCTURAL_RESISTANCE - MIN_STRUCTURAL_RESISTANCE)
         * MAX_STRUCTURAL_BONUS)%Q.

(** ** The wave resolver ([runSimulationWave]) *)

Definition waveIntensities : list Q := [0.6%Q; 0.8%Q; 1.0%Q].

(** [waveIntensities[waveNumber - 1]] *)
Definition intensityOf (waveNumber : Z) : option Q :=
  if (waveNumber - 1 <? 0)%Z then None
  else waveIntensities !! Z.to_nat (waveNumber - 1).

(** [newHealth[c][index] = Math.max(0, newHealth[c][index] - damage)] *)
Definition applyDamage (newHealth : ComponentHealth) (c : BuildingComponentId)
    (index : nat) (damage : Q) : option ComponentHealth :=
  currentHealth ← newHealth c !! index;
  Some (<[c := <[index := Qmax 0 (currentHealth - damage)]> (newHealth c)]> newHealth).

(** The body of [for (let i = 0; i < 3; i++)] in the lightning branch,
    over the values of [i] still to run; [break] ends the loop. *)
Fixpoint strikeTopFloors (offsets : list nat) (effectivePower structuralBonus : Q)
    (newHealth : ComponentHealth) : option ComponentHealth :=
  match offsets with
  | [] => Some newHealth
  | i :: rest =>
      let floorIndex := (Z.of_nat (length (newHealth Beams)) - 1 - Z.of_nat i)%Z in
      if (floorIndex <? 0)%Z then Some newHealth
      else
        let floorIndex := Z.to_nat floorIndex in
        let damageMultiplier := (1 / (num i * 1.5 + 1))%Q in
        let baseDamage := (effectivePower * damageMultiplier)%Q in
        let finalDamage := (baseDamage * (1 - structuralBonus))%Q in
        newHealth ← applyDamage newHealth Beams floorIndex (finalDamage / 1.25)%Q;
        newHealth ← applyDamage newHealth Walls floorIndex (finalDamage / 1.5)%Q;
        newHealth ← applyDamage newHealth Glass floorIndex (finalDamage / 2)%Q;
        newHealth ← applyDamage newHealth Pillars floorIndex (finalDamage / 1.2)%Q;
        newHealth ← applyDamage newHealth Floor floorIndex (finalDamage / 1.8)%Q;
        strikeTopFloors rest effectivePower structuralBonus newHealth
  end.

(** The branch [disasterId === DI.LightningStorm]. *)
Definition lightningWave (buildingState : BuildingState) (structuralBonus disasterPower : Q)
    (newHealth : ComponentHealth) : option ComponentHealth :=
  spdaMaterial ← buildingState LightningRod !! 0%nat;
  let spdaResistance := resistance (COMPONENT_CONFIG LightningRod spdaMaterial) in
  let effectivePower := Qmax 0 (disasterPower - spdaResistance) in
  if Qltb spdaResistance disasterPower then
    newHealth ← applyDamage newHealth LightningRod 0 ((disasterPower - spdaResistance) * 2)%Q;
    newHealth ← applyDamage newHealth Roof 0 (effectivePower * 1.2 * (1 - structuralBonus))%Q;
    strikeTopFloors [0; 1; 2]%nat effectivePower structuralBonus newHealth
  else Some newHealth.

(** The [switch] that picks the defense of the other three disasters. *)
Definition defenseResistanceOf (buildingState : BuildingState) (disasterId : DisasterId)
    : option Q :=
  match disasterId with
  | Hurricane =>
      m ← buildingState WindDampers !! 0%nat;
      Some (resistance (COMPONENT_CONFIG WindDampers m))
  | Tsunami =>
      m ← buildingState TsunamiBarriers !! 0%nat;
      Some (resistance (COMPONENT_CONFIG TsunamiBarriers m))
  | Earthquake =>
      m ← buildingState SeismicDampers !! 0%nat;
      Some (resistance (COMPONENT_CONFIG SeismicDampers m))
  | LightningStorm => Some 0%Q
  end.

(** The damage one level takes: the body of the [forEach] callback up to
    [damage *= (1 - structuralBonus)].  [len] is
    [buildingState[componentId].length]. *)
Definition levelDamage (disasterId : DisasterId) (effectivePower structuralBonus : Q)
    (componentId : BuildingComponentId) (len : nat)
    (materialId : MaterialTypeId) (index : nat) : Q :=
  let resistance := resistance (COMPONENT_CONFIG componentId materialId) in
  let damage := Qmax 0 (effectivePower - resistance) in
  let damage :=
    if decide (disasterId = Tsunami) then
      let damageMultiplier := (1.5 - num index / num len)%Q in
      (damage * Qmax 0 damageMultiplier)%Q
    else damage in
  let damage :=
    if decide (disasterId = Earthquake) then
      (damage * (1.2 - num index / (num len * 2)))%Q
    else damage in
  (damage * (1 - structuralBonus))%Q.

(** [buildingState[componentId].forEach((materialId, index) => ...)], from
    position [index] on; [levelHealth] is [newHealth[componentId]]. *)
Fixpoint damageLevels (damageOf : MaterialTypeId -> nat -> Q)
    (levels : list MaterialTypeId) (index : nat) (levelHealth : list Q)
    : option (list Q) :=
  match levels with
  | [] => Some levelHealth
  | materialId :: rest =>
      currentHealth ← levelHealth !! index;
      damageLevels damageOf rest (S index)
        (<[index := Qmax 0 (currentHealth - damageOf materialId index)]> levelHealth)
  end.

(** [for (const key in buildingState)], over the keys still to visit. *)
Fixpoint damageComponents (disasterId : DisasterId) (effectivePower structuralBonus : Q)
    (buildingState : BuildingState) (keys : list BuildingComponentId)
    (newHealth : ComponentHealth) : option ComponentHealth :=
  match keys with
  | [] => Some newHealth
  | componentId :: rest =>
      if includes defenseComponents componentId then
        damageComponents disasterId effectivePower structuralBonus buildingState rest newHealth
      else
        levelHealth ←
          damageLevels
            (levelDamage disasterId effectivePower structuralBonus componentId
               (length (buildingState componentId)))
            (buildingState componentId) 0 (newHealth componentId);
        damageComponents disasterId effectivePower structuralBonus buildingState rest
          (<[componentId := levelHealth]> newHealth)
  end.

(** The [else] branch: earthquake, hurricane and tsunami. *)
Definition uniformWave (disasterId : DisasterId) (buildingState : BuildingState)
    (structuralBonus disasterPower : Q) (newHealth : ComponentHealth)
    : option ComponentHealth :=
  defenseResistance ← defenseResistanceOf buildingState disasterId;
  let effectivePower := Qmax 0 (disasterPower - defenseResistance) in
  damageComponents disasterId effectivePower structuralBonus buildingState
    allComponents newHealth.

(** [Object.values(newHealth).flat()] *)
Definition allHealthValues (newHealth : ComponentHealth) : list Q :=
  concat (map newHealth allComponents).

(** [averageHealth], the sum that [reduce] builds from 0 divided by the
    number of values, in binary64, and the [if]/[else if] chain on it.
    With no health value at all the source divides 0 by 0; every
    comparison with [NaN] is false and the last message is chosen. *)
Definition classify (values : list Q) : ResultMessage :=
  match values with
  | [] => TotalCollapse
  | _ =>
      let averageHealth := jsDiv (reduceSum values) (num (length values)) in
      if Qltb 75 averageHealth then MinimalDamage
      else if Qltb 50 averageHealth then SignificantDamage
      else if Qltb 20 averageHealth then SeverelyCompromised
      else TotalCollapse
  end.

(** The callback, with the three values it closes over as arguments.  It
    yields the arguments of [setComponentHealth] and the simulation state
    after [setSimulationState]. *)
Definition runSimulationWave (buildingState : BuildingState)
    (componentHealth : ComponentHealth) (structuralBonus : Q)
    (prevState : SimulationState) (disasterId : DisasterId) (waveNumber : Z)
    : option (ComponentHealth * SimulationState) :=
  intensityMultiplier ← intensityOf waveNumber;
  let disasterPower := (DISASTER_CONFIG disasterId * intensityMultiplier)%Q in
  newHealth ←
    (if decide (disasterId = LightningStorm) then
       lightningWave buildingState structuralBonus disasterPower componentHealth
     else
       uniformWave disasterId buildingState structuralBonus disasterPower componentHealth);
  if (waveNumber <? 3)%Z then
    Some (newHealth,
          mkSim (repair waveNumber) (activeDisaster prevState) (resultMessage prevState))
  else
    Some (newHealth,
          mkSim results (activeDisaster prevState)
            (Some (classify (allHealthValues newHealth)))).

(** ** The repair operation ([handleRepairComponent]) *)

(** Yields the component health and the total cost after the call.  The
    material read at the top may be [undefined]; the source fails on it
    only where it reads [material.cost], after the early return. *)
Definition handleRepairComponent (buildingState : BuildingState)
    (componentHealth : ComponentHealth) (totalCost : Q)
    (componentId : BuildingComponentId) (levelIndex : nat)
    : option (ComponentHealth * Q) :=
  let material :=
    materialId ← buildingState componentId !! levelIndex;
    Some (COMPONENT_CONFIG componentId materialId) in
  currentHealth ← componentHealth componentId !! levelIndex;
  if Qleb 100 currentHealth then Some (componentHealth, totalCost)
  else
    let healthToRestore := (100 - currentHealth)%Q in
    material ← material;
    let costPerPoint := (cost material / 200)%Q in
    let repairCost := (healthToRestore * costPerPoint)%Q in
    Some (<[componentId := <[levelIndex := 100%Q]> (componentHealth componentId)]>
            componentHealth,
          (totalCost + repairCost)%Q).

(** ** Reference definitions for the structural bonus *)

(** The resistances of the selected materials over every level of
    Pillars, Beams and Floor. *)
Definition selectedResistances (buildingState : BuildingState) : list Q :=
  flat_map
    (fun c => map (fun m => resistance (COMPONENT_CONFIG c m)) (buildingState c))
    [Pillars; Beams; Floor].

(** The piecewise definition in the words of the specification. *)
Definition computeStructuralBonus_ref (buildingState : BuildingState) : Q :=
  let rs := selectedResistances buildingState in
  let count := length rs in
  let avg := (foldr Qplus 0 rs / num count)%Q in
  if decide (count = 0%nat) then 0%Q
  else if Qleb avg MIN_STRUCTURAL_RESISTANCE then 0%Q
  else if Qleb MAX_STRUCTURAL_RESISTANCE avg then MAX_STRUCTURAL_BONUS
  else ((avg - MIN_STRUCTURAL_RESISTANCE)
          / (MAX_STRUCTURAL_RESISTANCE - MIN_STRUCTURAL_RESISTANCE)
          * MAX_STRUCTURAL_BONUS)%Q.

(** The average resistance over Pillars, Beams and Floor. *)
Definition averageResistance (buildingState : BuildingState) : Q :=
  let rs := selectedResistances buildingState in
  (foldr Qplus 0 rs / num (length rs))%Q.

(** ** Reference definitions for the uniform model, in the words of the
       specification *)

(** The wave intensity multipliers [{1: 0.6, 2: 0.8, 3: 1.0}]. *)
Definition waveMultiplier_ref (waveNumber : Z) : Q :=
  if (waveNumber =? 1)%Z then 0.6%Q
  else if (waveNumber =? 2)%Z then 0.8%Q
  else 1.0%Q.

(** The single-instance defense matching a disaster. *)
Definition matchingDefense_ref (disasterId : DisasterId) : BuildingComponentId :=
  match disasterId with
  | Earthquake => SeismicDampers
  | Hurricane => WindDampers
  | Tsunami => TsunamiBarriers
  | LightningStorm => LightningRod
  end.

(** The positional modifier: Tsunami [max(0, 1.5 - index/length)],
    Earthquake [1.2 - index/(length*2)], none otherwise. *)
Definition positionalModifier_ref (disasterId : DisasterId) (index len : nat) : Q :=
  match disasterId with
  | Tsunami => Qmax 0 (1.5 - num index / num len)%Q
  | Earthquake => (1.2 - num index / (num len * 2))%Q
  | _ => 1%Q
  end.

(** [max(0, effectivePower - materialResistance)], times the positional
    modifier, times [(1 - bonus)]. *)
Definition healthDelta_ref (disasterId : DisasterId) (effectivePower bonus : Q)
    (materialResistance : Q) (index len : nat) : Q :=
  (Qmax 0 (effectivePower - materialResistance)
   * positionalModifier_ref disasterId index len * (1 - bonus))%Q.

(** ** Reference definitions for the result classification *)






(** ** The repair price shown in the panel *)

(** [groupedDamagedComponents] in [ControlPanel]:
    [costPerPoint = material.cost / 200] and
    [repairCost = (100 - health) * costPerPoint]. *)
Definition shownRepairCost (material : Material) (health : Q) : Q :=
  let costPerPoint := (cost material / 200)%Q in
  ((100 - health) * costPerPoint)%Q.

(** ** Shapes and the damage-only relation *)

Definition floorComponents : list BuildingComponentId :=
  [Pillars; Beams; Walls; Glass; Floor].

(** The shape of the data model: the health map has one value per level
    of the building, the five floor components have one level per floor,
    and the roof and the four defenses have a single level. *)
Definition wellShaped (buildingState : BuildingState) (health : ComponentHealth) : Prop :=
  (forall c, length (health c) = length (buildingState c)) /\
  (forall c, c ∈ floorComponents ->
     length (buildingState c) = length (buildingState Beams)) /\
  (forall c, c ∈ Roof :: defenseComponents -> length (buildingState c) = 1%nat).

(** Every health value lies in [lo, hi]. *)
Definition healthWithin (lo hi : Q) (health : ComponentHealth) : Prop :=
  forall c i v, health c !! i = Some v -> (lo <= v <= hi)%Q.

(** [after] has the shape of [before], none of its values is negative and
    none exceeds the value it replaces. *)
Definition onlyDamaged (before after : ComponentHealth) : Prop :=
  forall c,
    length (after c) = length (before c) /\
    forall i v v', before c !! i = Some v -> after c !! i = Some v' ->
      (0 <= v' <= v)%Q.

(** The value [structuralBonus] returns once [avgResistance] is known. *)
Definition bonusOfAverage (avgResistance : Q) : Q :=
  if Qleb avgResistance MIN_STRUCTURAL_RESISTANCE then 0%Q
  else if Qleb MAX_STRUCTURAL_RESISTANCE avgResistance then MAX_STRUCTURAL_BONUS
  else
    ((avgResistance - MIN_STRUCTURAL_RESISTANCE)
       / (MAX_STRUCTURAL_RESISTANCE - MIN_STRUCTURAL_RESISTANCE)
       * MAX_STRUCTURAL_BONUS)%Q.

(** ** The other handlers of [App] *)

(** The initial building of [constants], a parameter like the tables. *)
Variable INITIAL_BUILDING_STATE : BuildingState.

(** The inner [forEach] of [calculateInitialCost]: the costs of the
    levels of one component, added to [acc]. *)
Definition addLevelCosts (componentId : BuildingComponentId)
    (levels : list MaterialTypeId) (acc : Q) : Q :=
  fold_left (fun acc materialId => (acc + cost (COMPONENT_CONFIG componentId materialId))%Q)
    levels acc.

(** The loop of [calculateInitialCost] over the keys of a building. *)
Definition buildingCost (buildingState : BuildingState) : Q :=
  fold_left (fun acc componentId => addLevelCosts componentId (buildingState componentId) acc)
    allComponents 0%Q.

Definition calculateInitialCost : Q := buildingCost INITIAL_BUILDING_STATE.

(** [handleMaterialChange]: the building and the total cost after the
    call.  A level outside the array gives [undefined] for the old
    material, and reading its catalog entry throws. *)
Definition handleMaterialChange (currentPhase : SimulationPhase)
    (buildingState : BuildingState) (totalCost : Q)
    (component : BuildingComponentId) (material : MaterialTypeId) (levelIndex : nat)
    : option (BuildingState * Q) :=
  match currentPhase with
  | idle =>
      oldMaterialId ← buildingState component !! levelIndex;
      if decide (oldMaterialId = material) then Some (buildingState, totalCost)
      else
        let oldMaterialCost := cost (COMPONENT_CONFIG component oldMaterialId) in
        let newMaterialCost := cost (COMPONENT_CONFIG component material) in
        let costDifference := (newMaterialCost - oldMaterialCost)%Q in
        Some (<[component := <[levelIndex := material]> (buildingState component)]>
                buildingState,
              (totalCost + costDifference)%Q)
  | _ => Some (buildingState, totalCost)
  end.

Definition handleStartSimulation (disasterId : DisasterId) : SimulationState :=
  mkSim (wave 1) (Some disasterId) None.

(** [parseInt(phase.split('_')[1])]: the number after the underscore;
    [NaN] for the phases without one. *)
Definition currentWaveOf (p : SimulationPhase) : option Z :=
  match p with
  | wave n | repair n => Some n
  | idle | results => None
  end.

(** [handleNextWave]; with [NaN] the comparison [currentWave < 3] is
    false. *)
Definition handleNextWave (prevState : SimulationState) : SimulationState :=
  match currentWaveOf (phase prevState) with
  | Some currentWave =>
      if (currentWave <? 3)%Z then
        mkSim (wave (currentWave + 1)) (activeDisaster prevState) (resultMessage prevState)
      else prevState
  | None => prevState
  end.

(** The effect on [simulationState]: the call of [runSimulationWave] it
    makes, if any. *)
Definition waveEffect (sim : SimulationState) : option (DisasterId * Z) :=
  match phase sim, activeDisaster sim with
  | wave 1, Some d => Some (d, 1%Z)
  | wave 2, Some d => Some (d, 2%Z)
  | wave 3, Some d => Some (d, 3%Z)
  | _, _ => None
  end.

(** [overallHealth]: 100 when there is no health value, else the sum that
    [reduce] builds from 0 divided by the number of values, in binary64. *)
Definition overallHealth (componentHealth : ComponentHealth) : Q :=
  let values := allHealthValues componentHealth in
  if Nat.eqb (length values) 0 then 100%Q
  else jsDiv (reduceSum values) (num (length values)).

(** ** The panel ([ControlPanel]) *)

(** The labels of the catalog, [COMPONENT_CONFIG[c].label]. *)
Variable COMPONENT_LABEL : BuildingComponentId -> string.

Record DamagedItem : Type := mkItem {
  item_componentId : BuildingComponentId;
  item_levelIndex : nat;
  item_health : Q;
  item_repairCost : Q;
  item_isRoof : bool
}.

Record DamagedGroup : Type := mkGroup {
  group_componentId : BuildingComponentId;
  group_label : string;
  group_items : list DamagedItem
}.

(** [groups[componentId]] is set. *)
Definition hasGroup (groups : list DamagedGroup) (componentId : BuildingComponentId) : bool :=
  existsb (fun g => bool_decide (group_componentId g = componentId)) groups.

(** [if (!groups[componentId]) groups[componentId] = {...}] followed by
    [groups[componentId].items.push(item)]; the list keeps the order in
    which the keys were created, as [Object.values] returns them. *)
Definition pushDamaged (groups : list DamagedGroup) (componentId : BuildingComponentId)
    (item : DamagedItem) : list DamagedGroup :=
  let groups :=
    if hasGroup groups componentId then groups
    else groups ++ [mkGroup componentId (COMPONENT_LABEL componentId) []] in
  map (fun g =>
         if decide (group_componentId g = componentId)
         then mkGroup (group_componentId g) (group_label g) (group_items g ++ [item])
         else g)
    groups.

(** [componentHealth[componentId].forEach((health, index) => ...)], from
    position [index] on. *)
Fixpoint collectDamaged (buildingState : BuildingState) (componentId : BuildingComponentId)
    (healths : list Q) (index : nat) (groups : list DamagedGroup)
    : option (list DamagedGroup) :=
  match healths with
  | [] => Some groups
  | health :: rest =>
      if Qltb health 100 then
        materialId ← buildingState componentId !! index;
        let material := COMPONENT_CONFIG componentId materialId in
        let costPerPoint := (cost material / 200)%Q in
        let repairCost := ((100 - health) * costPerPoint)%Q in
        collectDamaged buildingState componentId rest (S index)
          (pushDamaged groups componentId
             (mkItem componentId index health repairCost
                (Nat.eqb (length (buildingState componentId)) 1)))
      else collectDamaged buildingState componentId rest (S index) groups
  end.

(** [for (const key in componentHealth)], over the keys still to visit. *)
Fixpoint collectComponents (buildingState : BuildingState) (componentHealth : ComponentHealth)
    (keys : list BuildingComponentId) (groups : list DamagedGroup)
    : option (list DamagedGroup) :=
  match keys with
  | [] => Some groups
  | componentId :: rest =>
      groups ← collectDamaged buildingState componentId (componentHealth componentId) 0 groups;
      collectComponents buildingState componentHealth rest groups
  end.

(** [items.sort((a, b) => a.health - b.health)].  The sort is stable and
    the comparator a total preorder, so the result is the one arrangement
    in ascending health that keeps equal items in their order; insertion
    from the right computes it. *)
Fixpoint insertByHealth (x : DamagedItem) (items : list DamagedItem) : list DamagedItem :=
  match items with
  | [] => [x]
  | y :: rest =>
      if Qleb (item_health x) (item_health y) then x :: y :: rest
      else y :: insertByHealth x rest
  end.

Definition sortByHealth (items : list DamagedItem) : list DamagedItem :=
  foldr insertByHealth [] items.

Definition groupedDamagedComponents (buildingState : BuildingState)
    (componentHealth : ComponentHealth) : option (list DamagedGroup) :=
  groups ← collectComponents buildingState componentHealth allComponents [];
  Some (map (fun g => mkGroup (group_componentId g) (group_label g)
                        (sortByHealth (group_items g)))
          groups).

(** The damaged levels of one component from position [index] on, as a
    list: what [collectDamaged] pushes, one item after the other. *)
Fixpoint damagedFrom (buildingState : BuildingState) (componentId : BuildingComponentId)
    (healths : list Q) (index : nat) : option (list DamagedItem) :=
  match healths with
  | [] => Some []
  | health :: rest =>
      if Qltb health 100 then
        materialId ← buildingState componentId !! index;
        items ← damagedFrom buildingState componentId rest (S index);
        Some (mkItem componentId index health
                ((100 - health) * (cost (COMPONENT_CONFIG componentId materialId) / 200))%Q
                (Nat.eqb (length (buildingState componentId)) 1)
              :: items)
      else damagedFrom buildingState componentId rest (S index)
  end.

(** [groups] followed by the group of [componentId], if it has items. *)
Definition withItems (groups : list DamagedGroup) (componentId : BuildingComponentId)
    (items : list DamagedItem) : list DamagedGroup :=
  match items with
  | [] => groups
  | _ => groups ++ [mkGroup componentId (COMPONENT_LABEL componentId) items]
  end.

(** The groups of the components [keys], before sorting. *)
Fixpoint groupsOf (buildingState : BuildingState) (componentHealth : ComponentHealth)
    (keys : list BuildingComponentId) : option (list DamagedGroup) :=
  match keys with
  | [] => Some []
  | componentId :: rest =>
      items ← damagedFrom buildingState componentId (componentHealth componentId) 0;
      groups ← groupsOf buildingState componentHealth rest;
      Some (withItems [] componentId items ++ groups)
  end.

(** [defenseComponents.find(id => buildingState[id][0] !== 'weak') || null] *)
Definition activeDefenseSystem (buildingState : BuildingState) : option BuildingComponentId :=
  find (fun id => bool_decide (buildingState id !! 0%nat <> Some "weak"%string))
    defenseComponents.

(** [isControlsDisabled] *)
Definition isControlsDisabled (currentPhase : SimulationPhase) : bool :=
  match currentPhase with idle => false | _ => true end.

(** [isComponentDisabled] of the defense tab: a defense selector is also
    disabled while another defense is the active one. *)
Definition isComponentDisabled (currentPhase : SimulationPhase)
    (buildingState : BuildingState) (componentId : BuildingComponentId) : bool :=
  isControlsDisabled currentPhase
  || match activeDefenseSystem buildingState with
     | Some active => bool_decide (active <> componentId)
     | None => false
     end.

(** A click on a material button of the build tab, for a component of
    [componentsToShow] at the selected level: a disabled button does
    nothing, an enabled one calls [onMaterialChange]. *)
Definition buildSelectorClick (currentPhase : SimulationPhase)
    (buildingState : BuildingState) (totalCost : Q)
    (componentId : BuildingComponentId) (material : MaterialTypeId) (levelIndex : nat)
    : option (BuildingState * Q) :=
  if isControlsDisabled currentPhase then Some (buildingState, totalCost)
  else handleMaterialChange currentPhase buildingState totalCost componentId material
         levelIndex.

(** A click on a material button of the defense tab; the level is 0. *)
Definition defenseSelectorClick (currentPhase : SimulationPhase)
    (buildingState : BuildingState) (totalCost : Q)
    (componentId : BuildingComponentId) (material : MaterialTypeId)
    : option (BuildingState * Q) :=
  if isComponentDisabled currentPhase buildingState componentId
  then Some (buildingState, totalCost)
  else handleMaterialChange currentPhase buildingState totalCost componentId material 0.

(** At most one defense has a material other than ['weak']. *)
Definition singleDefense (buildingState : BuildingState) : Prop :=
  forall d1 d2, d1 ∈ defenseComponents -> d2 ∈ defenseComponents ->
    buildingState d1 !! 0%nat <> Some "weak"%string ->
    buildingState d2 !! 0%nat <> Some "weak"%string -> d1 = d2.

(** ** Steps of a session *)

(** One change of the health map while the building stays as it is: a
    wave with the bonus of the building, or a repair. *)
Inductive healthStep (buildingState : BuildingState)
    : ComponentHealth -> ComponentHealth -> Prop :=
  | healthStep_wave (health out : ComponentHealth) (sim sim' : SimulationState)
      (disasterId : DisasterId) (waveNumber : Z) :
      runSimulationWave buildingState health (structuralBonus buildingState) sim
        disasterId waveNumber = Some (out, sim') ->
      healthStep buildingState health out
  | healthStep_repair (health health' : ComponentHealth) (totalCost totalCost' : Q)
      (componentId : BuildingComponentId) (levelIndex : nat) :
      handleRepairComponent buildingState health totalCost componentId levelIndex
      = Some (health', totalCost') ->
      healthStep buildingState health health'.

(** One material change in the idle phase. *)
Inductive materialStep : BuildingState * Q -> BuildingState * Q -> Prop :=
  | materialStep_change (buildingState buildingState' : BuildingState)
      (totalCost totalCost' : Q) (component : BuildingComponentId)
      (material : MaterialTypeId) (levelIndex : nat) :
      handleMaterialChange idle buildingState totalCost component material levelIndex
      = Some (buildingState', totalCost') ->
      materialStep (buildingState, totalCost) (buildingState', totalCost').

(** The divisor the lightning loop applies to [finalDamage] for each of
    the five components it writes. *)
Definition strikeDivisor (c : BuildingComponentId) : Q :=
  match c with
  | Beams => 1.25
  | Walls => 1.5
  | Glass => 2
  | Pillars => 1.2
  | Floor => 1.8
  | _ => 1
  end.

(** ** Facts about binary64 rounding *)

Section Binary64.
Local Open Scope Q_scope.

Lemma rne_cases (x : Q) : rne x = Qfloor x \/ rne x = (Qfloor x + 1)%Z.
Proof.
  unfold rne. cbv zeta.
  destruct (Qcompare _ _); [destruct (Z.even _)|..]; auto.
Qed.

Lemma rne_mono (x y : Q) : x <= y -> (rne x <= rne y)%Z.
Proof.
  intros H. pose proof (Qfloor_resp_le x y H) as Hf.
  destruct (Z.eq_dec (Qfloor x) (Qfloor y)) as [E|N].
  - unfold rne. cbv zeta. rewrite E.
    destruct (Qcompare_spec (x - inject_Z (Qfloor y)) (1 # 2)) as [Ex|Lx|Gx];
      destruct (Qcompare_spec (y - inject_Z (Qfloor y)) (1 # 2)) as [Ey|Ly|Gy];
      try destruct (Z.even (Qfloor y)); try lia; lra.
  - destruct (rne_cases x) as [-> | ->], (rne_cases y) as [-> | ->]; lia.
Qed.

Lemma rne_Z (z : Z) : rne (inject_Z z) = z.
Proof.
  unfold rne. cbv zeta. rewrite Qfloor_Z.
  destruct (Qcompare_spec (inject_Z z - inject_Z z) (1 # 2)) as [E|L|G];
    [lra|reflexivity|lra].
Qed.

Lemma rne_compat (x y : Q) : x == y -> rne x = rne y.
Proof.
  intros E. apply Z.le_antisymm; apply rne_mono; lra.
Qed.

Lemma rne_nonneg (x : Q) : 0 <= x -> (0 <= rne x)%Z.
Proof. intros H. rewrite <- (rne_Z 0). apply rne_mono. exact H. Qed.

Lemma pow2_pos (k : Z) : 0 < 2 ^ k.
Proof. apply Qpower_0_lt. reflexivity. Qed.

Lemma pow2_plus (a b : Z) : 2 ^ (a + b) == 2 ^ a * 2 ^ b.
Proof. apply Qpower_plus. discriminate. Qed.

Lemma pow2_le (a b : Z) : (a <= b)%Z -> 2 ^ a <= 2 ^ b.
Proof. intros H. apply Qpower_le_compat_l; [exact H|discriminate]. Qed.

Lemma pow2_Z (n : Z) : (0 <= n)%Z -> 2 ^ n == inject_Z (2 ^ n).
Proof. intros H. rewrite Zpower_Qpower by exact H. reflexivity. Qed.

Lemma roundAt_mono (k : Z) (x y : Q) : x <= y -> roundAt k x <= roundAt k y.
Proof.
  intros H. unfold roundAt. pose proof (pow2_pos k) as Hk.
  apply Qmult_le_compat_r; [|lra].
  rewrite <- Zle_Qle. apply rne_mono.
  unfold Qdiv. apply Qmult_le_compat_r; [exact H|].
  apply Qlt_le_weak, Qinv_lt_0_compat, Hk.
Qed.

(** A multiple of [2 ^ k] is left as it is. *)
Lemma roundAt_exact (k m : Z) (q : Q) : q == inject_Z m * 2 ^ k -> roundAt k q == q.
Proof.
  intros E. unfold roundAt. pose proof (pow2_pos k) as Hk.
  rewrite (rne_compat (q / 2 ^ k) (inject_Z m)).
  - rewrite rne_Z. symmetry. exact E.
  - rewrite E. field. lra.
Qed.

Lemma roundAt_pow2 (k j : Z) : (k <= j)%Z -> roundAt k (2 ^ j) == 2 ^ j.
Proof.
  intros H. apply (roundAt_exact k (2 ^ (j - k))).
  rewrite <- pow2_Z by lia. rewrite <- pow2_plus. 
  replace (j - k + k)%Z with j by lia. reflexivity.
Qed.

Lemma roundAt_nonneg (k : Z) (q : Q) : 0 <= q -> 0 <= roundAt k q.
Proof.
  intros H. unfold roundAt. pose proof (pow2_pos k) as Hk.
  apply Qmult_le_0_compat; [|lra].
  replace 0 with (inject_Z 0) by reflexivity. rewrite <- Zle_Qle.
  apply rne_nonneg. apply Qle_shift_div_l; [exact Hk|lra].
Qed.

(** [Qlog2 q] is the exponent of the binade of [q]. *)
Lemma Qlog2_spec (q : Q) : 0 < q -> 2 ^ Qlog2 q <= q /\ q < 2 ^ (Qlog2 q + 1).
Proof.
  intros Hq. destruct q as [n d]. unfold Qlog2. cbn [Qnum Qden].
  assert (Hn : (0 < n)%Z).
  { unfold Qlt in Hq. simpl in Hq. lia. }
  destruct (Z.log2_spec n Hn) as [N1 N2].
  destruct (Z.log2_spec (Zpos d) (Pos2Z.is_pos d)) as [D1 D2].
  pose proof (Z.log2_nonneg n) as Ln. pose proof (Z.log2_nonneg (Zpos d)) as Ld.
  set (ln := Z.log2 n) in *. set (ld := Z.log2 (Zpos d)) in *.
  assert (Q1 : 2 ^ ln <= inject_Z n) by (rewrite pow2_Z by lia; rewrite <- Zle_Qle; exact N1).
  assert (Q2 : inject_Z n < 2 ^ (ln + 1))
    by (rewrite pow2_Z by lia; rewrite <- Zlt_Qlt; unfold Z.succ in N2; exact N2).
  assert (Q3 : 2 ^ ld <= inject_Z (Zpos d))
    by (rewrite pow2_Z by lia; rewrite <- Zle_Qle; exact D1).
  assert (Q4 : inject_Z (Zpos d) < 2 ^ (ld + 1))
    by (rewrite pow2_Z by lia; rewrite <- Zlt_Qlt; unfold Z.succ in D2; exact D2).
  assert (Eq : n # d == inject_Z n / inject_Z (Zpos d)) by (apply Qmake_Qdiv).
  assert (Hd : 0 < inject_Z (Zpos d)) by reflexivity.
  pose proof (pow2_pos ld) as P1. pose proof (pow2_pos (ln - ld)) as P2.
  pose proof (pow2_pos (ln - ld - 1)) as P3.
  assert (U : n # d < 2 ^ (ln - ld + 1)).
  { rewrite Eq. apply Qlt_shift_div_r; [exact Hd|].
    replace (ln - ld + 1)%Z with ((ln + 1) + - ld)%Z by lia.
    rewrite pow2_plus. rewrite Qpower_opp.
    assert (2 ^ (ln + 1) * / 2 ^ ld * 2 ^ ld == 2 ^ (ln + 1)) by (field; lra).
    pose proof (pow2_pos (ln + 1)).
    assert (0 < / 2 ^ ld) by (apply Qinv_lt_0_compat; exact P1).
    nra. }
  assert (L : 2 ^ (ln - ld - 1) <= n # d).
  { rewrite Eq. apply Qle_shift_div_l; [exact Hd|].
    replace (ln - ld - 1)%Z with (ln + - (ld + 1))%Z by lia.
    rewrite pow2_plus. rewrite Qpower_opp.
    pose proof (pow2_pos (ld + 1)). pose proof (pow2_pos ln).
    assert (0 < / 2 ^ (ld + 1)) by (apply Qinv_lt_0_compat; assumption).
    assert (2 ^ ln * / 2 ^ (ld + 1) * 2 ^ (ld + 1) == 2 ^ ln) by (field; lra).
    nra. }
  destruct (Qle_bool (2 ^ (ln - ld)) (n # d)) eqn:B.
  - apply Qle_bool_iff in B. split; [exact B|exact U].
  - assert (B' : ~ 2 ^ (ln - ld) <= n # d).
    { intros C. apply Qle_bool_iff in C. congruence. }
    apply Qnot_le_lt in B'. split; [exact L|].
    replace (ln - ld - 1 + 1)%Z with (ln - ld)%Z by lia. exact B'.
Qed.

Lemma pow2_lt_inv (a b : Z) : 2 ^ a < 2 ^ b -> (a < b)%Z.
Proof.
  intros H. destruct (Z_lt_le_dec a b) as [L|G]; [exact L|].
  pose proof (pow2_le b a G). lra.
Qed.

(** Rounding a positive number in its own binade is monotone. *)
Lemma roundPos_mono (x y : Q) :
  0 < x -> x <= y -> roundAt (ulpExp x) x <= roundAt (ulpExp y) y.
Proof.
  intros Hx Hxy. assert (Hy : 0 < y) by lra.
  destruct (Qlog2_spec x Hx) as [X1 X2]. destruct (Qlog2_spec y Hy) as [Y1 Y2].
  assert (Hlog : (Qlog2 x <= Qlog2 y)%Z).
  { assert (2 ^ Qlog2 x < 2 ^ (Qlog2 y + 1)) by lra.
    apply pow2_lt_inv in H. lia. }
  destruct (Z.eq_dec (ulpExp x) (ulpExp y)) as [E|N].
  - rewrite E. apply roundAt_mono. exact Hxy.
  - assert (Hu : (ulpExp x < ulpExp y)%Z) by (unfold ulpExp in *; lia).
    assert (Hl : (Qlog2 x + 1 <= Qlog2 y)%Z) by (unfold ulpExp in *; lia).
    assert (Hk : (ulpExp y <= Qlog2 y)%Z) by (unfold ulpExp in *; lia).
    pose proof (pow2_le _ _ Hl) as Hp.
    apply Qle_trans with (2 ^ Qlog2 y).
    + rewrite <- (roundAt_pow2 (ulpExp x) (Qlog2 y)) by lia.
      apply roundAt_mono. lra.
    + rewrite <- (roundAt_pow2 (ulpExp y) (Qlog2 y)) at 1 by lia.
      apply roundAt_mono. exact Y1.
Qed.

Lemma round64_pos (q : Q) : 0 < q -> round64 q = roundAt (ulpExp q) q.
Proof.
  intros H. unfold round64. destruct (Qcompare_spec 0 q); [lra|reflexivity|lra].
Qed.

Lemma round64_neg (q : Q) : q < 0 -> round64 q = - roundAt (ulpExp (- q)) (- q).
Proof.
  intros H. unfold round64. destruct (Qcompare_spec 0 q); [lra|lra|reflexivity].
Qed.

Lemma round64_zero (q : Q) : q == 0 -> round64 q = 0.
Proof.
  intros H. unfold round64. destruct (Qcompare_spec 0 q); [reflexivity|lra|lra].
Qed.

(** Rounding to binary64 is monotone. *)
Lemma round64_mono (x y : Q) : x <= y -> round64 x <= round64 y.
Proof.
  intros H.
  destruct (Q_dec 0 x) as [[Px|Nx]|Zx]; destruct (Q_dec 0 y) as [[Py|Ny]|Zy]; try lra.
  - rewrite (round64_pos x Px), (round64_pos y Py). apply roundPos_mono; assumption.
  - rewrite (round64_neg x Nx), (round64_pos y Py).
    pose proof (roundAt_nonneg (ulpExp (- x)) (- x) ltac:(lra)).
    pose proof (roundAt_nonneg (ulpExp y) y ltac:(lra)). lra.
  - rewrite (round64_neg x Nx), (round64_neg y Ny).
    pose proof (roundPos_mono (- y) (- x) ltac:(lra) ltac:(lra)). lra.
  - rewrite (round64_neg x Nx), (round64_zero y ltac:(lra)).
    pose proof (roundAt_nonneg (ulpExp (- x)) (- x) ltac:(lra)). lra.
  - rewrite (round64_zero x ltac:(lra)), (round64_pos y Py).
    apply roundAt_nonneg. lra.
  - rewrite (round64_zero x ltac:(lra)), (round64_zero y ltac:(lra)). lra.
Qed.

Lemma round64_compat (x y : Q) : x == y -> round64 x == round64 y.
Proof. intros E. apply Qle_antisym; apply round64_mono; lra. Qed.

(** Whole numbers below [2 ^ 53] are binary64 numbers. *)
Lemma round64_Z (z : Z) : (0 <= z < 2 ^ 53)%Z -> round64 (inject_Z z) == inject_Z z.
Proof.
  intros [H0 H1]. destruct (Z.eq_dec z 0%Z) as [->|Hz]; [reflexivity|].
  assert (Hq : 0 < inject_Z z) by (replace 0 with (inject_Z 0) by reflexivity; rewrite <- Zlt_Qlt; lia).
  rewrite (round64_pos _ Hq).
  destruct (Qlog2_spec _ Hq) as [L1 _].
  assert (Hl : (Qlog2 (inject_Z z) < 53)%Z).
  { apply pow2_lt_inv. apply Qle_lt_trans with (inject_Z z); [exact L1|].
    rewrite pow2_Z by lia. rewrite <- Zlt_Qlt. exact H1. }
  set (k := ulpExp (inject_Z z)).
  assert (Hk : (k <= 0)%Z) by (unfold k, ulpExp; lia).
  apply (roundAt_exact k (z * 2 ^ (- k))).
  rewrite inject_Z_mult, <- pow2_Z by lia.
  assert (E : 2 ^ (- k) * 2 ^ k == 1).
  { rewrite <- pow2_plus. replace (- k + k)%Z with 0%Z by lia. reflexivity. }
  rewrite <- Qmult_assoc, E. ring.
Qed.

(** [round64] gives a nearest binary64 number. *)

Lemma rne_nearest (x : Q) (z : Z) :
  Qabs (inject_Z (rne x) - x) <= Qabs (inject_Z z - x).
Proof.
  pose proof (Qfloor_le x) as F1. pose proof (Qlt_floor x) as F2.
  rewrite inject_Z_plus in F2. change (inject_Z 1) with 1 in F2.
  assert (Hz : inject_Z z <= inject_Z (Qfloor x) \/ inject_Z (Qfloor x) + 1 <= inject_Z z).
  { destruct (Z_le_gt_dec z (Qfloor x)) as [L|G].
    - left. rewrite <- Zle_Qle. exact L.
    - right. change 1 with (inject_Z 1). rewrite <- inject_Z_plus, <- Zle_Qle. lia. }
  assert (Hr : inject_Z (rne x) == inject_Z (Qfloor x) /\
               x - inject_Z (Qfloor x) <= 1 # 2 \/
               inject_Z (rne x) == inject_Z (Qfloor x) + 1 /\
               1 # 2 <= x - inject_Z (Qfloor x)).
  { unfold rne. cbv zeta.
    destruct (Qcompare_spec (x - inject_Z (Qfloor x)) (1 # 2)) as [E|L|G].
    - destruct (Z.even (Qfloor x)).
      + left. split; [reflexivity|lra].
      + right. rewrite inject_Z_plus. split; [reflexivity|lra].
    - left. split; [reflexivity|lra].
    - right. rewrite inject_Z_plus. split; [reflexivity|lra]. }
  set (r := inject_Z (rne x)) in *. set (f := inject_Z (Qfloor x)) in *.
  set (w := inject_Z z) in *.
  apply Qabs_case; intros H1; apply Qabs_case; intros H2;
    destruct Hr as [[Er Hr]|[Er Hr]]; destruct Hz as [Hz|Hz]; lra.
Qed.

Lemma Qabs_scale (a u : Q) : 0 < u -> Qabs (a * u) == Qabs a * u.
Proof. intros H. rewrite Qabs_Qmult. rewrite (Qabs_pos u) by lra. reflexivity. Qed.

(** No multiple of [2 ^ k] is nearer to [q] than [roundAt k q]. *)
Lemma roundAt_nearest (k : Z) (q : Q) (z : Z) :
  Qabs (roundAt k q - q) <= Qabs (inject_Z z * 2 ^ k - q).
Proof.
  pose proof (pow2_pos k) as Hk. unfold roundAt.
  assert (E1 : inject_Z (rne (q / 2 ^ k)) * 2 ^ k - q
               == (inject_Z (rne (q / 2 ^ k)) - q / 2 ^ k) * 2 ^ k) by (field; lra).
  assert (E2 : inject_Z z * 2 ^ k - q == (inject_Z z - q / 2 ^ k) * 2 ^ k) by (field; lra).
  rewrite E1, E2, !Qabs_scale by exact Hk.
  apply Qmult_le_compat_r; [apply rne_nearest|lra].
Qed.

Lemma roundPos_nearest (q f : Q) :
  0 < q -> binary64 f -> Qabs (roundAt (ulpExp q) q - q) <= Qabs (f - q).
Proof.
  intros Hq (m & e & Ef & Hm & He).
  destruct (Qlog2_spec q Hq) as [L1 L2].
  set (k := ulpExp q) in *.
  destruct (Z_le_gt_dec k e) as [Hke|Hke].
  - (* [f] is a multiple of [2 ^ k] *)
    assert (E : f == inject_Z (m * 2 ^ (e - k)) * 2 ^ k).
    { rewrite Ef, inject_Z_mult, <- pow2_Z by lia.
      rewrite <- Qmult_assoc, <- pow2_plus.
      replace (e - k + k)%Z with e by lia. reflexivity. }
    rewrite E. apply roundAt_nearest.
  - (* [f] lies below the binade of [q] *)
    assert (Hk : k = (Qlog2 q - 52)%Z) by (unfold k, ulpExp in *; lia).
    assert (Hf : f <= 2 ^ Qlog2 q).
    { rewrite Ef. apply Qle_trans with (inject_Z (2 ^ 53) * 2 ^ e).
      - apply Qmult_le_compat_r; [|apply Qlt_le_weak, pow2_pos].
        rewrite <- Zle_Qle. lia.
      - rewrite <- pow2_Z by lia. rewrite <- pow2_plus. apply pow2_le. lia. }
    pose proof (roundAt_nearest k q (2 ^ 52)) as N.
    assert (E : inject_Z (2 ^ 52) * 2 ^ k == 2 ^ Qlog2 q).
    { rewrite <- pow2_Z by lia. rewrite <- pow2_plus.
      replace (52 + k)%Z with (Qlog2 q) by lia. reflexivity. }
    rewrite E in N.
    apply Qle_trans with (Qabs (2 ^ Qlog2 q - q)); [exact N|].
    rewrite !Qabs_neg by lra. lra.
Qed.

Lemma binary64_opp (f : Q) : binary64 f -> binary64 (- f).
Proof.
  intros (m & e & Ef & Hm & He). exists (- m)%Z, e.
  split; [rewrite Ef, inject_Z_opp; ring|]. split; [lia|exact He].
Qed.

(** [round64 q] is a binary64 number, and no binary64 number is nearer to
    [q]. *)
Lemma round64_nearest (q f : Q) :
  binary64 f -> Qabs (round64 q - q) <= Qabs (f - q).
Proof.
  intros Hf. destruct (Q_dec 0 q) as [[P|N]|Z].
  - rewrite (round64_pos q P). apply roundPos_nearest; assumption.
  - rewrite (round64_neg q N).
    pose proof (roundPos_nearest (- q) (- f) ltac:(lra) (binary64_opp f Hf)) as H.
    assert (E1 : - roundAt (ulpExp (- q)) (- q) - q
                 == - (roundAt (ulpExp (- q)) (- q) - - q)) by ring.
    assert (E2 : f - q == - (- f - - q)) by ring.
    rewrite E1, E2, !Qabs_opp. exact H.
  - rewrite (round64_zero q ltac:(lra)).
    assert (E : 0 - q == 0) by lra. rewrite E. apply Qabs_nonneg.
Qed.

Lemma roundPos_binary64 (q : Q) : 0 < q -> binary64 (roundAt (ulpExp q) q).
Proof.
  intros Hq. destruct (Qlog2_spec q Hq) as [L1 L2].
  set (k := ulpExp q). pose proof (pow2_pos k) as Hk.
  exists (rne (q / 2 ^ k)), k. split; [reflexivity|].
  split; [|unfold k, ulpExp; lia].
  assert (H0 : (0 <= rne (q / 2 ^ k))%Z).
  { apply rne_nonneg. apply Qle_shift_div_l; [exact Hk|lra]. }
  rewrite Z.abs_eq by exact H0.
  rewrite <- (rne_Z (2 ^ 53)). apply rne_mono.
  apply Qle_shift_div_r; [exact Hk|].
  rewrite <- pow2_Z by lia. rewrite <- pow2_plus.
  apply Qle_trans with (2 ^ (Qlog2 q + 1)); [lra|].
  apply pow2_le. unfold k, ulpExp. lia.
Qed.

Lemma round64_binary64 (q : Q) : binary64 (round64 q).
Proof.
  destruct (Q_dec 0 q) as [[P|N]|Z].
  - rewrite (round64_pos q P). apply roundPos_binary64. exact P.
  - rewrite (round64_neg q N). apply binary64_opp, roundPos_binary64. lra.
  - rewrite (round64_zero q ltac:(lra)). exists 0%Z, 0%Z. split; [reflexivity|lia].
Qed.

(** A binary64 number is left as it is. *)
Lemma round64_id (f : Q) : binary64 f -> round64 f == f.
Proof.
  intros Hf. pose proof (round64_nearest f f Hf) as H.
  assert (E : f - f == 0) by ring. rewrite E in H. change (Qabs 0) with 0 in H.
  pose proof (Qle_Qabs (round64 f - f)) as H1.
  pose proof (Qle_Qabs (- (round64 f - f))) as H2. rewrite Qabs_opp in H2.
  lra.
Qed.

(** At a tie the even significand is chosen. *)
Lemma rne_tie_even (x : Q) :
  x - inject_Z (Qfloor x) == 1 # 2 -> Z.even (rne x) = true.
Proof.
  intros E. unfold rne. cbv zeta.
  destruct (Qcompare_spec (x - inject_Z (Qfloor x)) (1 # 2)) as [_|L|G]; [|lra|lra].
  destruct (Z.even (Qfloor x)) eqn:Ev; [exact Ev|].
  rewrite Z.even_add, Ev. reflexivity.
Qed.

End Binary64.

(** ** Facts about comparisons *)

Lemma Qleb_le (a b : Q) : Qleb a b = true <-> (a <= b)%Q.
Proof. apply Qle_bool_iff. Qed.

Lemma Qleb_gt (a b : Q) : Qleb a b = false <-> (b < a)%Q.
Proof.
  unfold Qleb. split; intros H.
  - apply Qnot_le_lt. intros Hle. apply Qle_bool_iff in Hle. congruence.
  - destruct (Qle_bool a b) eqn:E; [|reflexivity].
    apply Qle_bool_iff in E. lra.
Qed.

Lemma Qltb_lt (a b : Q) : Qltb a b = true <-> (a < b)%Q.
Proof.
  unfold Qltb. rewrite negb_true_iff. apply (Qleb_gt b a).
Qed.

Lemma Qltb_ge (a b : Q) : Qltb a b = false <-> (b <= a)%Q.
Proof.
  unfold Qltb. rewrite negb_false_iff. apply (Qleb_le b a).
Qed.

Lemma Qmax0_nonneg (x : Q) : (0 <= Qmax 0 x)%Q.
Proof. apply Q.le_max_l. Qed.

Lemma Qmax0_le (h d : Q) : (0 <= h)%Q -> (0 <= d)%Q -> (Qmax 0 (h - d) <= h)%Q.
Proof.
  intros Hh Hd. destruct (Q.max_spec 0 (h - d)) as [[_ E]|[_ E]]; rewrite E; lra.
Qed.

Lemma num_nonneg (n : nat) : (0 <= num n)%Q.
Proof. unfold num. change 0%Q with (inject_Z 0). rewrite <- Zle_Qle. lia. Qed.

Lemma num_pos (n : nat) : (0 < n)%nat -> (0 < num n)%Q.
Proof. intros H. unfold num. change 0%Q with (inject_Z 0). rewrite <- Zlt_Qlt. lia. Qed.

Lemma num_lt (i n : nat) : (i < n)%nat -> (num i < num n)%Q.
Proof. intros H. unfold num. rewrite <- Zlt_Qlt. lia. Qed.

(** ** The structural bonus *)

Lemma scanLevels_spec (c : BuildingComponentId) (levels : list MaterialTypeId)
    (t : Q) (n : nat) :
  exists t',
    scanLevels c levels (t, n) = (t', (n + length levels)%nat) /\
    (t' == t + foldr Qplus 0 (map (fun m => resistance (COMPONENT_CONFIG c m)) levels))%Q.
Proof.
  revert t n. induction levels as [|m levels IH]; intros t n.
  - exists t. split; [simpl; f_equal; lia | simpl; lra].
  - destruct (IH (t + resistance (COMPONENT_CONFIG c m))%Q (S n)) as (t' & E & Ht).
    exists t'. split.
    + unfold scanLevels in *. simpl. rewrite E. f_equal. simpl. lia.
    + rewrite Ht. simpl. lra.
Qed.

Lemma scanStructure_spec (buildingState : BuildingState) :
  exists t,
    scanStructure buildingState = (t, length (selectedResistances buildingState)) /\
    (t == foldr Qplus 0 (selectedResistances buildingState))%Q.
Proof.
  unfold scanStructure, selectedResistances. simpl.
  destruct (scanLevels_spec Pillars (buildingState Pillars) 0 0) as (t1 & E1 & H1).
  rewrite E1.
  destruct (scanLevels_spec Beams (buildingState Beams) t1
              (0 + length (buildingState Pillars))) as (t2 & E2 & H2).
  rewrite E2.
  destruct (scanLevels_spec Floor (buildingState Floor) t2
              (0 + length (buildingState Pillars) + length (buildingState Beams)))
    as (t3 & E3 & H3).
  rewrite E3. exists t3. split.
  - f_equal. rewrite !length_app, !length_map. simpl. lia.
  - rewrite H3, H2, H1, app_nil_r.
    rewrite !foldr_app.
    assert (Hf : forall (l : list Q) (a : Q), (foldr Qplus a l == a + foldr Qplus 0 l)%Q).
    { induction l as [|x l IHl]; intros a; simpl; [lra|]. rewrite IHl. lra. }
    match goal with
    | |- (_ == foldr Qplus (foldr Qplus ?a ?lb) ?lp)%Q =>
        pose proof (Hf lp (foldr Qplus a lb)); pose proof (Hf lb a)
    end.
    lra.
Qed.

(** The interpolation stays between 0 and the maximal bonus. *)
Lemma interpolation_bounds (avg : Q) :
  (0 <= MAX_STRUCTURAL_BONUS)%Q ->
  (MIN_STRUCTURAL_RESISTANCE < avg)%Q -> (avg < MAX_STRUCTURAL_RESISTANCE)%Q ->
  (0 <= (avg - MIN_STRUCTURAL_RESISTANCE)
          / (MAX_STRUCTURAL_RESISTANCE - MIN_STRUCTURAL_RESISTANCE)
          * MAX_STRUCTURAL_BONUS <= MAX_STRUCTURAL_BONUS)%Q.
Proof.
  intros HB H1 H2.
  set (d := (MAX_STRUCTURAL_RESISTANCE - MIN_STRUCTURAL_RESISTANCE)%Q).
  assert (Hd : (0 < d)%Q) by (unfold d; lra).
  set (x := ((avg - MIN_STRUCTURAL_RESISTANCE) / d)%Q).
  assert (Hx0 : (0 <= x)%Q).
  { unfold x. apply Qle_shift_div_l; [exact Hd|]. lra. }
  assert (Hx1 : (x <= 1)%Q).
  { unfold x. apply Qle_shift_div_r; [exact Hd|]. unfold d. lra. }
  nra.
Qed.

Lemma interpolation_mono (a1 a2 : Q) :
  (0 <= MAX_STRUCTURAL_BONUS)%Q ->
  (MIN_STRUCTURAL_RESISTANCE < MAX_STRUCTURAL_RESISTANCE)%Q ->
  (a1 <= a2)%Q ->
  ((a1 - MIN_STRUCTURAL_RESISTANCE)
     / (MAX_STRUCTURAL_RESISTANCE - MIN_STRUCTURAL_RESISTANCE)
     * MAX_STRUCTURAL_BONUS
   <= (a2 - MIN_STRUCTURAL_RESISTANCE)
        / (MAX_STRUCTURAL_RESISTANCE - MIN_STRUCTURAL_RESISTANCE)
        * MAX_STRUCTURAL_BONUS)%Q.
Proof.
  intros HB Hd H.
  apply Qmult_le_compat_r; [|exact HB].
  unfold Qdiv. apply Qmult_le_compat_r; [lra|].
  apply Qlt_le_weak, Qinv_lt_0_compat. lra.
Qed.

Lemma bonusOfAverage_compat (a a' : Q) :
  (a == a')%Q -> (bonusOfAverage a == bonusOfAverage a')%Q.
Proof.
  intros E. unfold bonusOfAverage, Qleb.
  assert (H1 : Qle_bool a MIN_STRUCTURAL_RESISTANCE = Qle_bool a' MIN_STRUCTURAL_RESISTANCE)
    by (rewrite E; reflexivity).
  assert (H2 : Qle_bool MAX_STRUCTURAL_RESISTANCE a = Qle_bool MAX_STRUCTURAL_RESISTANCE a')
    by (rewrite E; reflexivity).
  rewrite H1, H2.
  destruct (Qle_bool a' MIN_STRUCTURAL_RESISTANCE); [reflexivity|].
  destruct (Qle_bool MAX_STRUCTURAL_RESISTANCE a'); [reflexivity|].
  rewrite E. reflexivity.
Qed.

Lemma bonusOfAverage_range (a : Q) :
  (0 <= MAX_STRUCTURAL_BONUS)%Q ->
  (0 <= bonusOfAverage a <= MAX_STRUCTURAL_BONUS)%Q.
Proof.
  intros HB. unfold bonusOfAverage.
  destruct (Qleb a MIN_STRUCTURAL_RESISTANCE) eqn:E1; [lra|].
  destruct (Qleb MAX_STRUCTURAL_RESISTANCE a) eqn:E2; [lra|].
  apply Qleb_gt in E1, E2. apply interpolation_bounds; assumption.
Qed.

Lemma bonusOfAverage_mono (a1 a2 : Q) :
  (0 <= MAX_STRUCTURAL_BONUS)%Q ->
  (a1 <= a2)%Q -> (bonusOfAverage a1 <= bonusOfAverage a2)%Q.
Proof.
  intros HB H.
  pose proof (bonusOfAverage_range a2 HB) as R2.
  unfold bonusOfAverage in *.
  destruct (Qleb a1 MIN_STRUCTURAL_RESISTANCE) eqn:E1; [lra|].
  apply Qleb_gt in E1.
  destruct (Qleb a2 MIN_STRUCTURAL_RESISTANCE) eqn:F1.
  { apply Qleb_le in F1. lra. }
  destruct (Qleb MAX_STRUCTURAL_RESISTANCE a1) eqn:E2.
  - apply Qleb_le in E2.
    destruct (Qleb MAX_STRUCTURAL_RESISTANCE a2) eqn:F2; [lra|].
    apply Qleb_gt in F2. lra.
  - apply Qleb_gt in E2.
    destruct (Qleb MAX_STRUCTURAL_RESISTANCE a2) eqn:F2.
    + pose proof (interpolation_bounds a1 HB E1 E2). lra.
    + apply interpolation_mono; [exact HB | lra | exact H].
Qed.

Lemma structuralBonus_cases (buildingState : BuildingState) :
  (selectedResistances buildingState = [] /\ structuralBonus buildingState = 0%Q) \/
  (selectedResistances buildingState <> [] /\
   (structuralBonus buildingState == bonusOfAverage (averageResistance buildingState))%Q).
Proof.
  destruct (scanStructure_spec buildingState) as (t & E & Ht).
  unfold structuralBonus, averageResistance. rewrite E.
  destruct (selectedResistances buildingState) as [|r rs] eqn:Hrs.
  - left. split; reflexivity.
  - right. split; [discriminate|].
    simpl Nat.eqb. cbv iota. cbv zeta.
    apply (bonusOfAverage_compat (t / num (length (r :: rs)))%Q).
    rewrite Ht. reflexivity.
Qed.

(** C5: for every building state the bonus the source computes equals the
    piecewise reference definition: 0 when no level is scanned or the
    average resistance over Pillars, Beams and Floor is at most
    [MIN_STRUCTURAL_RESISTANCE], [MAX_STRUCTURAL_BONUS] when the average is
    at least [MAX_STRUCTURAL_RESISTANCE], and the linear interpolation
    otherwise. *)
Theorem structuralBonus_refines_reference (buildingState : BuildingState) :
  (structuralBonus buildingState == computeStructuralBonus_ref buildingState)%Q.
Proof.
  destruct (structuralBonus_cases buildingState) as [[E H]|[E H]];
    unfold computeStructuralBonus_ref.
  - rewrite H, E. reflexivity.
  - rewrite decide_False by (destruct (selectedResistances buildingState); [congruence|discriminate]).
    rewrite H. reflexivity.
Qed.

Lemma structuralBonus_range (buildingState : BuildingState) :
  (0 <= MAX_STRUCTURAL_BONUS)%Q ->
  (0 <= structuralBonus buildingState <= MAX_STRUCTURAL_BONUS)%Q.
Proof.
  intros HB.
  destruct (structuralBonus_cases buildingState) as [[_ H]|[_ H]]; rewrite H.
  - lra.
  - apply bonusOfAverage_range, HB.
Qed.

(** C6: the bonus lies in [0, MAX_STRUCTURAL_BONUS] for each of two
    building states, and when the average resistance over Pillars, Beams
    and Floor of the first is at most that of the second, so is its bonus.
    The maximal bonus of the catalog is taken non-negative; an average
    exists once a level is scanned. *)
Theorem structuralBonus_range_monotone (b1 b2 : BuildingState) :
  (0 <= MAX_STRUCTURAL_BONUS)%Q ->
  (0 <= structuralBonus b1 <= MAX_STRUCTURAL_BONUS)%Q /\
  (0 <= structuralBonus b2 <= MAX_STRUCTURAL_BONUS)%Q /\
  (selectedResistances b1 <> [] -> selectedResistances b2 <> [] ->
   (averageResistance b1 <= averageResistance b2)%Q ->
   (structuralBonus b1 <= structuralBonus b2)%Q).
Proof.
  intros HB.
  split; [apply structuralBonus_range, HB|].
  split; [apply structuralBonus_range, HB|].
  intros N1 N2 Hle.
  destruct (structuralBonus_cases b1) as [[E1 _]|[_ H1]]; [congruence|].
  destruct (structuralBonus_cases b2) as [[E2 _]|[_ H2]]; [congruence|].
  rewrite H1, H2. apply bonusOfAverage_mono; assumption.
Qed.

(** ** Single writes *)

Lemma applyDamage_Some (nh nh' : ComponentHealth) (c : BuildingComponentId)
    (i : nat) (d : Q) :
  applyDamage nh c i d = Some nh' ->
  exists h, nh c !! i = Some h /\
    nh' = <[c := <[i := Qmax 0 (h - d)]> (nh c)]> nh.
Proof.
  unfold applyDamage. intros H.
  destruct (nh c !! i) as [h|] eqn:E; simpl in H; [|discriminate].
  exists h. split; [reflexivity|]. congruence.
Qed.

Lemma applyDamage_total (nh : ComponentHealth) (c : BuildingComponentId)
    (i : nat) (d : Q) :
  (i < length (nh c))%nat -> is_Some (applyDamage nh c i d).
Proof.
  intros H. unfold applyDamage.
  destruct (lookup_lt_is_Some_2 (nh c) i H) as [h E]. rewrite E. simpl. eauto.
Qed.

Lemma applyDamage_other (nh nh' : ComponentHealth) (c c' : BuildingComponentId)
    (i : nat) (d : Q) :
  applyDamage nh c i d = Some nh' -> c <> c' -> nh' c' = nh c'.
Proof.
  intros H Hne. apply applyDamage_Some in H as (h & _ & ->).
  apply fn_lookup_insert_ne, Hne.
Qed.

Lemma applyDamage_length (nh nh' : ComponentHealth) (c c' : BuildingComponentId)
    (i : nat) (d : Q) :
  applyDamage nh c i d = Some nh' -> length (nh' c') = length (nh c').
Proof.
  intros H. apply applyDamage_Some in H as (h & _ & ->).
  destruct (decide (c = c')) as [->|Hne].
  - rewrite fn_lookup_insert. apply length_insert.
  - rewrite fn_lookup_insert_ne by exact Hne. reflexivity.
Qed.

Lemma onlyDamaged_refl (h : ComponentHealth) :
  healthWithin 0 100 h -> onlyDamaged h h.
Proof.
  intros Hw c. split; [reflexivity|].
  intros i v v' E E'. rewrite E in E'. injection E' as <-.
  destruct (Hw c i v E). lra.
Qed.

Lemma applyDamage_onlyDamaged (h0 nh nh' : ComponentHealth)
    (c : BuildingComponentId) (i : nat) (d : Q) :
  onlyDamaged h0 nh -> (0 <= d)%Q ->
  applyDamage nh c i d = Some nh' -> onlyDamaged h0 nh'.
Proof.
  intros Hd Hpos H c'.
  pose proof (applyDamage_length _ _ _ c' _ _ H) as Hlen.
  apply applyDamage_Some in H as (h & Eh & ->).
  destruct (Hd c') as [L V]. split; [congruence|].
  intros j v v' E E'.
  destruct (decide (c = c')) as [->|Hne].
  - rewrite fn_lookup_insert in E'.
    destruct (decide (i = j)) as [->|Hij].
    + rewrite list_lookup_insert_eq in E' by (eapply lookup_lt_Some; exact Eh).
      injection E' as <-.
      destruct (V j v h E Eh) as [V0 V1].
      split; [apply Qmax0_nonneg|].
      pose proof (Qmax0_le h d V0 Hpos). lra.
    + rewrite list_lookup_insert_ne in E' by exact Hij. eapply V; eassumption.
  - rewrite fn_lookup_insert_ne in E' by exact Hne. eapply V; eassumption.
Qed.

(** ** The per-level loop of the uniform model *)

Lemma damageLevels_spec (damageOf : MaterialTypeId -> nat -> Q)
    (levels : list MaterialTypeId) :
  forall (index : nat) (l l' : list Q),
    damageLevels damageOf levels index l = Some l' ->
    length l' = length l /\
    (forall j, (j < index)%nat \/ (index + length levels <= j)%nat -> l' !! j = l !! j) /\
    (forall k m, levels !! k = Some m ->
       exists h, l !! (index + k)%nat = Some h /\
         l' !! (index + k)%nat = Some (Qmax 0 (h - damageOf m (index + k)%nat))).
Proof.
  induction levels as [|m0 rest IH]; intros index l l' H; simpl in H.
  - injection H as <-. split; [reflexivity|]. split; [reflexivity|].
    intros k m Hk. rewrite lookup_nil in Hk. discriminate.
  - destruct (l !! index) as [h0|] eqn:E0; simpl in H; [|discriminate].
    apply IH in H as (Hlen & Hout & Hin).
    rewrite length_insert in Hlen.
    split; [exact Hlen|]. split.
    + intros j Hj. simpl in Hj.
      rewrite Hout by lia. apply list_lookup_insert_ne. lia.
    + intros [|k] m Hk; simpl in Hk.
      * injection Hk as <-. rewrite Nat.add_0_r.
        exists h0. split; [exact E0|].
        rewrite Hout by lia.
        apply list_lookup_insert_eq. eapply lookup_lt_Some; exact E0.
      * destruct (Hin k m Hk) as (h & Eh & Eh').
        replace (index + S k)%nat with (S index + k)%nat by lia.
        exists h. split; [|exact Eh'].
        rewrite list_lookup_insert_ne in Eh by lia. exact Eh.
Qed.

Lemma damageLevels_total (damageOf : MaterialTypeId -> nat -> Q)
    (levels : list MaterialTypeId) :
  forall (index : nat) (l : list Q),
    (index + length levels <= length l)%nat ->
    is_Some (damageLevels damageOf levels index l).
Proof.
  induction levels as [|m0 rest IH]; intros index l H; simpl in *.
  - eauto.
  - destruct (lookup_lt_is_Some_2 l index) as [h0 E0]; [lia|].
    rewrite E0. simpl. apply IH. rewrite length_insert. lia.
Qed.

(** What the loop leaves at position [j] of the list, read off the spec. *)
Lemma damageLevels_lookup (damageOf : MaterialTypeId -> nat -> Q)
    (levels : list MaterialTypeId) (l l' : list Q) (j : nat) (v v' : Q) :
  damageLevels damageOf levels 0 l = Some l' ->
  l !! j = Some v -> l' !! j = Some v' ->
  v' = v \/ exists m, levels !! j = Some m /\ v' = Qmax 0 (v - damageOf m j).
Proof.
  intros H E E'. apply damageLevels_spec in H as (_ & Hout & Hin).
  destruct (levels !! j) as [m|] eqn:Em.
  - right. exists m. split; [reflexivity|].
    destruct (Hin j m Em) as (h & Eh & Eh'). simpl in Eh, Eh'. congruence.
  - left. apply lookup_ge_None in Em.
    rewrite Hout in E' by (right; simpl; lia). congruence.
Qed.

(** ** The loop over the components *)

Lemma includes_defense (c : BuildingComponentId) :
  includes defenseComponents c = true <-> c ∈ defenseComponents.
Proof. unfold includes. apply bool_decide_eq_true. Qed.

Lemma damageComponents_spec (disasterId : DisasterId) (effectivePower bonus : Q)
    (buildingState : BuildingState) (keys : list BuildingComponentId) :
  NoDup keys ->
  forall nh out : ComponentHealth,
    damageComponents disasterId effectivePower bonus buildingState keys nh = Some out ->
    forall c,
      (c ∈ keys -> c ∉ defenseComponents ->
       damageLevels
         (levelDamage disasterId effectivePower bonus c (length (buildingState c)))
         (buildingState c) 0 (nh c) = Some (out c)) /\
      (c ∉ keys \/ c ∈ defenseComponents -> out c = nh c).
Proof.
  induction 1 as [|k keys Hk Hnd IH]; intros nh out H c; simpl in H.
  - injection H as <-. split; [intros Hc; inversion Hc | reflexivity].
  - destruct (includes defenseComponents k) eqn:Ek.
    + apply includes_defense in Ek.
      destruct (IH _ _ H c) as [I1 I2]. split.
      * intros Hc Hd. apply I1; [|exact Hd].
        apply elem_of_cons in Hc as [->|Hc]; [contradiction|exact Hc].
      * intros [Hc|Hd]; apply I2; [left|right; exact Hd].
        intros Hin. apply Hc. apply elem_of_cons. right. exact Hin.
    + assert (Hkd : k ∉ defenseComponents).
      { intros Hin. apply includes_defense in Hin. congruence. }
      destruct (damageLevels _ (buildingState k) 0 (nh k)) as [lh|] eqn:El;
        simpl in H; [|discriminate].
      destruct (IH _ _ H c) as [I1 I2]. split.
      * intros Hc Hd. apply elem_of_cons in Hc as [->|Hc].
        -- rewrite I2 by (left; exact Hk). rewrite fn_lookup_insert. exact El.
        -- assert (k <> c) by (intros ->; contradiction).
           rewrite <- (I1 Hc Hd). rewrite fn_lookup_insert_ne by assumption. reflexivity.
      * intros Hc.
        assert (Hne : k <> c).
        { intros ->. destruct Hc as [Hc|Hc]; [|contradiction].
          apply Hc. apply elem_of_cons. left. reflexivity. }
        rewrite I2.
        -- apply fn_lookup_insert_ne, Hne.
        -- destruct Hc as [Hc|Hc]; [left|right; exact Hc].
           intros Hin. apply Hc. apply elem_of_cons. right. exact Hin.
Qed.

Lemma damageComponents_total (disasterId : DisasterId) (effectivePower bonus : Q)
    (buildingState : BuildingState) (keys : list BuildingComponentId) :
  NoDup keys ->
  forall nh : ComponentHealth,
    (forall c, c ∈ keys -> c ∉ defenseComponents ->
       (length (buildingState c) <= length (nh c))%nat) ->
    is_Some (damageComponents disasterId effectivePower bonus buildingState keys nh).
Proof.
  induction 1 as [|k keys Hk Hnd IH]; intros nh Hcov; simpl.
  - eauto.
  - destruct (includes defenseComponents k) eqn:Ek.
    + apply IH. intros c Hc. apply Hcov. apply elem_of_cons. right. exact Hc.
    + assert (Hkd : k ∉ defenseComponents).
      { intros Hin. apply includes_defense in Hin. congruence. }
      destruct (damageLevels_total
                  (levelDamage disasterId effectivePower bonus k (length (buildingState k)))
                  (buildingState k) 0 (nh k)) as [lh El].
      { simpl. apply Hcov; [apply elem_of_cons; left; reflexivity | exact Hkd]. }
      rewrite El. simpl. apply IH. intros c Hc Hd.
      assert (k <> c) by (intros ->; contradiction).
      rewrite fn_lookup_insert_ne by assumption.
      apply Hcov; [apply elem_of_cons; right; exact Hc | exact Hd].
Qed.

Lemma NoDup_allComponents : NoDup allComponents.
Proof. apply (bool_decide_unpack _). vm_compute. exact I. Qed.

Lemma elem_of_allComponents (c : BuildingComponentId) : c ∈ allComponents.
Proof. destruct c; apply (bool_decide_unpack _); vm_compute; exact I. Qed.

(** ** The uniform model *)

Lemma Qmax0_compat (x y : Q) : (x == y)%Q -> (Qmax 0 x == Qmax 0 y)%Q.
Proof.
  intros E.
  destruct (Q.max_spec 0 x) as [[? ->]|[? ->]];
    destruct (Q.max_spec 0 y) as [[? ->]|[? ->]]; lra.
Qed.

Lemma levelDamage_ref (disasterId : DisasterId) (effectivePower bonus : Q)
    (c : BuildingComponentId) (len : nat) (m : MaterialTypeId) (index : nat) :
  (levelDamage disasterId effectivePower bonus c len m index
   == healthDelta_ref disasterId effectivePower bonus
        (resistance (COMPONENT_CONFIG c m)) index len)%Q.
Proof.
  unfold levelDamage, healthDelta_ref, positionalModifier_ref.
  destruct disasterId; simpl; try lra; reflexivity.
Qed.

Lemma intensityOf_ref (waveNumber : Z) :
  (1 <= waveNumber <= 3)%Z -> intensityOf waveNumber = Some (waveMultiplier_ref waveNumber).
Proof.
  intros H.
  assert (waveNumber = 1 \/ waveNumber = 2 \/ waveNumber = 3)%Z as [->|[->| ->]] by lia;
    reflexivity.
Qed.

Lemma intensityOf_Some (waveNumber : Z) (q : Q) :
  intensityOf waveNumber = Some q -> (1 <= waveNumber <= 3)%Z.
Proof.
  unfold intensityOf. destruct (waveNumber - 1 <? 0)%Z eqn:E; [discriminate|].
  apply Z.ltb_ge in E. intros H. apply lookup_lt_Some in H. simpl in H. lia.
Qed.

Lemma defenseResistanceOf_Some (buildingState : BuildingState) (disasterId : DisasterId)
    (r : Q) :
  disasterId <> LightningStorm ->
  defenseResistanceOf buildingState disasterId = Some r ->
  exists m, buildingState (matchingDefense_ref disasterId) !! 0%nat = Some m /\
    r = resistance (COMPONENT_CONFIG (matchingDefense_ref disasterId) m).
Proof.
  intros Hd H. destruct disasterId; [| | |congruence]; simpl in *;
    match type of H with
    | context [buildingState ?d !! 0%nat] =>
        destruct (buildingState d !! 0%nat) as [m|]; simpl in H; [|discriminate];
        exists m; split; [reflexivity|congruence]
    end.
Qed.

Lemma uniformWave_spec (disasterId : DisasterId) (buildingState : BuildingState)
    (bonus disasterPower : Q) (nh out : ComponentHealth) :
  disasterId <> LightningStorm ->
  uniformWave disasterId buildingState bonus disasterPower nh = Some out ->
  exists m, buildingState (matchingDefense_ref disasterId) !! 0%nat = Some m /\
    forall c,
      (c ∉ defenseComponents ->
       damageLevels
         (levelDamage disasterId
            (Qmax 0 (disasterPower
                     - resistance (COMPONENT_CONFIG (matchingDefense_ref disasterId) m)))
            bonus c (length (buildingState c)))
         (buildingState c) 0 (nh c) = Some (out c)) /\
      (c ∈ defenseComponents -> out c = nh c).
Proof.
  intros Hd H. unfold uniformWave in H.
  destruct (defenseResistanceOf buildingState disasterId) as [r|] eqn:Er;
    simpl in H; [|discriminate].
  apply defenseResistanceOf_Some in Er as (m & Em & ->); [|exact Hd].
  exists m. split; [exact Em|]. intros c.
  destruct (damageComponents_spec _ _ _ _ _ NoDup_allComponents _ _ H c) as [I1 I2].
  split.
  - intros Hc. apply I1; [apply elem_of_allComponents | exact Hc].
  - intros Hc. apply I2. right. exact Hc.
Qed.

Lemma uniformWave_total (disasterId : DisasterId) (buildingState : BuildingState)
    (bonus disasterPower : Q) (nh : ComponentHealth) :
  is_Some (buildingState (matchingDefense_ref disasterId) !! 0%nat) ->
  (forall c, c ∉ defenseComponents ->
     (length (buildingState c) <= length (nh c))%nat) ->
  disasterId <> LightningStorm ->
  is_Some (uniformWave disasterId buildingState bonus disasterPower nh).
Proof.
  intros [m Em] Hcov Hd. unfold uniformWave.
  assert (Er : defenseResistanceOf buildingState disasterId
               = Some (resistance (COMPONENT_CONFIG (matchingDefense_ref disasterId) m))).
  { destruct disasterId; [| | |congruence]; simpl in *; rewrite Em; reflexivity. }
  rewrite Er. cbn [mbind option_bind].
  apply damageComponents_total; [apply NoDup_allComponents|].
  intros c _ Hc. apply Hcov, Hc.
Qed.

(** ** The lightning model *)

Lemma strikeDamage_nonneg (effectivePower bonus k : Q) (i : nat) :
  (0 <= effectivePower)%Q -> (bonus <= 1)%Q -> (0 < k)%Q ->
  (0 <= effectivePower * (1 / (num i * 1.5 + 1)) * (1 - bonus) / k)%Q.
Proof.
  intros He Hb Hk.
  pose proof (num_nonneg i) as Hi.
  assert (H1 : (0 <= 1 / (num i * 1.5 + 1))%Q).
  { apply Qle_shift_div_l; lra. }
  apply Qle_shift_div_l; [exact Hk|].
  assert (H2 : (0 <= effectivePower * (1 / (num i * 1.5 + 1)))%Q)
    by (apply Qmult_le_0_compat; assumption).
  assert (H3 : (0 <= effectivePower * (1 / (num i * 1.5 + 1)) * (1 - bonus))%Q)
    by (apply Qmult_le_0_compat; [assumption|lra]).
  lra.
Qed.

(** Whatever every write to a floor component preserves, the loop over
    the top floors preserves. *)
Lemma strikeTopFloors_invariant (P : ComponentHealth -> Prop)
    (effectivePower bonus : Q) :
  (forall (nh nh' : ComponentHealth) c i d,
     P nh -> c ∈ floorComponents ->
     ((0 <= effectivePower)%Q -> (bonus <= 1)%Q -> (0 <= d)%Q) ->
     applyDamage nh c i d = Some nh' -> P nh') ->
  forall offsets (nh out : ComponentHealth),
    P nh -> strikeTopFloors offsets effectivePower bonus nh = Some out -> P out.
Proof.
  intros Hstep. induction offsets as [|i rest IH]; intros nh out HP H; simpl in H.
  - congruence.
  - destruct (Z.of_nat (length (nh Beams)) - 1 - Z.of_nat i <? 0)%Z; [congruence|].
    repeat match type of H with
    | (applyDamage ?h ?c ?fi ?d ≫= _) = Some _ =>
        let nh' := fresh "nh" in
        let E := fresh "E" in
        destruct (applyDamage h c fi d) as [nh'|] eqn:E; simpl in H; [|discriminate];
        assert (P nh') by
          (refine (Hstep _ _ _ _ _ _ _ _ E);
           [ assumption
           | apply (bool_decide_unpack _); vm_compute; exact I
           | intros; apply strikeDamage_nonneg; [assumption|assumption|lra] ])
    end.
    eapply IH; eassumption.
Qed.

Lemma strikeTopFloors_frame (offsets : list nat) (effectivePower bonus : Q)
    (nh out : ComponentHealth) (c : BuildingComponentId) :
  strikeTopFloors offsets effectivePower bonus nh = Some out ->
  c ∉ floorComponents -> out c = nh c.
Proof.
  intros H Hc.
  apply (strikeTopFloors_invariant (fun h => h c = nh c) effectivePower bonus)
    with (offsets := offsets) (nh := nh); [|reflexivity|exact H].
  intros h h' c' i d Hh Hc' _ E. rewrite <- Hh.
  eapply applyDamage_other; [exact E|]. intros ->. contradiction.
Qed.

Lemma strikeTopFloors_length (offsets : list nat) (effectivePower bonus : Q)
    (nh out : ComponentHealth) (c : BuildingComponentId) :
  strikeTopFloors offsets effectivePower bonus nh = Some out ->
  length (out c) = length (nh c).
Proof.
  intros H.
  apply (strikeTopFloors_invariant (fun h => length (h c) = length (nh c))
           effectivePower bonus)
    with (offsets := offsets) (nh := nh); [|reflexivity|exact H].
  intros h h' c' i d Hh _ _ E. rewrite <- Hh.
  eapply applyDamage_length; exact E.
Qed.

Lemma strikeTopFloors_onlyDamaged (offsets : list nat) (effectivePower bonus : Q)
    (h0 nh out : ComponentHealth) :
  (0 <= effectivePower)%Q -> (bonus <= 1)%Q ->
  onlyDamaged h0 nh ->
  strikeTopFloors offsets effectivePower bonus nh = Some out ->
  onlyDamaged h0 out.
Proof.
  intros He Hb H0 H.
  apply (strikeTopFloors_invariant (onlyDamaged h0) effectivePower bonus)
    with (offsets := offsets) (nh := nh); [|exact H0|exact H].
  intros h h' c i d Hh _ Hd E.
  eapply applyDamage_onlyDamaged; [exact Hh | apply Hd; assumption | exact E].
Qed.

Lemma strikeTopFloors_total (effectivePower bonus : Q) (offsets : list nat) :
  forall nh : ComponentHealth,
    (forall c, c ∈ floorComponents -> (length (nh Beams) <= length (nh c))%nat) ->
    is_Some (strikeTopFloors offsets effectivePower bonus nh).
Proof.
  induction offsets as [|i rest IH]; intros nh Hal; simpl.
  - eauto.
  - destruct (Z.of_nat (length (nh Beams)) - 1 - Z.of_nat i <? 0)%Z eqn:Eb; [eauto|].
    apply Z.ltb_ge in Eb.
    set (fi := Z.to_nat (Z.of_nat (length (nh Beams)) - 1 - Z.of_nat i)).
    assert (Hfi : (fi < length (nh Beams))%nat) by (unfold fi; lia).
    assert (Hstep : forall (h : ComponentHealth) c d,
              (forall c', length (h c') = length (nh c')) -> c ∈ floorComponents ->
              exists h', applyDamage h c fi d = Some h' /\
                forall c', length (h' c') = length (nh c')).
    { intros h c d Hl Hc.
      destruct (applyDamage_total h c fi d) as [h' E].
      { rewrite Hl. specialize (Hal c Hc). lia. }
      exists h'. split; [exact E|]. intros c'.
      rewrite (applyDamage_length _ _ _ c' _ _ E). apply Hl. }
    destruct (Hstep nh Beams
                (effectivePower * (1 / (num i * 1.5 + 1)) * (1 - bonus) / 1.25)%Q)
      as (h1 & E1 & L1); [reflexivity | apply (bool_decide_unpack _); vm_compute; exact I |].
    rewrite E1. cbn [mbind option_bind].
    destruct (Hstep h1 Walls
                (effectivePower * (1 / (num i * 1.5 + 1)) * (1 - bonus) / 1.5)%Q)
      as (h2 & E2 & L2); [exact L1 | apply (bool_decide_unpack _); vm_compute; exact I |].
    rewrite E2. cbn [mbind option_bind].
    destruct (Hstep h2 Glass
                (effectivePower * (1 / (num i * 1.5 + 1)) * (1 - bonus) / 2)%Q)
      as (h3 & E3 & L3); [exact L2 | apply (bool_decide_unpack _); vm_compute; exact I |].
    rewrite E3. cbn [mbind option_bind].
    destruct (Hstep h3 Pillars
                (effectivePower * (1 / (num i * 1.5 + 1)) * (1 - bonus) / 1.2)%Q)
      as (h4 & E4 & L4); [exact L3 | apply (bool_decide_unpack _); vm_compute; exact I |].
    rewrite E4. cbn [mbind option_bind].
    destruct (Hstep h4 Floor
                (effectivePower * (1 / (num i * 1.5 + 1)) * (1 - bonus) / 1.8)%Q)
      as (h5 & E5 & L5); [exact L4 | apply (bool_decide_unpack _); vm_compute; exact I |].
    rewrite E5. cbn [mbind option_bind].
    apply IH. intros c Hc. rewrite !L5. apply Hal, Hc.
Qed.

Lemma lightningWave_spec (buildingState : BuildingState) (bonus disasterPower : Q)
    (nh out : ComponentHealth) :
  lightningWave buildingState bonus disasterPower nh = Some out ->
  exists m, buildingState LightningRod !! 0%nat = Some m /\
    let spdaResistance := resistance (COMPONENT_CONFIG LightningRod m) in
    ((disasterPower <= spdaResistance)%Q -> out = nh) /\
    ((spdaResistance < disasterPower)%Q ->
     exists rodHealth roofHealth nh2,
       nh LightningRod !! 0%nat = Some rodHealth /\
       nh Roof !! 0%nat = Some roofHealth /\
       nh2 = <[Roof := <[0%nat := Qmax 0 (roofHealth
                 - Qmax 0 (disasterPower - spdaResistance) * 1.2 * (1 - bonus))]> (nh Roof)]>
               (<[LightningRod := <[0%nat := Qmax 0 (rodHealth
                 - (disasterPower - spdaResistance) * 2)]> (nh LightningRod)]> nh) /\
       strikeTopFloors [0; 1; 2]%nat (Qmax 0 (disasterPower - spdaResistance)) bonus nh2
       = Some out).
Proof.
  unfold lightningWave. intros H.
  destruct (buildingState LightningRod !! 0%nat) as [m|]; cbn [mbind option_bind] in H;
    [|discriminate].
  exists m. split; [reflexivity|]. cbv zeta.
  destruct (Qltb (resistance (COMPONENT_CONFIG LightningRod m)) disasterPower) eqn:Eb.
  - apply Qltb_lt in Eb. split; [intros; lra|]. intros _.
    destruct (applyDamage nh LightningRod 0 _) as [nh1|] eqn:E1;
      cbn [mbind option_bind] in H; [|discriminate].
    destruct (applyDamage nh1 Roof 0 _) as [nh2|] eqn:E2;
      cbn [mbind option_bind] in H; [|discriminate].
    apply applyDamage_Some in E1 as (rodHealth & Erod & ->).
    apply applyDamage_Some in E2 as (roofHealth & Eroof & ->).
    rewrite fn_lookup_insert_ne in Eroof by discriminate.
    rewrite fn_lookup_insert_ne in H by discriminate.
    exists rodHealth, roofHealth. eexists. repeat split; [exact Erod|exact Eroof|exact H].
  - apply Qltb_ge in Eb. split; [intros _; congruence|]. intros; lra.
Qed.

Lemma lightningWave_total (buildingState : BuildingState) (bonus disasterPower : Q)
    (nh : ComponentHealth) :
  is_Some (buildingState LightningRod !! 0%nat) ->
  (0 < length (nh LightningRod))%nat -> (0 < length (nh Roof))%nat ->
  (forall c, c ∈ floorComponents -> (length (nh Beams) <= length (nh c))%nat) ->
  is_Some (lightningWave buildingState bonus disasterPower nh).
Proof.
  intros [m Em] Hrod Hroof Hal. unfold lightningWave. rewrite Em.
  cbn [mbind option_bind]. cbv zeta.
  destruct (Qltb _ disasterPower); [|eauto].
  destruct (applyDamage_total nh LightningRod 0
              ((disasterPower - resistance (COMPONENT_CONFIG LightningRod m)) * 2)%Q Hrod)
    as [nh1 E1].
  rewrite E1. cbn [mbind option_bind].
  destruct (applyDamage_total nh1 Roof 0
              (Qmax 0 (disasterPower - resistance (COMPONENT_CONFIG LightningRod m))
               * 1.2 * (1 - bonus))%Q) as [nh2 E2].
  { rewrite (applyDamage_length _ _ _ Roof _ _ E1). exact Hroof. }
  rewrite E2. cbn [mbind option_bind].
  apply strikeTopFloors_total. intros c Hc.
  rewrite !(applyDamage_length _ _ _ _ _ _ E2), !(applyDamage_length _ _ _ _ _ _ E1).
  apply Hal, Hc.
Qed.

Lemma lightningWave_onlyDamaged (buildingState : BuildingState) (bonus disasterPower : Q)
    (h0 nh out : ComponentHealth) :
  (bonus <= 1)%Q -> onlyDamaged h0 nh ->
  lightningWave buildingState bonus disasterPower nh = Some out ->
  onlyDamaged h0 out.
Proof.
  unfold lightningWave. intros Hb H0 H.
  destruct (buildingState LightningRod !! 0%nat) as [m|]; cbn [mbind option_bind] in H;
    [|discriminate].
  cbv zeta in H.
  destruct (Qltb (resistance (COMPONENT_CONFIG LightningRod m)) disasterPower) eqn:Eb;
    [|injection H as <-; exact H0].
  apply Qltb_lt in Eb.
  destruct (applyDamage nh LightningRod 0 _) as [nh1|] eqn:E1;
    cbn [mbind option_bind] in H; [|discriminate].
  destruct (applyDamage nh1 Roof 0 _) as [nh2|] eqn:E2;
    cbn [mbind option_bind] in H; [|discriminate].
  pose proof (Qmax0_nonneg (disasterPower - resistance (COMPONENT_CONFIG LightningRod m)))
    as He.
  eapply strikeTopFloors_onlyDamaged; [exact He | exact Hb | | exact H].
  eapply applyDamage_onlyDamaged; [ | | exact E2].
  - eapply applyDamage_onlyDamaged; [exact H0 | | exact E1]. lra.
  - apply Qmult_le_0_compat; [|lra]. apply Qmult_le_0_compat; [exact He|lra].
Qed.

Lemma levelDamage_nonneg (disasterId : DisasterId) (effectivePower bonus : Q)
    (c : BuildingComponentId) (len : nat) (m : MaterialTypeId) (index : nat) :
  (index < len)%nat -> (bonus <= 1)%Q ->
  (0 <= levelDamage disasterId effectivePower bonus c len m index)%Q.
Proof.
  intros Hi Hb. unfold levelDamage. cbv zeta.
  pose proof (Qmax0_nonneg (effectivePower - resistance (COMPONENT_CONFIG c m))) as H0.
  apply Qmult_le_0_compat; [|lra].
  destruct (decide (disasterId = Tsunami)) as [->|Ht].
  - rewrite decide_False by discriminate.
    apply Qmult_le_0_compat; [exact H0 | apply Qmax0_nonneg].
  - destruct (decide (disasterId = Earthquake)) as [->|He]; [|exact H0].
    apply Qmult_le_0_compat; [exact H0|].
    assert (Hlen : (0 < num len * 2)%Q) by (pose proof (num_pos len ltac:(lia)); lra).
    assert (Hq : (num index / (num len * 2) <= 1)%Q).
    { apply Qle_shift_div_r; [exact Hlen|]. pose proof (num_lt index len Hi). lra. }
    lra.
Qed.

Lemma uniformWave_onlyDamaged (disasterId : DisasterId) (buildingState : BuildingState)
    (bonus disasterPower : Q) (nh out : ComponentHealth) :
  disasterId <> LightningStorm -> (bonus <= 1)%Q ->
  healthWithin 0 100 nh ->
  uniformWave disasterId buildingState bonus disasterPower nh = Some out ->
  onlyDamaged nh out.
Proof.
  intros Hd Hb Hw H c.
  apply uniformWave_spec in H as (m & _ & H); [|exact Hd].
  destruct (H c) as [H1 H2].
  destruct (decide (c ∈ defenseComponents)) as [Hc|Hc].
  - rewrite (H2 Hc). apply onlyDamaged_refl, Hw.
  - specialize (H1 Hc). split.
    + apply damageLevels_spec in H1 as (Hlen & _). exact Hlen.
    + intros i v v' E E'. destruct (Hw c i v E) as [V0 V1].
      destruct (damageLevels_lookup _ _ _ _ _ _ _ H1 E E') as [->|(m' & Em & ->)];
        [lra|].
      split; [apply Qmax0_nonneg|].
      apply Qmax0_le; [exact V0|].
      apply levelDamage_nonneg; [|exact Hb]. eapply lookup_lt_Some; exact Em.
Qed.

(** ** The callback as a whole *)

Lemma runSimulationWave_Some (buildingState : BuildingState)
    (componentHealth : ComponentHealth) (bonus : Q) (prevState : SimulationState)
    (disasterId : DisasterId) (waveNumber : Z)
    (out : ComponentHealth) (sim' : SimulationState) :
  runSimulationWave buildingState componentHealth bonus prevState disasterId waveNumber
  = Some (out, sim') ->
  (1 <= waveNumber <= 3)%Z /\
  (if decide (disasterId = LightningStorm) then
     lightningWave buildingState bonus
       (DISASTER_CONFIG disasterId * waveMultiplier_ref waveNumber)%Q componentHealth
   else
     uniformWave disasterId buildingState bonus
       (DISASTER_CONFIG disasterId * waveMultiplier_ref waveNumber)%Q componentHealth)
  = Some out /\
  sim' =
    (if (waveNumber <? 3)%Z then
       mkSim (repair waveNumber) (activeDisaster prevState) (resultMessage prevState)
     else
       mkSim results (activeDisaster prevState) (Some (classify (allHealthValues out)))).
Proof.
  unfold runSimulationWave. intros H.
  destruct (intensityOf waveNumber) as [q|] eqn:Eq; cbn [mbind option_bind] in H;
    [|discriminate].
  pose proof (intensityOf_Some _ _ Eq) as Hw.
  rewrite (intensityOf_ref _ Hw) in Eq. injection Eq as <-.
  split; [exact Hw|]. cbv zeta in H.
  match type of H with
  | (?w ≫= _) = _ => destruct w as [nh|]; cbn [mbind option_bind] in H; [|discriminate]
  end.
  destruct (waveNumber <? 3)%Z; injection H as <- <-; split; reflexivity.
Qed.

Lemma wellShaped_lightning (buildingState : BuildingState) (health : ComponentHealth) :
  wellShaped buildingState health ->
  is_Some (buildingState LightningRod !! 0%nat) /\
  (0 < length (health LightningRod))%nat /\ (0 < length (health Roof))%nat /\
  (forall c, c ∈ floorComponents -> (length (health Beams) <= length (health c))%nat).
Proof.
  intros (Hs & Hf & H1).
  assert (L : length (buildingState LightningRod) = 1%nat)
    by (apply H1, (bool_decide_unpack _); vm_compute; exact I).
  assert (R : length (buildingState Roof) = 1%nat)
    by (apply H1, (bool_decide_unpack _); vm_compute; exact I).
  split; [apply lookup_lt_is_Some_2; lia|].
  rewrite !Hs. split; [lia|]. split; [lia|].
  intros c Hc. rewrite !Hs, (Hf c Hc). lia.
Qed.

Lemma wellShaped_uniform (buildingState : BuildingState) (health : ComponentHealth)
    (disasterId : DisasterId) :
  wellShaped buildingState health ->
  is_Some (buildingState (matchingDefense_ref disasterId) !! 0%nat) /\
  (forall c, c ∉ defenseComponents ->
     (length (buildingState c) <= length (health c))%nat).
Proof.
  intros (Hs & Hf & H1). split.
  - apply lookup_lt_is_Some_2.
    assert (L : length (buildingState (matchingDefense_ref disasterId)) = 1%nat)
      by (apply H1, (bool_decide_unpack _); destruct disasterId; vm_compute; exact I).
    lia.
  - intros c _. rewrite Hs. lia.
Qed.

(** On a well-shaped state every wave 1, 2 or 3 runs to its end. *)
Lemma runSimulationWave_total (buildingState : BuildingState)
    (componentHealth : ComponentHealth) (bonus : Q) (prevState : SimulationState)
    (disasterId : DisasterId) (waveNumber : Z) :
  wellShaped buildingState componentHealth -> (1 <= waveNumber <= 3)%Z ->
  exists out sim',
    runSimulationWave buildingState componentHealth bonus prevState disasterId waveNumber
    = Some (out, sim').
Proof.
  intros Hs Hw. unfold runSimulationWave.
  rewrite (intensityOf_ref _ Hw). cbn [mbind option_bind]. cbv zeta.
  assert (Hnh : is_Some
    (if decide (disasterId = LightningStorm) then
       lightningWave buildingState bonus
         (DISASTER_CONFIG disasterId * waveMultiplier_ref waveNumber)%Q componentHealth
     else
       uniformWave disasterId buildingState bonus
         (DISASTER_CONFIG disasterId * waveMultiplier_ref waveNumber)%Q componentHealth)).
  { destruct (decide (disasterId = LightningStorm)) as [E|E].
    - destruct (wellShaped_lightning _ _ Hs) as (A & B & C & D).
      apply lightningWave_total; assumption.
    - destruct (wellShaped_uniform _ _ disasterId Hs) as (A & B).
      apply uniformWave_total; assumption. }
  destruct Hnh as [nh ->]. cbn [mbind option_bind].
  destruct (waveNumber <? 3)%Z; eauto.
Qed.

Lemma runSimulationWave_length (buildingState : BuildingState)
    (componentHealth : ComponentHealth) (bonus : Q) (prevState : SimulationState)
    (disasterId : DisasterId) (waveNumber : Z)
    (out : ComponentHealth) (sim' : SimulationState) :
  runSimulationWave buildingState componentHealth bonus prevState disasterId waveNumber
  = Some (out, sim') ->
  forall c, length (out c) = length (componentHealth c).
Proof.
  intros H c. apply runSimulationWave_Some in H as (_ & H & _).
  destruct (decide (disasterId = LightningStorm)) as [E|E].
  - apply lightningWave_spec in H as (m & _ & Hge & Hlt). cbv zeta in Hge, Hlt.
    destruct (Qlt_le_dec (resistance (COMPONENT_CONFIG LightningRod m))
                (DISASTER_CONFIG disasterId * waveMultiplier_ref waveNumber)) as [L|L].
    + destruct (Hlt L) as (rodHealth & roofHealth & nh2 & _ & _ & -> & Hs).
      rewrite (strikeTopFloors_length _ _ _ _ _ c Hs).
      destruct (decide (c = Roof)) as [->|Hr].
      { rewrite fn_lookup_insert. apply length_insert. }
      rewrite fn_lookup_insert_ne by congruence.
      destruct (decide (c = LightningRod)) as [->|Hl].
      { rewrite fn_lookup_insert. apply length_insert. }
      rewrite fn_lookup_insert_ne by congruence. reflexivity.
    + rewrite (Hge L). reflexivity.
  - apply uniformWave_spec in H as (m & _ & H); [|exact E].
    destruct (H c) as [H1 H2].
    destruct (decide (c ∈ defenseComponents)) as [Hc|Hc].
    + rewrite (H2 Hc). reflexivity.
    + apply damageLevels_spec in H1 as (Hlen & _); [exact Hlen | exact Hc].
Qed.

(** What a wave of the uniform model leaves at a level of a non-defense
    component. *)
Lemma runSimulationWave_uniform_level (buildingState : BuildingState)
    (health : ComponentHealth) (bonus : Q) (prevState : SimulationState)
    (disasterId : DisasterId) (waveNumber : Z)
    (out : ComponentHealth) (sim' : SimulationState) :
  disasterId <> LightningStorm ->
  runSimulationWave buildingState health bonus prevState disasterId waveNumber
  = Some (out, sim') ->
  exists md,
    buildingState (matchingDefense_ref disasterId) !! 0%nat = Some md /\
    forall c i m h,
      c ∉ defenseComponents ->
      buildingState c !! i = Some m -> health c !! i = Some h ->
      out c !! i
      = Some (Qmax 0 (h - levelDamage disasterId
                (Qmax 0 (DISASTER_CONFIG disasterId * waveMultiplier_ref waveNumber
                         - resistance (COMPONENT_CONFIG (matchingDefense_ref disasterId) md)))
                bonus c (length (buildingState c)) m i)).
Proof.
  intros Hd Hrun.
  pose proof (runSimulationWave_Some _ _ _ _ _ _ _ _ Hrun) as (_ & H & _).
  rewrite decide_False in H by exact Hd.
  apply uniformWave_spec in H as (md & Emd & H); [|exact Hd].
  exists md. split; [exact Emd|].
  intros c i m h Hc Em Eh.
  destruct (H c) as [H1 _]. specialize (H1 Hc).
  apply damageLevels_spec in H1 as (_ & _ & Hin).
  destruct (Hin i m Em) as (h' & Eh' & Eout). simpl in Eh', Eout.
  rewrite Eh in Eh'. injection Eh' as <-. exact Eout.
Qed.

(** Whenever a wave returns, it has only damaged the health map. *)
Lemma runSimulationWave_onlyDamaged (buildingState : BuildingState)
    (health : ComponentHealth) (bonus : Q) (prevState : SimulationState)
    (disasterId : DisasterId) (waveNumber : Z)
    (out : ComponentHealth) (sim' : SimulationState) :
  (bonus <= 1)%Q -> healthWithin 0 100 health ->
  runSimulationWave buildingState health bonus prevState disasterId waveNumber
  = Some (out, sim') ->
  onlyDamaged health out.
Proof.
  intros Hb1 Hh Hrun.
  pose proof (runSimulationWave_Some _ _ _ _ _ _ _ _ Hrun) as (_ & H & _).
  destruct (decide (disasterId = LightningStorm)) as [E|E].
  - eapply lightningWave_onlyDamaged; [exact Hb1 | | exact H].
    apply onlyDamaged_refl, Hh.
  - eapply uniformWave_onlyDamaged; [exact E | exact Hb1 | exact Hh | exact H].
Qed.

(** ** The claims on the wave resolver *)

(** C1: for Earthquake, Hurricane and Tsunami, every wave 1, 2 or 3 and
    every well-shaped building and health map, the resolver returns a
    health map in which every level of every non-defense component holds
    [max(0, health - delta)], where [delta] is
    [max(0, effectivePower - resistance of that level's material)] times
    the positional modifier of the disaster times [(1 - bonus)], and
    [effectivePower] is [max(0, power * waveMultiplier - resistance of the
    matching defense at level 0)]. *)
Theorem uniform_wave_health_delta (buildingState : BuildingState)
    (health : ComponentHealth) (bonus : Q) (prevState : SimulationState)
    (disasterId : DisasterId) (waveNumber : Z) :
  disasterId <> LightningStorm ->
  (1 <= waveNumber <= 3)%Z ->
  wellShaped buildingState health ->
  exists out sim' md,
    runSimulationWave buildingState health bonus prevState disasterId waveNumber
    = Some (out, sim') /\
    buildingState (matchingDefense_ref disasterId) !! 0%nat = Some md /\
    let effectivePower :=
      Qmax 0 (DISASTER_CONFIG disasterId * waveMultiplier_ref waveNumber
              - resistance (COMPONENT_CONFIG (matchingDefense_ref disasterId) md)) in
    forall c i m h,
      c ∉ defenseComponents ->
      buildingState c !! i = Some m -> health c !! i = Some h ->
      exists v, out c !! i = Some v /\
        (v == Qmax 0 (h - healthDelta_ref disasterId effectivePower bonus
                           (resistance (COMPONENT_CONFIG c m)) i
                           (length (buildingState c))))%Q.
Proof.
  intros Hd Hw Hs.
  destruct (runSimulationWave_total buildingState health bonus prevState disasterId
              waveNumber Hs Hw) as (out & sim' & Hrun).
  destruct (runSimulationWave_uniform_level _ _ _ _ _ _ _ _ Hd Hrun) as (md & Emd & H).
  exists out, sim', md. split; [exact Hrun|]. split; [exact Emd|].
  intros effectivePower c i m h Hc Em Eh.
  eexists. split; [apply (H c i m h Hc Em Eh)|].
  apply Qmax0_compat. rewrite levelDamage_ref. reflexivity.
Qed.

(** C2: in a LightningStorm wave whose power exceeds the rod's resistance
    the rod's new health is [max(0, rodHealth - (disasterPower -
    rodResistance) * 2)], in which the bonus does not occur, and the
    roof's new health is [max(0, roofHealth - effectivePower * 1.2 *
    (1 - bonus))]; this holds for every value of the bonus. *)
Theorem lightning_rod_roof_damage (buildingState : BuildingState)
    (health : ComponentHealth) (bonus : Q) (prevState : SimulationState)
    (waveNumber : Z) (spdaMaterial : MaterialTypeId) (rodHealth roofHealth : Q) :
  (1 <= waveNumber <= 3)%Z ->
  wellShaped buildingState health ->
  buildingState LightningRod !! 0%nat = Some spdaMaterial ->
  health LightningRod !! 0%nat = Some rodHealth ->
  health Roof !! 0%nat = Some roofHealth ->
  let disasterPower := (DISASTER_CONFIG LightningStorm * waveMultiplier_ref waveNumber)%Q in
  let rodResistance := resistance (COMPONENT_CONFIG LightningRod spdaMaterial) in
  let effectivePower := Qmax 0 (disasterPower - rodResistance) in
  (rodResistance < disasterPower)%Q ->
  exists out sim',
    runSimulationWave buildingState health bonus prevState LightningStorm waveNumber
    = Some (out, sim') /\
    out LightningRod !! 0%nat
    = Some (Qmax 0 (rodHealth - (disasterPower - rodResistance) * 2)) /\
    out Roof !! 0%nat
    = Some (Qmax 0 (roofHealth - effectivePower * 1.2 * (1 - bonus))).
Proof.
  intros Hw Hs Em Erod Eroof disasterPower rodResistance effectivePower Hlt.
  destruct (runSimulationWave_total buildingState health bonus prevState LightningStorm
              waveNumber Hs Hw) as (out & sim' & Hrun).
  pose proof (runSimulationWave_Some _ _ _ _ _ _ _ _ Hrun) as (_ & H & _).
  rewrite decide_True in H by reflexivity.
  apply lightningWave_spec in H as (m & Em' & _ & H).
  rewrite Em in Em'. injection Em' as <-.
  destruct (H Hlt) as (rodHealth' & roofHealth' & nh2 & Erod' & Eroof' & -> & Hstrike).
  rewrite Erod in Erod'. injection Erod' as <-.
  rewrite Eroof in Eroof'. injection Eroof' as <-.
  exists out, sim'. split; [exact Hrun|].
  rewrite (strikeTopFloors_frame _ _ _ _ _ LightningRod Hstrike)
    by (apply (bool_decide_unpack _); vm_compute; exact I).
  rewrite (strikeTopFloors_frame _ _ _ _ _ Roof Hstrike)
    by (apply (bool_decide_unpack _); vm_compute; exact I).
  rewrite fn_lookup_insert_ne by discriminate.
  rewrite !fn_lookup_insert.
  split; apply list_lookup_insert_eq; eapply lookup_lt_Some; eassumption.
Qed.

(** C3: for every disaster, wave 1, 2 or 3, well-shaped building and
    health map with every value in [0, 100], and bonus in
    [0, MAX_STRUCTURAL_BONUS], the resolver returns a health map of the
    same shape whose values all lie in [0, 100] and none of which exceeds
    the value it replaces.  The maximal bonus of the catalog is taken to
    be at most 1. *)
Theorem wave_only_damages (buildingState : BuildingState)
    (health : ComponentHealth) (bonus : Q) (prevState : SimulationState)
    (disasterId : DisasterId) (waveNumber : Z) :
  (MAX_STRUCTURAL_BONUS <= 1)%Q ->
  (0 <= bonus <= MAX_STRUCTURAL_BONUS)%Q ->
  (1 <= waveNumber <= 3)%Z ->
  wellShaped buildingState health ->
  healthWithin 0 100 health ->
  exists out sim',
    runSimulationWave buildingState health bonus prevState disasterId waveNumber
    = Some (out, sim') /\
    healthWithin 0 100 out /\
    onlyDamaged health out.
Proof.
  intros HM Hb Hw Hs Hh.
  destruct (runSimulationWave_total buildingState health bonus prevState disasterId
              waveNumber Hs Hw) as (out & sim' & Hrun).
  assert (Hb1 : (bonus <= 1)%Q) by lra.
  pose proof (runSimulationWave_onlyDamaged _ _ _ _ _ _ _ _ Hb1 Hh Hrun) as Hod.
  exists out, sim'. split; [exact Hrun|]. split; [|exact Hod].
  intros c i v' E'. destruct (Hod c) as [Hlen Hv].
  destruct (lookup_lt_is_Some_2 (health c) i) as [v E].
  { rewrite <- Hlen. eapply lookup_lt_Some; exact E'. }
  destruct (Hv i v v' E E'). destruct (Hh c i v E). lra.
Qed.

(** C4: in a LightningStorm wave whose power does not exceed the rod's
    resistance the output health map equals the input health map, for the
    LightningRod, the Roof, the top floors and every other entry. *)
Theorem lightning_absorbed_no_damage (buildingState : BuildingState)
    (health : ComponentHealth) (bonus : Q) (prevState : SimulationState)
    (waveNumber : Z) (spdaMaterial : MaterialTypeId) :
  (1 <= waveNumber <= 3)%Z ->
  wellShaped buildingState health ->
  buildingState LightningRod !! 0%nat = Some spdaMaterial ->
  (DISASTER_CONFIG LightningStorm * waveMultiplier_ref waveNumber
   <= resistance (COMPONENT_CONFIG LightningRod spdaMaterial))%Q ->
  exists out sim',
    runSimulationWave buildingState health bonus prevState LightningStorm waveNumber
    = Some (out, sim') /\
    out = health.
Proof.
  intros Hw Hs Em Hge.
  destruct (runSimulationWave_total buildingState health bonus prevState LightningStorm
              waveNumber Hs Hw) as (out & sim' & Hrun).
  pose proof (runSimulationWave_Some _ _ _ _ _ _ _ _ Hrun) as (_ & H & _).
  rewrite decide_True in H by reflexivity.
  apply lightningWave_spec in H as (m & Em' & H & _).
  rewrite Em in Em'. injection Em' as <-.
  exists out, sim'. split; [exact Hrun | exact (H Hge)].
Qed.

(** C10: for Earthquake, Hurricane and Tsunami the resolver returns a
    health map in which the four defense components, the one that
    absorbed the disaster included, hold exactly their input health. *)
Theorem uniform_wave_defenses_unchanged (buildingState : BuildingState)
    (health : ComponentHealth) (bonus : Q) (prevState : SimulationState)
    (disasterId : DisasterId) (waveNumber : Z) :
  disasterId <> LightningStorm ->
  (1 <= waveNumber <= 3)%Z ->
  wellShaped buildingState health ->
  exists out sim',
    runSimulationWave buildingState health bonus prevState disasterId waveNumber
    = Some (out, sim') /\
    out LightningRod = health LightningRod /\
    out WindDampers = health WindDampers /\
    out TsunamiBarriers = health TsunamiBarriers /\
    out SeismicDampers = health SeismicDampers.
Proof.
  intros Hd Hw Hs.
  destruct (runSimulationWave_total buildingState health bonus prevState disasterId
              waveNumber Hs Hw) as (out & sim' & Hrun).
  pose proof (runSimulationWave_Some _ _ _ _ _ _ _ _ Hrun) as (_ & H & _).
  rewrite decide_False in H by exact Hd.
  apply uniformWave_spec in H as (md & _ & H); [|exact Hd].
  exists out, sim'. split; [exact Hrun|].
  repeat split;
    match goal with
    | |- out ?d = _ => apply (proj2 (H d)), (bool_decide_unpack _); vm_compute; exact I
    end.
Qed.

(** ** The result classification *)






Lemma allHealthValues_nonempty (health : ComponentHealth) :
  (0 < length (health Roof))%nat -> allHealthValues health <> [].
Proof.
  intros H E. apply (f_equal length) in E.
  unfold allHealthValues in E. simpl in E. rewrite !length_app in E. simpl in E. lia.
Qed.

(** Waves 1 and 2 store no message: they move to the repair phase. *)
Lemma earlier_waves_do_not_classify (buildingState : BuildingState)
    (health : ComponentHealth) (bonus : Q) (prevState : SimulationState)
    (disasterId : DisasterId) (waveNumber : Z)
    (out : ComponentHealth) (sim' : SimulationState) :
  runSimulationWave buildingState health bonus prevState disasterId waveNumber
  = Some (out, sim') ->
  (waveNumber < 3)%Z ->
  phase sim' = repair waveNumber /\ resultMessage sim' = resultMessage prevState.
Proof.
  intros H Hw. apply runSimulationWave_Some in H as (_ & _ & ->).
  apply Z.ltb_lt in Hw. rewrite Hw. split; reflexivity.
Qed.



(** C8: Hurricane, wave 1, power 100, WindDampers resistance 20, bonus 0,
    a Glass level of resistance 10 and health 100: the level takes damage
    30 and the resolver leaves it at health 70. *)
Theorem hurricane_wave1_glass_example (buildingState : BuildingState)
    (health : ComponentHealth) (prevState : SimulationState)
    (i : nat) (windMaterial glassMaterial : MaterialTypeId) (h : Q) :
  wellShaped buildingState health ->
  (DISASTER_CONFIG Hurricane == 100)%Q ->
  buildingState WindDampers !! 0%nat = Some windMaterial ->
  (resistance (COMPONENT_CONFIG WindDampers windMaterial) == 20)%Q ->
  buildingState Glass !! i = Some glassMaterial ->
  (resistance (COMPONENT_CONFIG Glass glassMaterial) == 10)%Q ->
  health Glass !! i = Some h -> (h == 100)%Q ->
  exists out sim' v,
    runSimulationWave buildingState health 0 prevState Hurricane 1 = Some (out, sim') /\
    (levelDamage Hurricane
       (Qmax 0 (DISASTER_CONFIG Hurricane * 0.6
                - resistance (COMPONENT_CONFIG WindDampers windMaterial)))
       0 Glass (length (buildingState Glass)) glassMaterial i == 30)%Q /\
    out Glass !! i = Some v /\ (v == 70)%Q.
Proof.
  intros Hs HP Ew Hrw Eg Hrg Eh Hh.
  destruct (runSimulationWave_total buildingState health 0 prevState Hurricane 1 Hs)
    as (out & sim' & Hrun); [lia|].
  assert (Hd : Hurricane <> LightningStorm) by discriminate.
  destruct (runSimulationWave_uniform_level _ _ _ _ _ _ _ _ Hd Hrun) as (md & Emd & H).
  simpl in Emd. rewrite Ew in Emd. injection Emd as <-.
  change (waveMultiplier_ref 1) with 0.6%Q in H.
  assert (Hg : Glass ∉ defenseComponents).
  { intros Hin. apply (bool_decide_pack _) in Hin. vm_compute in Hin. exact Hin. }
  specialize (H Glass i glassMaterial h Hg Eg Eh).
  set (d := levelDamage Hurricane
              (Qmax 0 (DISASTER_CONFIG Hurricane * 0.6
                       - resistance (COMPONENT_CONFIG WindDampers windMaterial)))
              0 Glass (length (buildingState Glass)) glassMaterial i) in *.
  assert (D : (d == 30)%Q).
  { unfold d. rewrite levelDamage_ref.
    unfold healthDelta_ref, positionalModifier_ref.
    destruct (Q.max_spec 0 (DISASTER_CONFIG Hurricane * 0.6
                            - resistance (COMPONENT_CONFIG WindDampers windMaterial)))
      as [[? ->]|[? ->]];
    match goal with
    | |- (Qmax 0 ?x * _ * _ == _)%Q =>
        destruct (Q.max_spec 0 x) as [[? ->]|[? ->]]; lra
    end. }
  exists out, sim', (Qmax 0 (h - d)). split; [exact Hrun|].
  split; [exact D|]. split; [exact H|].
  destruct (Q.max_spec 0 (h - d)) as [[? ->]|[? ->]]; lra.
Qed.

(** ** The repair operation *)

(** C9: for every component and level whose health is below 100, the
    repair sets that health to exactly 100, leaves every other health
    value as it is, and adds exactly
    [(100 - currentHealth) * (materialCost / 200)] to the total cost, the
    price the panel shows; with material cost 200 and health 40 the
    charge is 60. *)
Theorem repair_restores_and_charges (buildingState : BuildingState)
    (health : ComponentHealth) (totalCost : Q)
    (componentId : BuildingComponentId) (levelIndex : nat)
    (materialId : MaterialTypeId) (currentHealth : Q) :
  buildingState componentId !! levelIndex = Some materialId ->
  health componentId !! levelIndex = Some currentHealth ->
  (currentHealth < 100)%Q ->
  let materialCost := cost (COMPONENT_CONFIG componentId materialId) in
  let charge := ((100 - currentHealth) * (materialCost / 200))%Q in
  exists newHealth,
    handleRepairComponent buildingState health totalCost componentId levelIndex
    = Some (newHealth, (totalCost + charge)%Q) /\
    newHealth componentId !! levelIndex = Some 100%Q /\
    (forall c i, (c, i) <> (componentId, levelIndex) -> newHealth c !! i = health c !! i) /\
    charge = shownRepairCost (COMPONENT_CONFIG componentId materialId) currentHealth /\
    ((materialCost == 200)%Q -> (currentHealth == 40)%Q -> (charge == 60)%Q).
Proof.
  intros Em Eh Hlt materialCost charge.
  unfold handleRepairComponent. rewrite Em, Eh. cbv zeta. cbn [mbind option_bind].
  destruct (Qleb 100 currentHealth) eqn:Eb.
  { apply Qleb_le in Eb. lra. }
  eexists. split; [reflexivity|].
  split.
  { rewrite fn_lookup_insert. apply list_lookup_insert_eq.
    eapply lookup_lt_Some; exact Eh. }
  split.
  { intros c i Hne. destruct (decide (componentId = c)) as [<-|Hc].
    - rewrite fn_lookup_insert. apply list_lookup_insert_ne. congruence.
    - rewrite fn_lookup_insert_ne by exact Hc. reflexivity. }
  split; [reflexivity|].
  intros Hc Hh. unfold charge. rewrite Hc, Hh. reflexivity.
Qed.

(** ** Two consequences for the application *)

(** The rod's health after a lightning wave is the same whatever the
    bonus. *)
Lemma lightning_rod_ignores_bonus (buildingState : BuildingState)
    (health : ComponentHealth) (bonus1 bonus2 : Q) (prevState : SimulationState)
    (waveNumber : Z) (out1 out2 : ComponentHealth) (sim1 sim2 : SimulationState) :
  runSimulationWave buildingState health bonus1 prevState LightningStorm waveNumber
  = Some (out1, sim1) ->
  runSimulationWave buildingState health bonus2 prevState LightningStorm waveNumber
  = Some (out2, sim2) ->
  out1 LightningRod = out2 LightningRod.
Proof.
  intros H1 H2.
  apply runSimulationWave_Some in H1 as (_ & H1 & _).
  apply runSimulationWave_Some in H2 as (_ & H2 & _).
  rewrite decide_True in H1, H2 by reflexivity.
  apply lightningWave_spec in H1 as (m & Em & G1 & L1).
  apply lightningWave_spec in H2 as (m' & Em' & G2 & L2).
  rewrite Em in Em'. injection Em' as <-. cbv zeta in *.
  destruct (Qlt_le_dec (resistance (COMPONENT_CONFIG LightningRod m))
              (DISASTER_CONFIG LightningStorm * waveMultiplier_ref waveNumber)) as [L|L].
  - destruct (L1 L) as (rod1 & roof1 & nh1 & Er1 & _ & -> & S1).
    destruct (L2 L) as (rod2 & roof2 & nh2 & Er2 & _ & -> & S2).
    rewrite Er1 in Er2. injection Er2 as <-.
    assert (F : LightningRod ∉ floorComponents).
    { intros Hin. apply (bool_decide_pack _) in Hin. vm_compute in Hin. exact Hin. }
    rewrite (strikeTopFloors_frame _ _ _ _ _ LightningRod S1 F).
    rewrite (strikeTopFloors_frame _ _ _ _ _ LightningRod S2 F).
    rewrite !(fn_lookup_insert_ne _ Roof LightningRod) by discriminate.
    rewrite !fn_lookup_insert. reflexivity.
  - rewrite (G1 L), (G2 L). reflexivity.
Qed.

(** With the bonus the application passes, [structuralBonus] of the same
    building, a wave only damages, provided the maximal bonus of the
    catalog lies between 0 and 1. *)
Lemma app_wave_only_damages (buildingState : BuildingState)
    (health : ComponentHealth) (prevState : SimulationState)
    (disasterId : DisasterId) (waveNumber : Z)
    (out : ComponentHealth) (sim' : SimulationState) :
  (0 <= MAX_STRUCTURAL_BONUS <= 1)%Q ->
  healthWithin 0 100 health ->
  runSimulationWave buildingState health (structuralBonus buildingState) prevState
    disasterId waveNumber = Some (out, sim') ->
  onlyDamaged health out.
Proof.
  intros [H0 H1] Hh Hrun.
  pose proof (structuralBonus_range buildingState H0) as [_ Hb].
  eapply runSimulationWave_onlyDamaged; [|exact Hh|exact Hrun]. lra.
Qed.

(** ** Material changes and the cost of the building *)

Lemma foldr_Qplus_acc (l : list Q) (a : Q) :
  (foldr Qplus a l == a + foldr Qplus 0 l)%Q.
Proof. induction l as [|x l IH]; simpl; [lra|]. rewrite IH. lra. Qed.

Lemma foldr_Qplus_app (l1 l2 : list Q) :
  (foldr Qplus 0 (l1 ++ l2) == foldr Qplus 0 l1 + foldr Qplus 0 l2)%Q.
Proof. rewrite foldr_app, foldr_Qplus_acc. lra. Qed.

(** Replacing one entry of a list moves its sum by the difference. *)
Lemma foldr_Qplus_insert {A : Type} (f : A -> Q) (l : list A) (i : nat) (x y : A) :
  l !! i = Some x ->
  (foldr Qplus 0 (map f (<[i := y]> l)) == foldr Qplus 0 (map f l) - f x + f y)%Q.
Proof.
  revert i. induction l as [|z l IH]; intros i E; [rewrite lookup_nil in E; discriminate|].
  destruct i as [|i]; simpl in *.
  - injection E as ->. lra.
  - rewrite (IH i E). lra.
Qed.

Lemma addLevelCosts_sum (c : BuildingComponentId) (levels : list MaterialTypeId) (acc : Q) :
  (addLevelCosts c levels acc
   == acc + foldr Qplus 0 (map (fun m => cost (COMPONENT_CONFIG c m)) levels))%Q.
Proof.
  unfold addLevelCosts. revert acc.
  induction levels as [|m levels IH]; intros acc; simpl; [lra|].
  rewrite IH. lra.
Qed.

(** The cost of the levels of the components [keys]. *)
Lemma buildingCost_keys (buildingState : BuildingState) (keys : list BuildingComponentId)
    (acc : Q) :
  (fold_left (fun acc c => addLevelCosts c (buildingState c) acc) keys acc
   == acc + foldr Qplus 0
              (map (fun c => foldr Qplus 0
                               (map (fun m => cost (COMPONENT_CONFIG c m)) (buildingState c)))
                 keys))%Q.
Proof.
  revert acc. induction keys as [|k keys IH]; intros acc; simpl; [lra|].
  rewrite IH, addLevelCosts_sum. lra.
Qed.

Lemma componentCosts_insert (buildingState : BuildingState) (c : BuildingComponentId)
    (levels : list MaterialTypeId) (keys : list BuildingComponentId) :
  NoDup keys -> c ∈ keys ->
  (foldr Qplus 0
     (map (fun k => foldr Qplus 0
                      (map (fun m => cost (COMPONENT_CONFIG k m))
                         ((<[c := levels]> buildingState) k)))
        keys)
   == foldr Qplus 0
        (map (fun k => foldr Qplus 0
                         (map (fun m => cost (COMPONENT_CONFIG k m)) (buildingState k)))
           keys)
      - foldr Qplus 0 (map (fun m => cost (COMPONENT_CONFIG c m)) (buildingState c))
      + foldr Qplus 0 (map (fun m => cost (COMPONENT_CONFIG c m)) levels))%Q.
Proof.
  induction 1 as [|k keys Hk Hnd IH]; intros Hc; [inversion Hc|].
  simpl. destruct (decide (k = c)) as [->|Hne].
  - rewrite fn_lookup_insert.
    assert (E : map (fun k => foldr Qplus 0%Q
                       (map (fun m => cost (COMPONENT_CONFIG k m))
                          ((<[c := levels]> buildingState) k))) keys
                = map (fun k => foldr Qplus 0%Q
                         (map (fun m => cost (COMPONENT_CONFIG k m)) (buildingState k))) keys).
    { apply map_ext_in. intros k Hin. rewrite fn_lookup_insert_ne; [reflexivity|].
      intros ->. apply Hk. apply list_elem_of_In. exact Hin. }
    rewrite E. lra.
  - rewrite fn_lookup_insert_ne by congruence.
    apply elem_of_cons in Hc as [->|Hc]; [congruence|].
    rewrite (IH Hc). lra.
Qed.

Lemma handleMaterialChange_Some (currentPhase : SimulationPhase)
    (buildingState buildingState' : BuildingState) (totalCost totalCost' : Q)
    (component : BuildingComponentId) (material : MaterialTypeId) (levelIndex : nat) :
  handleMaterialChange currentPhase buildingState totalCost component material levelIndex
  = Some (buildingState', totalCost') ->
  (buildingState' = buildingState /\ totalCost' = totalCost) \/
  (currentPhase = idle /\
   exists oldMaterialId,
     buildingState component !! levelIndex = Some oldMaterialId /\
     oldMaterialId <> material /\
     buildingState'
     = <[component := <[levelIndex := material]> (buildingState component)]> buildingState /\
     totalCost' = (totalCost + (cost (COMPONENT_CONFIG component material)
                                - cost (COMPONENT_CONFIG component oldMaterialId)))%Q).
Proof.
  unfold handleMaterialChange. intros H.
  destruct currentPhase; try (injection H as <- <-; left; split; reflexivity).
  destruct (buildingState component !! levelIndex) as [old|] eqn:E;
    cbn [mbind option_bind] in H; [|discriminate].
  destruct (decide (old = material)) as [->|Hne].
  - injection H as <- <-. left. split; reflexivity.
  - cbv zeta in H. injection H as <- <-. right. split; [reflexivity|].
    exists old. repeat split; assumption.
Qed.

Lemma handleMaterialChange_cost (currentPhase : SimulationPhase)
    (buildingState buildingState' : BuildingState) (totalCost totalCost' : Q)
    (component : BuildingComponentId) (material : MaterialTypeId) (levelIndex : nat) :
  handleMaterialChange currentPhase buildingState totalCost component material levelIndex
  = Some (buildingState', totalCost') ->
  (totalCost == buildingCost buildingState)%Q ->
  (totalCost' == buildingCost buildingState')%Q.
Proof.
  intros H Inv.
  apply handleMaterialChange_Some in H as [[-> ->]|(_ & old & E & _ & -> & ->)];
    [exact Inv|].
  unfold buildingCost in *. rewrite buildingCost_keys in *.
  rewrite (componentCosts_insert _ _ _ _ NoDup_allComponents (elem_of_allComponents _)).
  rewrite (foldr_Qplus_insert (fun m => cost (COMPONENT_CONFIG component m)) _ _ _ _ E).
  lra.
Qed.

Lemma materialSteps_cost (s0 s : BuildingState * Q) :
  rtc materialStep s0 s ->
  (s0.2 == buildingCost s0.1)%Q -> (s.2 == buildingCost s.1)%Q.
Proof.
  induction 1 as [s|s s' s'' Hstep Hsteps IH]; intros Inv; [exact Inv|].
  apply IH. destruct Hstep as [b b' t t' c m i Hc]. cbn [fst snd] in *.
  exact (handleMaterialChange_cost _ _ _ _ _ _ _ _ Hc Inv).
Qed.

(** X1: the total cost that [handleMaterialChange] keeps up to date by
    adding cost differences is, after any sequence of material changes
    from the initial state, the cost [calculateInitialCost] would compute
    for the building reached. *)
Theorem material_changes_keep_total_cost (buildingState : BuildingState) (totalCost : Q) :
  rtc materialStep (INITIAL_BUILDING_STATE, calculateInitialCost)
    (buildingState, totalCost) ->
  (totalCost == buildingCost buildingState)%Q.
Proof.
  intros H. apply (materialSteps_cost _ _ H). simpl. reflexivity.
Qed.

Lemma handleMaterialChange_length (currentPhase : SimulationPhase)
    (buildingState buildingState' : BuildingState) (totalCost totalCost' : Q)
    (component : BuildingComponentId) (material : MaterialTypeId) (levelIndex : nat)
    (c : BuildingComponentId) :
  handleMaterialChange currentPhase buildingState totalCost component material levelIndex
  = Some (buildingState', totalCost') ->
  length (buildingState' c) = length (buildingState c).
Proof.
  intros H.
  apply handleMaterialChange_Some in H as [[-> ->]|(_ & old & E & _ & -> & ->)];
    [reflexivity|].
  destruct (decide (component = c)) as [->|Hne].
  - rewrite fn_lookup_insert. apply length_insert.
  - rewrite fn_lookup_insert_ne by exact Hne. reflexivity.
Qed.

Lemma wellShaped_lengths (b b' : BuildingState) (h : ComponentHealth) :
  (forall c, length (b' c) = length (b c)) -> wellShaped b h -> wellShaped b' h.
Proof.
  intros L (Hs & Hf & H1). split; [|split].
  - intros c. rewrite L. apply Hs.
  - intros c Hc. rewrite !L. apply Hf, Hc.
  - intros c Hc. rewrite L. apply H1, Hc.
Qed.

(** X2: in the idle phase a material change at an existing level puts the
    new material at that level, leaves every other level of every
    component as it is, and keeps the shape of the building; at a level
    that does not exist the handler fails. *)
Theorem material_change_sets_one_level (buildingState : BuildingState) (totalCost : Q)
    (component : BuildingComponentId) (material : MaterialTypeId) (levelIndex : nat) :
  (is_Some (buildingState component !! levelIndex) ->
   exists buildingState' totalCost',
     handleMaterialChange idle buildingState totalCost component material levelIndex
     = Some (buildingState', totalCost') /\
     buildingState' component !! levelIndex = Some material /\
     (forall c i, (c, i) <> (component, levelIndex) ->
        buildingState' c !! i = buildingState c !! i) /\
     (forall health, wellShaped buildingState health -> wellShaped buildingState' health)) /\
  (buildingState component !! levelIndex = None ->
   handleMaterialChange idle buildingState totalCost component material levelIndex = None).
Proof.
  split.
  - intros [old E]. unfold handleMaterialChange. rewrite E. cbn [mbind option_bind].
    destruct (decide (old = material)) as [->|Hne].
    + exists buildingState, totalCost. split; [reflexivity|]. split; [exact E|].
      split; [reflexivity|]. intros health Hs. exact Hs.
    + cbv zeta. eexists _, _. split; [reflexivity|]. split; [|split].
      * rewrite fn_lookup_insert. apply list_lookup_insert_eq.
        eapply lookup_lt_Some; exact E.
      * intros c i Hci. destruct (decide (component = c)) as [<-|Hc].
        -- rewrite fn_lookup_insert. apply list_lookup_insert_ne. congruence.
        -- rewrite fn_lookup_insert_ne by exact Hc. reflexivity.
      * intros health. apply wellShaped_lengths. intros c.
        destruct (decide (component = c)) as [<-|Hc].
        -- rewrite fn_lookup_insert. apply length_insert.
        -- rewrite fn_lookup_insert_ne by exact Hc. reflexivity.
  - intros E. unfold handleMaterialChange. rewrite E. reflexivity.
Qed.

(** X3: a material change followed by the change back to the old material
    restores every level of the building and the total cost. *)
Theorem material_change_round_trip (buildingState : BuildingState) (totalCost : Q)
    (component : BuildingComponentId) (material oldMaterialId : MaterialTypeId)
    (levelIndex : nat) :
  buildingState component !! levelIndex = Some oldMaterialId ->
  exists b1 cost1 b2 cost2,
    handleMaterialChange idle buildingState totalCost component material levelIndex
    = Some (b1, cost1) /\
    handleMaterialChange idle b1 cost1 component oldMaterialId levelIndex
    = Some (b2, cost2) /\
    (forall c, b2 c = buildingState c) /\
    (cost2 == totalCost)%Q.
Proof.
  intros E. unfold handleMaterialChange. rewrite E. cbn [mbind option_bind].
  destruct (decide (oldMaterialId = material)) as [->|Hne].
  - exists buildingState, totalCost, buildingState, totalCost.
    split; [reflexivity|]. rewrite E. cbn [mbind option_bind].
    rewrite decide_True by reflexivity.
    split; [reflexivity|]. split; [reflexivity|]. reflexivity.
  - cbv zeta. eexists _, _, _, _. split; [reflexivity|].
    rewrite fn_lookup_insert.
    rewrite list_lookup_insert_eq by (eapply lookup_lt_Some; exact E).
    cbn [mbind option_bind].
    rewrite decide_False by congruence.
    split; [reflexivity|]. split.
    + intros c. destruct (decide (component = c)) as [<-|Hc].
      * rewrite !fn_lookup_insert. rewrite list_insert_insert_eq.
        apply list_insert_id. exact E.
      * rewrite !fn_lookup_insert_ne by exact Hc. reflexivity.
    + lra.
Qed.

(** X4: a material change to a component other than Pillars, Beams and
    Floor leaves the structural bonus as it is. *)
Theorem material_change_keeps_bonus (currentPhase : SimulationPhase)
    (buildingState buildingState' : BuildingState) (totalCost totalCost' : Q)
    (component : BuildingComponentId) (material : MaterialTypeId) (levelIndex : nat) :
  component ∉ structuralComponents ->
  handleMaterialChange currentPhase buildingState totalCost component material levelIndex
  = Some (buildingState', totalCost') ->
  structuralBonus buildingState' = structuralBonus buildingState.
Proof.
  intros Hc H.
  apply handleMaterialChange_Some in H as [[-> ->]|(_ & old & E & _ & -> & ->)];
    [reflexivity|].
  unfold structuralBonus, scanStructure. simpl.
  rewrite !fn_lookup_insert_ne; [reflexivity| | |];
    intros ->; apply Hc, (bool_decide_unpack _); vm_compute; exact I.
Qed.

Lemma selectedResistances_sum (buildingState : BuildingState) :
  (foldr Qplus 0 (selectedResistances buildingState)
   == foldr Qplus 0 (map (fun m => resistance (COMPONENT_CONFIG Pillars m))
                       (buildingState Pillars))
      + foldr Qplus 0 (map (fun m => resistance (COMPONENT_CONFIG Beams m))
                         (buildingState Beams))
      + foldr Qplus 0 (map (fun m => resistance (COMPONENT_CONFIG Floor m))
                         (buildingState Floor)))%Q.
Proof.
  unfold selectedResistances. simpl. rewrite app_nil_r, !foldr_Qplus_app. lra.
Qed.

Lemma selectedResistances_length (buildingState : BuildingState) :
  length (selectedResistances buildingState)
  = (length (buildingState Pillars) + length (buildingState Beams)
     + length (buildingState Floor))%nat.
Proof.
  unfold selectedResistances. simpl. rewrite app_nil_r, !length_app, !length_map. lia.
Qed.

(** The sum of the resistances of one component after a write to a level
    of [component]. *)
Lemma resistanceSum_insert (buildingState : BuildingState)
    (component : BuildingComponentId) (levelIndex : nat) (old material : MaterialTypeId)
    (k : BuildingComponentId) :
  buildingState component !! levelIndex = Some old ->
  (foldr Qplus 0
     (map (fun m => resistance (COMPONENT_CONFIG k m))
        ((<[component := <[levelIndex := material]> (buildingState component)]>
            buildingState) k))
   == foldr Qplus 0 (map (fun m => resistance (COMPONENT_CONFIG k m)) (buildingState k))
      + (if decide (component = k)
         then resistance (COMPONENT_CONFIG k material) - resistance (COMPONENT_CONFIG k old)
         else 0))%Q.
Proof.
  intros E. destruct (decide (component = k)) as [<-|Hne].
  - rewrite fn_lookup_insert.
    rewrite (foldr_Qplus_insert (fun m => resistance (COMPONENT_CONFIG component m))
               _ _ _ _ E). lra.
  - rewrite fn_lookup_insert_ne by exact Hne. lra.
Qed.

(** X5: replacing the material of a level of Pillars, Beams or Floor by
    one of at least the same resistance does not lower the structural
    bonus.  The maximal bonus of the catalog is taken non-negative. *)
Theorem material_upgrade_keeps_or_raises_bonus (buildingState buildingState' : BuildingState)
    (totalCost totalCost' : Q) (component : BuildingComponentId)
    (material oldMaterialId : MaterialTypeId) (levelIndex : nat) :
  (0 <= MAX_STRUCTURAL_BONUS)%Q ->
  component ∈ structuralComponents ->
  buildingState component !! levelIndex = Some oldMaterialId ->
  (resistance (COMPONENT_CONFIG component oldMaterialId)
   <= resistance (COMPONENT_CONFIG component material))%Q ->
  handleMaterialChange idle buildingState totalCost component material levelIndex
  = Some (buildingState', totalCost') ->
  (structuralBonus buildingState <= structuralBonus buildingState')%Q.
Proof.
  intros HB Hc E Hr H. unfold structuralComponents in Hc.
  apply handleMaterialChange_Some in H as [[-> ->]|(_ & old & E' & _ & -> & ->)]; [lra|].
  rewrite E in E'. injection E' as <-.
  set (b' := <[component := <[levelIndex := material]> (buildingState component)]>
               buildingState).
  assert (Hlen : length (selectedResistances b') = length (selectedResistances buildingState)).
  { rewrite !selectedResistances_length. unfold b'.
    destruct (decide (component = Pillars)) as [->|?];
      [rewrite fn_lookup_insert, length_insert, !fn_lookup_insert_ne by discriminate; lia|].
    destruct (decide (component = Beams)) as [->|?];
      [rewrite fn_lookup_insert, length_insert, !fn_lookup_insert_ne by discriminate; lia|].
    destruct (decide (component = Floor)) as [->|?];
      [rewrite fn_lookup_insert, length_insert, !fn_lookup_insert_ne by discriminate; lia|].
    rewrite !fn_lookup_insert_ne by congruence. lia. }
  assert (Hpos : (0 < length (selectedResistances buildingState))%nat).
  { rewrite selectedResistances_length.
    pose proof (lookup_lt_Some _ _ _ E) as Hi.
    repeat (apply elem_of_cons in Hc as [->|Hc]; [lia|]). inversion Hc. }
  assert (Hsum : (foldr Qplus 0 (selectedResistances buildingState)
                  <= foldr Qplus 0 (selectedResistances b'))%Q).
  { rewrite !selectedResistances_sum. unfold b'.
    rewrite !(resistanceSum_insert _ _ _ _ _ _ E).
    repeat (apply elem_of_cons in Hc as [->|Hc];
            [repeat case_decide; try discriminate; try congruence; lra|]).
    inversion Hc. }
  assert (Havg : (averageResistance buildingState <= averageResistance b')%Q).
  { unfold averageResistance. cbv zeta. rewrite Hlen.
    unfold Qdiv. apply Qmult_le_compat_r; [exact Hsum|].
    apply Qlt_le_weak, Qinv_lt_0_compat, num_pos, Hpos. }
  destruct (structuralBonus_cases buildingState) as [[E1 _]|[_ H1]].
  { rewrite E1 in Hpos. simpl in Hpos. lia. }
  destruct (structuralBonus_cases b') as [[E2 _]|[_ H2]].
  { rewrite E2 in Hlen. simpl in Hlen. lia. }
  rewrite H1, H2. apply bonusOfAverage_mono; assumption.
Qed.

(** ** Repairs *)

Lemma handleRepairComponent_Some (buildingState : BuildingState)
    (health health' : ComponentHealth) (totalCost totalCost' : Q)
    (componentId : BuildingComponentId) (levelIndex : nat) :
  handleRepairComponent buildingState health totalCost componentId levelIndex
  = Some (health', totalCost') ->
  exists currentHealth,
    health componentId !! levelIndex = Some currentHealth /\
    (((100 <= currentHealth)%Q /\ health' = health /\ totalCost' = totalCost) \/
     ((currentHealth < 100)%Q /\
      exists materialId,
        buildingState componentId !! levelIndex = Some materialId /\
        health' = <[componentId := <[levelIndex := 100%Q]> (health componentId)]> health /\
        totalCost'
        = (totalCost
           + (100 - currentHealth) * (cost (COMPONENT_CONFIG componentId materialId) / 200))%Q)).
Proof.
  unfold handleRepairComponent. cbv zeta. intros H.
  destruct (health componentId !! levelIndex) as [v|];
    cbn [mbind option_bind] in H; [|discriminate].
  exists v. split; [reflexivity|].
  destruct (Qleb 100 v) eqn:Eb.
  - apply Qleb_le in Eb. injection H as <- <-. left. repeat split. exact Eb.
  - apply Qleb_gt in Eb.
    destruct (buildingState componentId !! levelIndex) as [m|];
      cbn [mbind option_bind] in H; [|discriminate].
    injection H as <- <-. right. split; [exact Eb|]. exists m. repeat split.
Qed.

(** X6: a repair that has been made leaves nothing to repair at that
    level: the same repair again changes neither the health map nor the
    total cost. *)
Theorem repair_twice_is_repair_once (buildingState : BuildingState)
    (health health' : ComponentHealth) (totalCost totalCost' : Q)
    (componentId : BuildingComponentId) (levelIndex : nat) :
  handleRepairComponent buildingState health totalCost componentId levelIndex
  = Some (health', totalCost') ->
  handleRepairComponent buildingState health' totalCost' componentId levelIndex
  = Some (health', totalCost').
Proof.
  intros H.
  apply handleRepairComponent_Some in H
    as (v & Ev & [(Hv & -> & ->)|(Hv & m & Em & -> & ->)]);
    unfold handleRepairComponent; cbv zeta.
  - rewrite Ev. cbn [mbind option_bind].
    apply Qleb_le in Hv. rewrite Hv. reflexivity.
  - rewrite fn_lookup_insert.
    rewrite list_lookup_insert_eq by (eapply lookup_lt_Some; exact Ev).
    cbn [mbind option_bind]. reflexivity.
Qed.

(** X7: a repair never charges less than nothing nor more than half the
    cost of the level's material, and the repair of a level at health 0
    charges exactly that half; the material's cost is taken non-negative
    and the health between 0 and 100. *)
Theorem repair_charge_at_most_half_cost (buildingState : BuildingState)
    (health : ComponentHealth) (totalCost : Q)
    (componentId : BuildingComponentId) (levelIndex : nat)
    (materialId : MaterialTypeId) (currentHealth : Q) :
  buildingState componentId !! levelIndex = Some materialId ->
  health componentId !! levelIndex = Some currentHealth ->
  (0 <= currentHealth <= 100)%Q ->
  (0 <= cost (COMPONENT_CONFIG componentId materialId))%Q ->
  exists health' totalCost',
    handleRepairComponent buildingState health totalCost componentId levelIndex
    = Some (health', totalCost') /\
    (totalCost <= totalCost'
     <= totalCost + cost (COMPONENT_CONFIG componentId materialId) / 2)%Q /\
    ((currentHealth == 0)%Q ->
     (totalCost' == totalCost + cost (COMPONENT_CONFIG componentId materialId) / 2)%Q).
Proof.
  intros Em Ev [Hv0 Hv1] Hc.
  unfold handleRepairComponent. rewrite Em, Ev. cbv zeta. cbn [mbind option_bind].
  set (k := cost (COMPONENT_CONFIG componentId materialId)) in *.
  assert (Hk : (k / 200 == k * (1 # 200))%Q) by (unfold Qdiv; reflexivity).
  assert (Hk2 : (k / 2 == k * (1 # 2))%Q) by (unfold Qdiv; reflexivity).
  destruct (Qleb 100 currentHealth) eqn:Eb.
  - apply Qleb_le in Eb. eexists _, _. split; [reflexivity|].
    rewrite Hk2. split; [lra|]. intros E0. lra.
  - cbv zeta. eexists _, _. split; [reflexivity|].
    rewrite Hk, Hk2. split; [split; nra|]. intros E0. rewrite E0. lra.
Qed.

Lemma onlyDamaged_within (before after : ComponentHealth) :
  onlyDamaged before after -> healthWithin 0 100 before -> healthWithin 0 100 after.
Proof.
  intros Hod Hh c i v' E'. destruct (Hod c) as [Hlen Hv].
  destruct (lookup_lt_is_Some_2 (before c) i) as [v E].
  { rewrite <- Hlen. eapply lookup_lt_Some; exact E'. }
  destruct (Hv i v v' E E'). destruct (Hh c i v E). lra.
Qed.

Lemma wellShaped_health_lengths (b : BuildingState) (h h' : ComponentHealth) :
  (forall c, length (h' c) = length (h c)) -> wellShaped b h -> wellShaped b h'.
Proof.
  intros L (Hs & Hf & H1). split; [|split; assumption].
  intros c. rewrite L. apply Hs.
Qed.

Lemma handleRepairComponent_length (buildingState : BuildingState)
    (health health' : ComponentHealth) (totalCost totalCost' : Q)
    (componentId : BuildingComponentId) (levelIndex : nat) (c : BuildingComponentId) :
  handleRepairComponent buildingState health totalCost componentId levelIndex
  = Some (health', totalCost') ->
  length (health' c) = length (health c).
Proof.
  intros H.
  apply handleRepairComponent_Some in H
    as (v & Ev & [(Hv & -> & ->)|(Hv & m & Em & -> & ->)]); [reflexivity|].
  destruct (decide (componentId = c)) as [<-|Hne].
  - rewrite fn_lookup_insert. apply length_insert.
  - rewrite fn_lookup_insert_ne by exact Hne. reflexivity.
Qed.

(** A repair never lowers a health value and keeps the values within
    their range. *)
Lemma handleRepairComponent_raises (buildingState : BuildingState)
    (health health' : ComponentHealth) (totalCost totalCost' : Q)
    (componentId : BuildingComponentId) (levelIndex : nat) :
  handleRepairComponent buildingState health totalCost componentId levelIndex
  = Some (health', totalCost') ->
  healthWithin 0 100 health ->
  healthWithin 0 100 health' /\
  forall c i v v', health c !! i = Some v -> health' c !! i = Some v' -> (v <= v')%Q.
Proof.
  intros H Hh.
  apply handleRepairComponent_Some in H
    as (v0 & Ev & [(Hv & -> & ->)|(Hv & m & Em & -> & ->)]).
  { split; [exact Hh|]. intros c i v v' E E'. rewrite E in E'. injection E' as <-. lra. }
  assert (Hcase : forall c i v',
            (<[componentId := <[levelIndex := 100%Q]> (health componentId)]> health) c !! i
            = Some v' ->
            (c = componentId /\ i = levelIndex /\ v' = 100%Q) \/ health c !! i = Some v').
  { intros c i v' E'. destruct (decide (componentId = c)) as [<-|Hne].
    - rewrite fn_lookup_insert in E'. destruct (decide (levelIndex = i)) as [<-|Hi].
      + rewrite list_lookup_insert_eq in E' by (eapply lookup_lt_Some; exact Ev).
        injection E' as <-. left. repeat split.
      + rewrite list_lookup_insert_ne in E' by exact Hi. right. exact E'.
    - rewrite fn_lookup_insert_ne in E' by exact Hne. right. exact E'. }
  split.
  - intros c i v' E'. destruct (Hcase c i v' E') as [(-> & -> & ->)|E].
    + split; discriminate.
    + eapply Hh; exact E.
  - intros c i v v' E E'. destruct (Hcase c i v' E') as [(-> & -> & ->)|E2].
    + destruct (Hh _ _ _ E). lra.
    + rewrite E in E2. injection E2 as <-. lra.
Qed.

Lemma healthStep_invariant (buildingState : BuildingState) (health health' : ComponentHealth) :
  (0 <= MAX_STRUCTURAL_BONUS <= 1)%Q ->
  healthStep buildingState health health' ->
  wellShaped buildingState health /\ healthWithin 0 100 health ->
  wellShaped buildingState health' /\ healthWithin 0 100 health'.
Proof.
  intros HM Hstep [Hs Hh].
  destruct Hstep as [h out sim sim' d w Hrun | h h' t t' c i Hrep].
  - pose proof (app_wave_only_damages _ _ _ _ _ _ _ HM Hh Hrun) as Hod. split.
    + apply (wellShaped_health_lengths _ h); [|exact Hs]. intros c. apply Hod.
    + eapply onlyDamaged_within; eassumption.
  - split.
    + apply (wellShaped_health_lengths _ h); [|exact Hs]. intros c'.
      eapply handleRepairComponent_length; exact Hrep.
    + eapply handleRepairComponent_raises; eassumption.
Qed.

(** X8: through any sequence of waves and repairs on a building, a health
    map that starts well-shaped with all values in [0, 100] stays so.
    The maximal bonus of the catalog is taken between 0 and 1. *)
Theorem session_keeps_health_in_range (buildingState : BuildingState)
    (health health' : ComponentHealth) :
  (0 <= MAX_STRUCTURAL_BONUS <= 1)%Q ->
  wellShaped buildingState health ->
  healthWithin 0 100 health ->
  rtc (healthStep buildingState) health health' ->
  wellShaped buildingState health' /\ healthWithin 0 100 health'.
Proof.
  intros HM Hs Hh Hsteps.
  induction Hsteps as [h|h h1 h2 Hstep Hsteps IH]; [split; assumption|].
  destruct (healthStep_invariant _ _ _ HM Hstep (conj Hs Hh)) as [Hs1 Hh1].
  apply IH; assumption.
Qed.

(** ** The overall health *)

Lemma num_S (n : nat) : (num (S n) == num n + 1)%Q.
Proof.
  unfold num. rewrite Nat2Z.inj_succ, <- Z.add_1_r, inject_Z_plus. reflexivity.
Qed.

Lemma values_Forall (P : Q -> Prop) (health : ComponentHealth)
    (keys : list BuildingComponentId) :
  (forall c i v, health c !! i = Some v -> P v) ->
  Forall P (concat (map health keys)).
Proof.
  intros H. induction keys as [|k keys IH]; simpl; [constructor|].
  apply Forall_app. split; [|exact IH].
  apply Forall_lookup_2. intros i v. apply H.
Qed.

Lemma values_Forall2 (R : Q -> Q -> Prop) (h1 h2 : ComponentHealth)
    (keys : list BuildingComponentId) :
  (forall c, Forall2 R (h1 c) (h2 c)) ->
  Forall2 R (concat (map h1 keys)) (concat (map h2 keys)).
Proof.
  intros H. induction keys as [|k keys IH]; simpl; [constructor|].
  apply Forall2_app; [apply H | exact IH].
Qed.

Lemma jsAdd_mono (a1 a2 b1 b2 : Q) :
  (a1 <= a2)%Q -> (b1 <= b2)%Q -> (jsAdd a1 b1 <= jsAdd a2 b2)%Q.
Proof. intros Ha Hb. unfold jsAdd. apply round64_mono. lra. Qed.

Lemma jsDiv_mono (a b n : Q) : (0 < n)%Q -> (a <= b)%Q -> (jsDiv a n <= jsDiv b n)%Q.
Proof.
  intros Hn H. unfold jsDiv. apply round64_mono. unfold Qdiv.
  apply Qmult_le_compat_r; [exact H|]. apply Qlt_le_weak, Qinv_lt_0_compat, Hn.
Qed.

(** A sum computed with rounding keeps the order of its terms. *)
Lemma reduceSum_mono (l1 l2 : list Q) :
  Forall2 Qle l1 l2 ->
  forall a1 a2, (a1 <= a2)%Q -> (fold_left jsAdd l1 a1 <= fold_left jsAdd l2 a2)%Q.
Proof.
  induction 1 as [|x y l1 l2 Hxy _ IH]; intros a1 a2 Ha; simpl; [exact Ha|].
  apply IH. apply jsAdd_mono; assumption.
Qed.

(** While the whole numbers [100 k] are binary64 numbers, the rounded sum
    of [k] values of at most 100 is at most [100 k]. *)
Lemma reduceSum_within (l : list Q) :
  Forall (fun x => (0 <= x <= 100)%Q) l ->
  forall (k : Z) (total : Q),
    (0 <= k)%Z -> (100 * (k + Z.of_nat (length l)) < 2 ^ 53)%Z ->
    (0 <= total <= inject_Z (100 * k))%Q ->
    (0 <= fold_left jsAdd l total <= inject_Z (100 * (k + Z.of_nat (length l))))%Q.
Proof.
  induction 1 as [|x l [Hx0 Hx1] _ IH]; intros k total Hk Hb [T0 T1].
  - simpl. rewrite Z.add_0_r. split; assumption.
  - simpl fold_left. simpl length in *.
    replace (k + Z.of_nat (S (length l)))%Z with ((k + 1) + Z.of_nat (length l))%Z in * by lia.
    apply IH; [lia|exact Hb|]. unfold jsAdd. split.
    + rewrite <- (round64_zero 0 (Qeq_refl 0)). apply round64_mono. lra.
    + rewrite <- (round64_Z (100 * (k + 1))) by lia. apply round64_mono.
      replace (100 * (k + 1))%Z with (100 * k + 100)%Z by lia.
      rewrite inject_Z_plus. change (inject_Z 100) with 100%Q. lra.
Qed.

Lemma overallHealth_mono (h1 h2 : ComponentHealth) :
  (forall c, Forall2 Qle (h1 c) (h2 c)) -> (overallHealth h1 <= overallHealth h2)%Q.
Proof.
  intros H.
  pose proof (values_Forall2 Qle h1 h2 allComponents H) as F.
  unfold overallHealth, allHealthValues. cbv zeta.
  rewrite <- (Forall2_length _ _ _ F).
  destruct (length (concat (map h1 allComponents))) as [|n] eqn:En; simpl Nat.eqb;
    cbv iota; [lra|].
  apply jsDiv_mono; [apply num_pos; lia|].
  apply reduceSum_mono; [exact F|lra].
Qed.

(** X9: the overall health shown in the integrity bar lies in [0, 100]
    whenever every health value does and there are fewer than [2 ^ 46]
    of them, so that the sums stay among the whole numbers that binary64
    holds exactly; for a health map with no value at all it is 100. *)
Theorem overallHealth_in_range (health : ComponentHealth) :
  healthWithin 0 100 health ->
  (Z.of_nat (length (allHealthValues health)) < 2 ^ 46)%Z ->
  (0 <= overallHealth health <= 100)%Q /\
  (allHealthValues health = [] -> overallHealth health = 100%Q).
Proof.
  intros Hh Hcount. split.
  2:{ intros E. unfold overallHealth. cbv zeta. rewrite E. reflexivity. }
  unfold overallHealth. cbv zeta.
  pose proof (reduceSum_within (allHealthValues health)
                (values_Forall _ health allComponents Hh) 0 0%Q) as HS.
  destruct (length (allHealthValues health)) as [|n] eqn:En; simpl Nat.eqb; cbv iota;
    [lra|].
  assert (Hn : (0 < num (S n))%Q) by (apply num_pos; lia).
  assert (H0 : (0 <= 0 <= inject_Z (100 * 0))%Q) by (split; apply Qle_refl).
  destruct (HS ltac:(lia) ltac:(lia) H0) as [S0 S1].
  replace (100 * (0 + Z.of_nat (S n)))%Z with (100 * Z.of_nat (S n))%Z in S1 by lia.
  rewrite inject_Z_mult in S1. change (inject_Z 100) with 100%Q in S1.
  fold (num (S n)) in S1. fold (reduceSum (allHealthValues health)) in S0, S1.
  unfold jsDiv. split.
  - rewrite <- (round64_zero 0 (Qeq_refl 0)). apply round64_mono.
    apply Qle_shift_div_l; [exact Hn|]. lra.
  - rewrite <- (round64_Z 100) by lia. apply round64_mono.
    change (inject_Z 100) with 100%Q.
    apply Qle_shift_div_r; [exact Hn|]. lra.
Qed.

(** X10: a wave never raises the overall health, for a bonus of at most 1
    and a health map with values in [0, 100]. *)
Theorem wave_never_raises_overall_health (buildingState : BuildingState)
    (health : ComponentHealth) (bonus : Q) (prevState : SimulationState)
    (disasterId : DisasterId) (waveNumber : Z)
    (out : ComponentHealth) (sim' : SimulationState) :
  (bonus <= 1)%Q -> healthWithin 0 100 health ->
  runSimulationWave buildingState health bonus prevState disasterId waveNumber
  = Some (out, sim') ->
  (overallHealth out <= overallHealth health)%Q.
Proof.
  intros Hb Hh Hrun.
  pose proof (runSimulationWave_onlyDamaged _ _ _ _ _ _ _ _ Hb Hh Hrun) as Hod.
  apply overallHealth_mono. intros c. destruct (Hod c) as [Hlen Hv].
  apply Forall2_same_length_lookup_2; [exact Hlen|].
  intros i v' v E' E. apply (Hv i v v' E E').
Qed.

(** X11: a repair never lowers the overall health, for a health map with
    values in [0, 100]. *)
Theorem repair_never_lowers_overall_health (buildingState : BuildingState)
    (health health' : ComponentHealth) (totalCost totalCost' : Q)
    (componentId : BuildingComponentId) (levelIndex : nat) :
  healthWithin 0 100 health ->
  handleRepairComponent buildingState health totalCost componentId levelIndex
  = Some (health', totalCost') ->
  (overallHealth health <= overallHealth health')%Q.
Proof.
  intros Hh H.
  pose proof (handleRepairComponent_raises _ _ _ _ _ _ _ H Hh) as [_ Hv].
  apply overallHealth_mono. intros c.
  apply Forall2_same_length_lookup_2.
  - symmetry. eapply handleRepairComponent_length; exact H.
  - intros i v v' E E'. apply (Hv c i v v' E E').
Qed.

(** X12: the message stored after the third wave is the tier of the
    overall health of the new health map: the integrity bar and the
    message go by the same number. *)
Theorem result_message_follows_overall_health (buildingState : BuildingState)
    (health : ComponentHealth) (bonus : Q) (prevState : SimulationState)
    (disasterId : DisasterId) (out : ComponentHealth) (sim' : SimulationState) :
  runSimulationWave buildingState health bonus prevState disasterId 3 = Some (out, sim') ->
  allHealthValues out <> [] ->
  resultMessage sim' =
    Some (if Qltb 75 (overallHealth out) then MinimalDamage
          else if Qltb 50 (overallHealth out) then SignificantDamage
          else if Qltb 20 (overallHealth out) then SeverelyCompromised
          else TotalCollapse).
Proof.
  intros Hrun Hne.
  apply runSimulationWave_Some in Hrun as (_ & _ & ->). simpl.
  unfold classify, overallHealth. cbv zeta.
  destruct (allHealthValues out) as [|v vs] eqn:E; [congruence|]. reflexivity.
Qed.

(** ** The phases of a simulation *)

(** X13: a simulation runs through its phases in order.  Starting a
    disaster makes the effect call wave 1; each of the waves 1 and 2 ends
    in its repair phase, where no wave is called until [handleNextWave]
    moves on to the next one; wave 3 ends in the results phase with a
    message, where neither the effect nor [handleNextWave] does anything
    more.  The health maps the three waves meet are arbitrary well-shaped
    ones. *)
Theorem three_waves_reach_results (buildingState : BuildingState)
    (health1 health2 health3 : ComponentHealth) (bonus : Q) (disasterId : DisasterId) :
  wellShaped buildingState health1 ->
  wellShaped buildingState health2 ->
  wellShaped buildingState health3 ->
  waveEffect (handleStartSimulation disasterId) = Some (disasterId, 1%Z) /\
  exists out1 sim1,
    runSimulationWave buildingState health1 bonus (handleStartSimulation disasterId)
      disasterId 1 = Some (out1, sim1) /\
    phase sim1 = repair 1 /\ waveEffect sim1 = None /\
    waveEffect (handleNextWave sim1) = Some (disasterId, 2%Z) /\
    exists out2 sim2,
      runSimulationWave buildingState health2 bonus (handleNextWave sim1)
        disasterId 2 = Some (out2, sim2) /\
      phase sim2 = repair 2 /\ waveEffect sim2 = None /\
      waveEffect (handleNextWave sim2) = Some (disasterId, 3%Z) /\
      exists out3 sim3,
        runSimulationWave buildingState health3 bonus (handleNextWave sim2)
          disasterId 3 = Some (out3, sim3) /\
        phase sim3 = results /\ is_Some (resultMessage sim3) /\
        activeDisaster sim3 = Some disasterId /\
        waveEffect sim3 = None /\ handleNextWave sim3 = sim3.
Proof.
  intros Hs1 Hs2 Hs3. split; [reflexivity|].
  destruct (runSimulationWave_total buildingState health1 bonus
              (handleStartSimulation disasterId) disasterId 1 Hs1 ltac:(lia))
    as (out1 & sim1 & Hrun1).
  pose proof (runSimulationWave_Some _ _ _ _ _ _ _ _ Hrun1) as (_ & _ & E1).
  simpl in E1. subst sim1.
  do 2 eexists. split; [exact Hrun1|].
  split; [reflexivity|]. split; [reflexivity|]. split; [reflexivity|].
  destruct (runSimulationWave_total buildingState health2 bonus
              (handleNextWave (mkSim (repair 1) (Some disasterId) None)) disasterId 2 Hs2
              ltac:(lia)) as (out2 & sim2 & Hrun2).
  pose proof (runSimulationWave_Some _ _ _ _ _ _ _ _ Hrun2) as (_ & _ & E2).
  simpl in E2. subst sim2.
  do 2 eexists. split; [exact Hrun2|].
  split; [reflexivity|]. split; [reflexivity|]. split; [reflexivity|].
  destruct (runSimulationWave_total buildingState health3 bonus
              (handleNextWave (mkSim (repair 2) (Some disasterId) None)) disasterId 3 Hs3
              ltac:(lia)) as (out3 & sim3 & Hrun3).
  pose proof (runSimulationWave_Some _ _ _ _ _ _ _ _ Hrun3) as (_ & _ & E3).
  simpl in E3. subst sim3.
  do 2 eexists. split; [exact Hrun3|].
  split; [reflexivity|]. split; [simpl; eauto|].
  split; [reflexivity|]. split; reflexivity.
Qed.

(** ** The list of damaged levels *)

Lemma hasGroup_false_map (groups : list DamagedGroup) (c : BuildingComponentId)
    (f : DamagedGroup -> DamagedGroup) :
  hasGroup groups c = false ->
  map (fun g => if decide (group_componentId g = c) then f g else g) groups = groups.
Proof.
  unfold hasGroup. induction groups as [|g groups IH]; simpl; [reflexivity|].
  intros H. apply orb_false_iff in H as [Hg Hrest].
  apply bool_decide_eq_false in Hg.
  rewrite decide_False by exact Hg. f_equal. apply IH, Hrest.
Qed.

Lemma hasGroup_app (g1 g2 : list DamagedGroup) (c : BuildingComponentId) :
  hasGroup (g1 ++ g2) c = hasGroup g1 c || hasGroup g2 c.
Proof. unfold hasGroup. apply existsb_app. Qed.

Lemma pushDamaged_withItems (groups : list DamagedGroup) (c : BuildingComponentId)
    (items : list DamagedItem) (item : DamagedItem) :
  hasGroup groups c = false ->
  pushDamaged (withItems groups c items) c item = withItems groups c (items ++ [item]).
Proof.
  intros H. unfold pushDamaged.
  destruct items as [|i0 items]; simpl withItems.
  - rewrite H. rewrite map_app, (hasGroup_false_map _ _ _ H). simpl.
    rewrite decide_True by reflexivity. reflexivity.
  - rewrite hasGroup_app, H. simpl. rewrite bool_decide_eq_true_2 by reflexivity.
    simpl. rewrite map_app, (hasGroup_false_map _ _ _ H). simpl.
    rewrite decide_True by reflexivity.
    destruct (items ++ [item]) eqn:E; [destruct items; discriminate|].
    rewrite <- E. reflexivity.
Qed.

Lemma collectDamaged_spec (buildingState : BuildingState) (c : BuildingComponentId)
    (healths : list Q) :
  forall (index : nat) (groups : list DamagedGroup) (items : list DamagedItem),
    hasGroup groups c = false ->
    collectDamaged buildingState c healths index (withItems groups c items)
    = (new ← damagedFrom buildingState c healths index;
       Some (withItems groups c (items ++ new))).
Proof.
  induction healths as [|v rest IH]; intros index groups items H; simpl.
  - rewrite app_nil_r. reflexivity.
  - destruct (Qltb v 100).
    + destruct (buildingState c !! index) as [m|]; cbn [mbind option_bind]; [|reflexivity].
      rewrite (pushDamaged_withItems _ _ _ _ H), (IH _ _ _ H).
      destruct (damagedFrom buildingState c rest (S index)) as [new|];
        cbn [mbind option_bind]; [|reflexivity].
      rewrite <- app_assoc. reflexivity.
    + apply IH, H.
Qed.

Lemma hasGroup_withItems (groups : list DamagedGroup) (c k : BuildingComponentId)
    (items : list DamagedItem) :
  hasGroup groups c = false -> k <> c -> hasGroup (withItems groups k items) c = false.
Proof.
  intros H Hne. destruct items; simpl; [exact H|].
  rewrite hasGroup_app, H. simpl. rewrite bool_decide_eq_false_2 by exact Hne. reflexivity.
Qed.

Lemma withItems_app (groups : list DamagedGroup) (c : BuildingComponentId)
    (items : list DamagedItem) :
  withItems groups c items = groups ++ withItems [] c items.
Proof. destruct items; simpl; [rewrite app_nil_r|]; reflexivity. Qed.

Lemma collectComponents_spec (buildingState : BuildingState)
    (componentHealth : ComponentHealth) (keys : list BuildingComponentId) :
  NoDup keys ->
  forall groups : list DamagedGroup,
    (forall k, k ∈ keys -> hasGroup groups k = false) ->
    collectComponents buildingState componentHealth keys groups
    = (new ← groupsOf buildingState componentHealth keys; Some (groups ++ new)).
Proof.
  induction 1 as [|k keys Hk Hnd IH]; intros groups Hg; simpl.
  - rewrite app_nil_r. reflexivity.
  - pose proof (collectDamaged_spec buildingState k (componentHealth k) 0 groups []
                  (Hg k ltac:(apply elem_of_cons; left; reflexivity))) as E.
    simpl withItems in E at 1. rewrite E. clear E.
    destruct (damagedFrom buildingState k (componentHealth k) 0) as [items|];
      cbn [mbind option_bind]; [|reflexivity].
    rewrite app_nil_l, IH.
    + destruct (groupsOf buildingState componentHealth keys) as [new|];
        cbn [mbind option_bind]; [|reflexivity].
      rewrite (withItems_app groups), <- app_assoc. reflexivity.
    + intros k' Hk'. apply hasGroup_withItems.
      * apply Hg. apply elem_of_cons. right. exact Hk'.
      * intros ->. contradiction.
Qed.

(** The panel's list is the list of the groups of all components, each
    with its items sorted. *)
Lemma groupedDamagedComponents_groupsOf (buildingState : BuildingState)
    (componentHealth : ComponentHealth) :
  groupedDamagedComponents buildingState componentHealth
  = (groups ← groupsOf buildingState componentHealth allComponents;
     Some (map (fun g => mkGroup (group_componentId g) (group_label g)
                           (sortByHealth (group_items g)))
             groups)).
Proof.
  unfold groupedDamagedComponents.
  rewrite (collectComponents_spec _ _ _ NoDup_allComponents []) by reflexivity.
  destruct (groupsOf buildingState componentHealth allComponents); reflexivity.
Qed.

Lemma damagedFrom_sound (buildingState : BuildingState) (c : BuildingComponentId)
    (healths : list Q) :
  forall (index : nat) (items : list DamagedItem),
    damagedFrom buildingState c healths index = Some items ->
    forall it, it ∈ items ->
      exists k v m,
        healths !! k = Some v /\ (v < 100)%Q /\
        buildingState c !! (index + k)%nat = Some m /\
        it = mkItem c (index + k) v
               ((100 - v) * (cost (COMPONENT_CONFIG c m) / 200))%Q
               (Nat.eqb (length (buildingState c)) 1).
Proof.
  induction healths as [|v rest IH]; intros index items H it Hit; simpl in H.
  - injection H as <-. inversion Hit.
  - destruct (Qltb v 100) eqn:Ev.
    + destruct (buildingState c !! index) as [m|] eqn:Em; cbn [mbind option_bind] in H;
        [|discriminate].
      destruct (damagedFrom buildingState c rest (S index)) as [items'|] eqn:E';
        cbn [mbind option_bind] in H; [|discriminate].
      injection H as <-. apply elem_of_cons in Hit as [->|Hit].
      * exists 0%nat, v, m. rewrite Nat.add_0_r. apply Qltb_lt in Ev.
        repeat split; assumption.
      * destruct (IH _ _ E' it Hit) as (k & v' & m' & Hk & Hv & Hm & ->).
        exists (S k), v', m'. replace (index + S k)%nat with (S index + k)%nat by lia.
        repeat split; assumption.
    + destruct (IH _ _ H it Hit) as (k & v' & m' & Hk & Hv & Hm & ->).
      exists (S k), v', m'. replace (index + S k)%nat with (S index + k)%nat by lia.
      repeat split; assumption.
Qed.

Lemma damagedFrom_complete (buildingState : BuildingState) (c : BuildingComponentId)
    (healths : list Q) :
  forall (index : nat) (items : list DamagedItem),
    damagedFrom buildingState c healths index = Some items ->
    forall k v, healths !! k = Some v -> (v < 100)%Q ->
      exists it, it ∈ items /\ item_levelIndex it = (index + k)%nat /\ item_health it = v.
Proof.
  induction healths as [|v0 rest IH]; intros index items H k v Hk Hv; simpl in H.
  - rewrite lookup_nil in Hk. discriminate.
  - destruct k as [|k]; simpl in Hk.
    + injection Hk as ->. apply Qltb_lt in Hv. rewrite Hv in H.
      destruct (buildingState c !! index) as [m|]; cbn [mbind option_bind] in H;
        [|discriminate].
      destruct (damagedFrom buildingState c rest (S index)) as [items'|];
        cbn [mbind option_bind] in H; [|discriminate].
      injection H as <-. eexists. split; [apply elem_of_cons; left; reflexivity|].
      simpl. split; [lia|reflexivity].
    + assert (Hrec : exists items', damagedFrom buildingState c rest (S index) = Some items'
                       /\ forall it, it ∈ items' -> it ∈ items).
      { destruct (Qltb v0 100).
        - destruct (buildingState c !! index) as [m|]; cbn [mbind option_bind] in H;
            [|discriminate].
          destruct (damagedFrom buildingState c rest (S index)) as [items'|];
            cbn [mbind option_bind] in H; [|discriminate].
          injection H as <-. exists items'. split; [reflexivity|].
          intros it Hit. apply elem_of_cons. right. exact Hit.
        - exists items. split; [exact H|]. intros it Hit. exact Hit. }
      destruct Hrec as (items' & E' & Hsub).
      destruct (IH _ _ E' k v Hk Hv) as (it & Hit & Hidx & Hh).
      exists it. split; [apply Hsub, Hit|]. split; [lia|exact Hh].
Qed.

Lemma damagedFrom_total (buildingState : BuildingState) (c : BuildingComponentId)
    (healths : list Q) :
  forall index : nat,
    (index + length healths <= length (buildingState c))%nat ->
    is_Some (damagedFrom buildingState c healths index).
Proof.
  induction healths as [|v rest IH]; intros index H; simpl in *; [eauto|].
  destruct (IH (S index)) as [items E]; [lia|].
  destruct (Qltb v 100); [|eauto].
  destruct (lookup_lt_is_Some_2 (buildingState c) index) as [m Em]; [lia|].
  rewrite Em, E. cbn [mbind option_bind]. eauto.
Qed.

Lemma groupsOf_elem (buildingState : BuildingState) (componentHealth : ComponentHealth)
    (keys : list BuildingComponentId) :
  forall groups : list DamagedGroup,
    groupsOf buildingState componentHealth keys = Some groups ->
    forall g, g ∈ groups <->
      exists k items,
        k ∈ keys /\
        damagedFrom buildingState k (componentHealth k) 0 = Some items /\
        items <> [] /\ g = mkGroup k (COMPONENT_LABEL k) items.
Proof.
  induction keys as [|k keys IH]; intros groups H g; simpl in H.
  - injection H as <-. split; [intros Hg; inversion Hg|].
    intros (k & items & Hk & _). inversion Hk.
  - destruct (damagedFrom buildingState k (componentHealth k) 0) as [items|] eqn:Ek;
      cbn [mbind option_bind] in H; [|discriminate].
    destruct (groupsOf buildingState componentHealth keys) as [groups'|] eqn:Eg;
      cbn [mbind option_bind] in H; [|discriminate].
    injection H as <-. rewrite elem_of_app. split.
    + intros [Hg|Hg].
      * destruct items as [|i0 items]; simpl in Hg; [inversion Hg|].
        apply list_elem_of_singleton in Hg as ->.
        exists k, (i0 :: items). split; [apply elem_of_cons; left; reflexivity|].
        split; [exact Ek|]. split; [discriminate|reflexivity].
      * apply (IH _ eq_refl) in Hg as (k' & items' & Hk' & E' & Hne & ->).
        exists k', items'. split; [apply elem_of_cons; right; exact Hk'|].
        split; [exact E'|]. split; [exact Hne|reflexivity].
    + intros (k' & items' & Hk' & E' & Hne & ->).
      apply elem_of_cons in Hk' as [->|Hk'].
      * left. rewrite Ek in E'. injection E' as <-.
        destruct items as [|i0 items]; [congruence|].
        simpl. apply list_elem_of_singleton. reflexivity.
      * right. apply (IH _ eq_refl). exists k', items'. repeat split; assumption.
Qed.

Lemma groupsOf_NoDup (buildingState : BuildingState) (componentHealth : ComponentHealth)
    (keys : list BuildingComponentId) :
  NoDup keys ->
  forall groups : list DamagedGroup,
    groupsOf buildingState componentHealth keys = Some groups ->
    NoDup (map group_componentId groups).
Proof.
  induction 1 as [|k keys Hk Hnd IH]; intros groups H; simpl in H.
  - injection H as <-. constructor.
  - destruct (damagedFrom buildingState k (componentHealth k) 0) as [items|] eqn:Ek;
      cbn [mbind option_bind] in H; [|discriminate].
    destruct (groupsOf buildingState componentHealth keys) as [groups'|] eqn:Eg;
      cbn [mbind option_bind] in H; [|discriminate].
    injection H as <-. specialize (IH _ eq_refl).
    destruct items as [|i0 items]; simpl; [exact IH|].
    constructor; [|exact IH].
    intros Hin. apply list_elem_of_In, in_map_iff in Hin as (g & Hid & Hg).
    apply list_elem_of_In in Hg.
    apply (groupsOf_elem _ _ _ _ Eg) in Hg as (k' & items' & Hk' & _ & _ & ->).
    simpl in Hid. subst k'. contradiction.
Qed.

Lemma groupsOf_total (buildingState : BuildingState) (componentHealth : ComponentHealth)
    (keys : list BuildingComponentId) :
  (forall c, (length (componentHealth c) <= length (buildingState c))%nat) ->
  is_Some (groupsOf buildingState componentHealth keys).
Proof.
  intros Hlen. induction keys as [|k keys [groups IH]]; simpl; [eauto|].
  destruct (damagedFrom_total buildingState k (componentHealth k) 0) as [items E].
  { simpl. apply Hlen. }
  rewrite E, IH. cbn [mbind option_bind]. eauto.
Qed.

(** ** The sort *)

Lemma insertByHealth_Permutation (x : DamagedItem) (items : list DamagedItem) :
  insertByHealth x items ≡ₚ x :: items.
Proof.
  induction items as [|y items IH]; simpl; [reflexivity|].
  destruct (Qleb (item_health x) (item_health y)); [reflexivity|].
  rewrite IH. apply Permutation_swap.
Qed.

Lemma sortByHealth_Permutation (items : list DamagedItem) : sortByHealth items ≡ₚ items.
Proof.
  induction items as [|x items IH]; simpl; [reflexivity|].
  unfold sortByHealth in *. simpl. rewrite insertByHealth_Permutation, IH. reflexivity.
Qed.

Lemma insertByHealth_sorted (x : DamagedItem) (items : list DamagedItem) :
  StronglySorted (fun a b => (item_health a <= item_health b)%Q) items ->
  StronglySorted (fun a b => (item_health a <= item_health b)%Q) (insertByHealth x items).
Proof.
  induction 1 as [|y items Hs IH Hy]; simpl.
  - constructor; constructor.
  - destruct (Qleb (item_health x) (item_health y)) eqn:E.
    + apply Qleb_le in E. constructor; [constructor; assumption|].
      constructor; [exact E|].
      eapply Forall_impl; [exact Hy|]. intros z Hz. simpl in Hz. lra.
    + apply Qleb_gt in E. constructor; [exact IH|].
      rewrite insertByHealth_Permutation. constructor; [lra|exact Hy].
Qed.

Lemma sortByHealth_sorted (items : list DamagedItem) :
  StronglySorted (fun a b => (item_health a <= item_health b)%Q) (sortByHealth items).
Proof.
  induction items as [|x items IH]; [constructor|].
  apply insertByHealth_sorted, IH.
Qed.

(** An item of the panel's list, traced back to the level it stands for. *)
Lemma groupedDamagedComponents_item (buildingState : BuildingState)
    (componentHealth : ComponentHealth) (groups : list DamagedGroup)
    (g : DamagedGroup) (it : DamagedItem) :
  groupedDamagedComponents buildingState componentHealth = Some groups ->
  g ∈ groups -> it ∈ group_items g ->
  exists v m,
    componentHealth (group_componentId g) !! item_levelIndex it = Some v /\
    (v < 100)%Q /\
    buildingState (group_componentId g) !! item_levelIndex it = Some m /\
    it = mkItem (group_componentId g) (item_levelIndex it) v
           ((100 - v) * (cost (COMPONENT_CONFIG (group_componentId g) m) / 200))%Q
           (Nat.eqb (length (buildingState (group_componentId g))) 1).
Proof.
  intros H Hg Hit. rewrite groupedDamagedComponents_groupsOf in H.
  destruct (groupsOf buildingState componentHealth allComponents) as [gs|] eqn:Egs;
    cbn [mbind option_bind] in H; [|discriminate].
  injection H as <-.
  apply list_elem_of_In, in_map_iff in Hg as (g0 & <- & Hg0).
  apply list_elem_of_In in Hg0. cbn [group_items group_componentId] in *.
  rewrite sortByHealth_Permutation in Hit.
  apply (groupsOf_elem _ _ _ _ Egs) in Hg0 as (k & items & _ & Ek & _ & ->).
  cbn [group_items group_componentId] in *.
  destruct (damagedFrom_sound _ _ _ _ _ Ek it Hit) as (j & v & m & Hj & Hv & Hm & ->).
  simpl. exists v, m. repeat split; assumption.
Qed.

(** ** What the repair panel lists *)

(** X14: every item of the repair panel stands for a level whose health
    is below 100, in the group of its own component, and a click on its
    button makes [handleRepairComponent] restore that level to 100 and
    charge exactly the price shown on the button. *)
Theorem shown_price_is_charged (buildingState : BuildingState)
    (componentHealth : ComponentHealth) (totalCost : Q)
    (groups : list DamagedGroup) (g : DamagedGroup) (it : DamagedItem) :
  groupedDamagedComponents buildingState componentHealth = Some groups ->
  g ∈ groups -> it ∈ group_items g ->
  item_componentId it = group_componentId g /\
  componentHealth (item_componentId it) !! item_levelIndex it = Some (item_health it) /\
  (item_health it < 100)%Q /\
  exists health',
    handleRepairComponent buildingState componentHealth totalCost
      (item_componentId it) (item_levelIndex it)
    = Some (health', (totalCost + item_repairCost it)%Q) /\
    health' (item_componentId it) !! item_levelIndex it = Some 100%Q.
Proof.
  intros H Hg Hit.
  destruct (groupedDamagedComponents_item _ _ _ _ _ H Hg Hit) as (v & m & Ev & Hv & Em & E).
  rewrite E. cbn [item_componentId item_levelIndex item_health item_repairCost].
  split; [reflexivity|]. split; [exact Ev|]. split; [exact Hv|].
  unfold handleRepairComponent. rewrite Em, Ev. cbv zeta. cbn [mbind option_bind].
  apply Qleb_gt in Hv. rewrite Hv.
  eexists. split; [reflexivity|].
  rewrite fn_lookup_insert. apply list_lookup_insert_eq.
  eapply lookup_lt_Some; exact Ev.
Qed.

Lemma wellShaped_length_le (buildingState : BuildingState) (health : ComponentHealth) :
  wellShaped buildingState health ->
  forall c, (length (health c) <= length (buildingState c))%nat.
Proof. intros (Hs & _) c. rewrite Hs. lia. Qed.

(** X15: on a well-shaped state the repair panel has its list, every
    level whose health is below 100 is in it, in the group of its
    component, and the list is empty exactly when no health value is
    below 100. *)
Theorem damaged_list_is_complete (buildingState : BuildingState)
    (componentHealth : ComponentHealth) :
  wellShaped buildingState componentHealth ->
  exists groups,
    groupedDamagedComponents buildingState componentHealth = Some groups /\
    (forall c i v, componentHealth c !! i = Some v -> (v < 100)%Q ->
       exists g it,
         g ∈ groups /\ group_componentId g = c /\
         it ∈ group_items g /\ item_levelIndex it = i /\ item_health it = v) /\
    (groups = [] <->
     forall c i v, componentHealth c !! i = Some v -> (100 <= v)%Q).
Proof.
  intros Hs.
  destruct (groupsOf_total buildingState componentHealth allComponents
              (wellShaped_length_le _ _ Hs)) as [gs Egs].
  pose proof (groupedDamagedComponents_groupsOf buildingState componentHealth) as Eg.
  rewrite Egs in Eg. cbn [mbind option_bind] in Eg.
  eexists. split; [exact Eg|].
  assert (Hcomplete : forall c i v, componentHealth c !! i = Some v -> (v < 100)%Q ->
            exists g it,
              g ∈ map (fun g => mkGroup (group_componentId g) (group_label g)
                                  (sortByHealth (group_items g))) gs /\
              group_componentId g = c /\
              it ∈ group_items g /\ item_levelIndex it = i /\ item_health it = v).
  { intros c i v Ev Hv.
    destruct (damagedFrom buildingState c (componentHealth c) 0) as [items|] eqn:Ec.
    2:{ destruct (damagedFrom_total buildingState c (componentHealth c) 0) as [? E'];
          [simpl; apply wellShaped_length_le, Hs | congruence]. }
    destruct (damagedFrom_complete _ _ _ _ _ Ec i v Ev Hv) as (it & Hit & Hidx & Hh).
    assert (Hne : items <> []) by (intros ->; inversion Hit).
    exists (mkGroup c (COMPONENT_LABEL c) (sortByHealth items)), it.
    split.
    - apply list_elem_of_In, in_map_iff.
      exists (mkGroup c (COMPONENT_LABEL c) items). split; [reflexivity|].
      apply list_elem_of_In. apply (groupsOf_elem _ _ _ _ Egs).
      exists c, items. split; [apply elem_of_allComponents|].
      split; [exact Ec|]. split; [exact Hne|reflexivity].
    - cbn [group_componentId group_items]. split; [reflexivity|].
      split; [rewrite sortByHealth_Permutation; exact Hit|].
      split; [simpl in Hidx; exact Hidx | exact Hh]. }
  split; [exact Hcomplete|]. split.
  - intros Enil c i v Ev.
    destruct (Qlt_le_dec v 100) as [Hv|Hv]; [|exact Hv].
    destruct (Hcomplete c i v Ev Hv) as (g & it & Hg & _).
    rewrite Enil in Hg. inversion Hg.
  - intros Hfull. destruct gs as [|g0 gs']; [reflexivity|exfalso].
    assert (Hg0 : g0 ∈ g0 :: gs') by (apply elem_of_cons; left; reflexivity).
    pose proof Hg0 as Hg0'.
    apply (groupsOf_elem _ _ _ _ Egs) in Hg0' as (k & items & _ & Ek & Hne & ->).
    destruct items as [|it items]; [congruence|].
    set (g := mkGroup k (COMPONENT_LABEL k) (sortByHealth (it :: items))).
    assert (Hg : g ∈ map (fun g => mkGroup (group_componentId g) (group_label g)
                                    (sortByHealth (group_items g)))
                       (mkGroup k (COMPONENT_LABEL k) (it :: items) :: gs'))
      by (apply elem_of_cons; left; reflexivity).
    assert (Hit : it ∈ group_items g).
    { unfold g. cbn [group_items]. rewrite sortByHealth_Permutation.
      apply elem_of_cons. left. reflexivity. }
    destruct (groupedDamagedComponents_item _ _ _ _ _ Eg Hg Hit)
      as (v & m & Ev & Hv & _).
    specialize (Hfull _ _ _ Ev). lra.
Qed.

(** X16: the panel has at most one group per component, no group
    without items, each group under the label of its component, and the
    items of each group in ascending order of health; an item is flagged
    as roof exactly when its component has a single level. *)
Theorem damaged_groups_are_sorted (buildingState : BuildingState)
    (componentHealth : ComponentHealth) (groups : list DamagedGroup) :
  groupedDamagedComponents buildingState componentHealth = Some groups ->
  NoDup (map group_componentId groups) /\
  forall g, g ∈ groups ->
    group_items g <> [] /\
    group_label g = COMPONENT_LABEL (group_componentId g) /\
    StronglySorted (fun a b => (item_health a <= item_health b)%Q) (group_items g) /\
    forall it, it ∈ group_items g ->
      item_isRoof it = Nat.eqb (length (buildingState (group_componentId g))) 1.
Proof.
  intros H. pose proof H as H0. rewrite groupedDamagedComponents_groupsOf in H0.
  destruct (groupsOf buildingState componentHealth allComponents) as [gs|] eqn:Egs;
    cbn [mbind option_bind] in H0; [|discriminate].
  injection H0 as E. split.
  - rewrite <- E, map_map. cbn [group_componentId].
    apply (groupsOf_NoDup _ _ _ NoDup_allComponents _ Egs).
  - intros g Hg. pose proof Hg as Hg'. rewrite <- E in Hg'.
    apply list_elem_of_In, in_map_iff in Hg' as (g0 & E0 & Hg0).
    apply list_elem_of_In in Hg0.
    apply (groupsOf_elem _ _ _ _ Egs) in Hg0 as (k & items & _ & Ek & Hne & ->).
    cbn [group_componentId group_label group_items] in E0.
    split; [|split; [|split]].
    + rewrite <- E0. cbn [group_items]. intros Enil.
      apply Hne. apply Permutation_nil_r. rewrite <- Enil.
      symmetry. apply sortByHealth_Permutation.
    + rewrite <- E0. reflexivity.
    + rewrite <- E0. apply sortByHealth_sorted.
    + intros it Hit.
      destruct (groupedDamagedComponents_item _ _ _ _ _ H Hg Hit) as (v & m & _ & _ & _ & ->).
      reflexivity.
Qed.

(** X17: a level that has been repaired is no longer in the panel's
    list. *)
Theorem repaired_level_leaves_the_list (buildingState : BuildingState)
    (health health' : ComponentHealth) (totalCost totalCost' : Q)
    (componentId : BuildingComponentId) (levelIndex : nat)
    (groups : list DamagedGroup) (g : DamagedGroup) (it : DamagedItem) :
  handleRepairComponent buildingState health totalCost componentId levelIndex
  = Some (health', totalCost') ->
  groupedDamagedComponents buildingState health' = Some groups ->
  g ∈ groups -> it ∈ group_items g ->
  (group_componentId g, item_levelIndex it) <> (componentId, levelIndex).
Proof.
  intros Hrep H Hg Hit Heq. injection Heq as Hc Hi.
  destruct (groupedDamagedComponents_item _ _ _ _ _ H Hg Hit) as (v & m & Ev & Hv & _).
  rewrite Hc, Hi in Ev.
  apply handleRepairComponent_Some in Hrep
    as (v0 & Ev0 & [(Hv0 & -> & ->)|(Hv0 & m0 & Em0 & -> & ->)]).
  - rewrite Ev0 in Ev. injection Ev as <-. lra.
  - rewrite fn_lookup_insert in Ev.
    rewrite list_lookup_insert_eq in Ev by (eapply lookup_lt_Some; exact Ev0).
    injection Ev as <-. revert Hv. discriminate.
Qed.

(** ** The defense selectors *)

Lemma activeDefenseSystem_None (buildingState : BuildingState) (d : BuildingComponentId) :
  activeDefenseSystem buildingState = None -> d ∈ defenseComponents ->
  buildingState d !! 0%nat = Some "weak"%string.
Proof.
  unfold activeDefenseSystem. intros H Hd.
  pose proof (find_none _ _ H d (proj1 (list_elem_of_In _ _) Hd)) as Hf.
  simpl in Hf. apply bool_decide_eq_false in Hf.
  destruct (decide (buildingState d !! 0%nat = Some "weak"%string)); [assumption|contradiction].
Qed.

Lemma activeDefenseSystem_Some (buildingState : BuildingState) (a : BuildingComponentId) :
  activeDefenseSystem buildingState = Some a ->
  a ∈ defenseComponents /\ buildingState a !! 0%nat <> Some "weak"%string.
Proof.
  unfold activeDefenseSystem. intros H.
  apply find_some in H as [Hin Hf]. split; [apply list_elem_of_In, Hin|].
  simpl in Hf. apply bool_decide_eq_true in Hf. exact Hf.
Qed.

(** X18: the panel lets at most one defense be upgraded.  If at most one
    defense has a material other than ['weak'], this is still so after a
    click on any material button of the defense tab, and after a click on
    any material button of the build tab. *)
Theorem selectors_keep_single_defense (currentPhase : SimulationPhase)
    (buildingState buildingState' : BuildingState) (totalCost totalCost' : Q)
    (componentId : BuildingComponentId) (material : MaterialTypeId) (levelIndex : nat) :
  singleDefense buildingState ->
  ((componentId ∈ defenseComponents /\
    defenseSelectorClick currentPhase buildingState totalCost componentId material
    = Some (buildingState', totalCost')) \/
   ((componentId ∉ defenseComponents) /\
    buildSelectorClick currentPhase buildingState totalCost componentId material levelIndex
    = Some (buildingState', totalCost'))) ->
  singleDefense buildingState'.
Proof.
  intros Hsd [[Hc H]|[Hc H]].
  - unfold defenseSelectorClick in H.
    destruct (isComponentDisabled currentPhase buildingState componentId) eqn:Ed;
      [injection H as <- <-; exact Hsd|].
    unfold isComponentDisabled in Ed. apply orb_false_iff in Ed as [_ Ea].
    assert (Hothers : forall d, d ∈ defenseComponents -> d <> componentId ->
              buildingState d !! 0%nat = Some "weak"%string).
    { intros d Hd Hne.
      destruct (activeDefenseSystem buildingState) as [a|] eqn:Eact.
      - apply bool_decide_eq_false in Ea.
        assert (a = componentId) as ->
          by (destruct (decide (a = componentId)); [assumption|contradiction]).
        apply activeDefenseSystem_Some in Eact as [Ha Hnw].
        destruct (decide (buildingState d !! 0%nat = Some "weak"%string)) as [|Hd'];
          [assumption|].
        pose proof (Hsd componentId d Ha Hd Hnw Hd') as <-. congruence.
      - eapply activeDefenseSystem_None; eassumption. }
    apply handleMaterialChange_Some in H as [[-> ->]|(_ & old & E & _ & -> & ->)];
      [exact Hsd|].
    assert (Hc' : forall d, d ∈ defenseComponents ->
              (<[componentId := <[0%nat := material]> (buildingState componentId)]>
                 buildingState) d !! 0%nat <> Some "weak"%string ->
              d = componentId).
    { intros d Hd Hnw. destruct (decide (d = componentId)) as [|Hne]; [assumption|].
      rewrite fn_lookup_insert_ne in Hnw by congruence.
      exfalso. apply Hnw, Hothers; assumption. }
    intros d1 d2 H1 H2 N1 N2. rewrite (Hc' d1 H1 N1), (Hc' d2 H2 N2). reflexivity.
  - unfold buildSelectorClick in H.
    destruct (isControlsDisabled currentPhase); [injection H as <- <-; exact Hsd|].
    apply handleMaterialChange_Some in H as [[-> ->]|(_ & old & E & _ & -> & ->)];
      [exact Hsd|].
    intros d1 d2 H1 H2 N1 N2.
    rewrite fn_lookup_insert_ne in N1 by (intros ->; contradiction).
    rewrite fn_lookup_insert_ne in N2 by (intros ->; contradiction).
    exact (Hsd d1 d2 H1 H2 N1 N2).
Qed.

(** ** How the damage of the uniform model varies *)

Lemma Qmax0_mono (x y : Q) : (x <= y)%Q -> (Qmax 0 x <= Qmax 0 y)%Q.
Proof.
  intros H.
  destruct (Q.max_spec 0 x) as [[? ->]|[? ->]];
    destruct (Q.max_spec 0 y) as [[? ->]|[? ->]]; lra.
Qed.

Lemma Qmax0_id (x : Q) : (0 <= x)%Q -> (Qmax 0 x == x)%Q.
Proof. intros H. destruct (Q.max_spec 0 x) as [[? ->]|[? ->]]; lra. Qed.

Lemma num_le (i j : nat) : (i <= j)%nat -> (num i <= num j)%Q.
Proof. intros H. unfold num. rewrite <- Zle_Qle. lia. Qed.

Lemma positionalModifier_nonneg (disasterId : DisasterId) (index len : nat) :
  (index < len)%nat -> (0 <= positionalModifier_ref disasterId index len)%Q.
Proof.
  intros Hi. destruct disasterId; simpl; try lra; [|apply Qmax0_nonneg].
  assert (Hlen : (0 < num len * 2)%Q) by (pose proof (num_pos len ltac:(lia)); lra).
  assert (Hq : (num index / (num len * 2) <= 1)%Q).
  { apply Qle_shift_div_r; [exact Hlen|]. pose proof (num_lt index len Hi). lra. }
  lra.
Qed.

(** Higher up the modifier is no larger. *)
Lemma positionalModifier_height (disasterId : DisasterId) (i j len : nat) :
  (i <= j)%nat -> (j < len)%nat ->
  (positionalModifier_ref disasterId j len <= positionalModifier_ref disasterId i len)%Q.
Proof.
  intros Hij Hj. pose proof (num_le i j Hij) as Hn.
  pose proof (num_pos len ltac:(lia)) as Hl.
  destruct disasterId; simpl; try lra.
  - assert (H : (num i / (num len * 2) <= num j / (num len * 2))%Q).
    { unfold Qdiv. apply Qmult_le_compat_r; [exact Hn|].
      apply Qlt_le_weak, Qinv_lt_0_compat. lra. }
    lra.
  - apply Qmax0_mono.
    assert (H : (num i / num len <= num j / num len)%Q).
    { unfold Qdiv. apply Qmult_le_compat_r; [exact Hn|].
      apply Qlt_le_weak, Qinv_lt_0_compat. exact Hl. }
    lra.
Qed.

(** The damage of a level grows with the power left and shrinks with the
    bonus and with the height. *)
Lemma levelDamage_compare (disasterId : DisasterId) (eff1 eff2 bonus1 bonus2 : Q)
    (c : BuildingComponentId) (len : nat) (m : MaterialTypeId) (i j : nat) :
  (eff2 <= eff1)%Q -> (bonus1 <= bonus2)%Q -> (bonus2 <= 1)%Q ->
  (i <= j)%nat -> (j < len)%nat ->
  (levelDamage disasterId eff2 bonus2 c len m j
   <= levelDamage disasterId eff1 bonus1 c len m i)%Q.
Proof.
  intros He Hb Hb1 Hij Hj. rewrite !levelDamage_ref. unfold healthDelta_ref.
  set (r := resistance (COMPONENT_CONFIG c m)).
  pose proof (Qmax0_mono (eff2 - r) (eff1 - r) ltac:(lra)) as H1.
  pose proof (Qmax0_nonneg (eff2 - r)) as H2.
  pose proof (positionalModifier_height disasterId i j len Hij Hj) as H3.
  pose proof (positionalModifier_nonneg disasterId j len Hj) as H4.
  set (a2 := Qmax 0 (eff2 - r)) in *. set (a1 := Qmax 0 (eff1 - r)) in *.
  set (p2 := positionalModifier_ref disasterId j len) in *.
  set (p1 := positionalModifier_ref disasterId i len) in *.
  assert (Hprod : (a2 * p2 <= a1 * p1)%Q) by nra.
  assert (Hpos : (0 <= a2 * p2)%Q) by nra.
  nra.
Qed.

(** Two runs of the uniform model on the same state, the second with at
    most the damage of the first at every level: no level ends lower in
    the second. *)
Lemma uniformWave_compare (disasterId : DisasterId) (buildingState : BuildingState)
    (bonus1 bonus2 power1 power2 : Q) (health out1 out2 : ComponentHealth) :
  disasterId <> LightningStorm ->
  (power2 <= power1)%Q -> (bonus1 <= bonus2)%Q -> (bonus2 <= 1)%Q ->
  uniformWave disasterId buildingState bonus1 power1 health = Some out1 ->
  uniformWave disasterId buildingState bonus2 power2 health = Some out2 ->
  forall c i v1 v2, out1 c !! i = Some v1 -> out2 c !! i = Some v2 -> (v1 <= v2)%Q.
Proof.
  intros Hd Hp Hb Hb1 H1 H2 c i v1 v2 E1 E2.
  apply uniformWave_spec in H1 as (m1 & Em1 & H1); [|exact Hd].
  apply uniformWave_spec in H2 as (m2 & Em2 & H2); [|exact Hd].
  rewrite Em1 in Em2. injection Em2 as <-.
  destruct (H1 c) as [L1 D1]. destruct (H2 c) as [L2 D2].
  destruct (decide (c ∈ defenseComponents)) as [Hc|Hc].
  { rewrite (D1 Hc) in E1. rewrite (D2 Hc) in E2. rewrite E1 in E2.
    injection E2 as <-. lra. }
  specialize (L1 Hc). specialize (L2 Hc).
  pose proof (damageLevels_spec _ _ _ _ _ L1) as (_ & F1 & S1).
  pose proof (damageLevels_spec _ _ _ _ _ L2) as (_ & F2 & S2).
  destruct (buildingState c !! i) as [m|] eqn:Em.
  2:{ apply lookup_ge_None in Em.
      rewrite (F1 i) in E1 by (right; simpl; lia).
      rewrite (F2 i) in E2 by (right; simpl; lia).
      rewrite E1 in E2. injection E2 as <-. lra. }
  destruct (S1 i m Em) as (h & Eh & E1'). destruct (S2 i m Em) as (h' & Eh' & E2').
  simpl in Eh, Eh', E1', E2'.
  rewrite Eh in Eh'. injection Eh' as <-.
  rewrite E1 in E1'. injection E1' as ->. rewrite E2 in E2'. injection E2' as ->.
  apply Qmax0_mono.
  set (r := resistance (COMPONENT_CONFIG (matchingDefense_ref disasterId) m1)).
  assert (He : (Qmax 0 (power2 - r) <= Qmax 0 (power1 - r))%Q)
    by (apply Qmax0_mono; lra).
  pose proof (levelDamage_compare disasterId (Qmax 0 (power1 - r)) (Qmax 0 (power2 - r))
                bonus1 bonus2 c (length (buildingState c)) m i i
                He Hb Hb1 (le_n i) (lookup_lt_Some _ _ _ Em)) as Hcmp.
  lra.
Qed.

Lemma waveMultiplier_mono (w1 w2 : Z) :
  (1 <= w1)%Z -> (w1 <= w2)%Z -> (w2 <= 3)%Z ->
  (waveMultiplier_ref w1 <= waveMultiplier_ref w2)%Q.
Proof.
  intros H1 H12 H2.
  assert (w1 = 1 \/ w1 = 2 \/ w1 = 3)%Z as [->|[->| ->]] by lia;
    assert (w2 = 1 \/ w2 = 2 \/ w2 = 3)%Z as [->|[->| ->]] by lia;
    try lia; vm_compute; discriminate.
Qed.

(** X24: for Earthquake, Hurricane and Tsunami of non-negative power a
    later wave is at least as hard as an earlier one: from the same
    building, health and bonus of at most 1, no level ends the later wave
    with more health than it ends the earlier one. *)
Theorem later_waves_damage_more (buildingState : BuildingState)
    (health : ComponentHealth) (bonus : Q) (prevState1 prevState2 : SimulationState)
    (disasterId : DisasterId) (wave1 wave2 : Z)
    (out1 out2 : ComponentHealth) (sim1 sim2 : SimulationState) :
  disasterId <> LightningStorm ->
  (0 <= DISASTER_CONFIG disasterId)%Q -> (bonus <= 1)%Q ->
  (wave1 <= wave2)%Z ->
  runSimulationWave buildingState health bonus prevState1 disasterId wave1
  = Some (out1, sim1) ->
  runSimulationWave buildingState health bonus prevState2 disasterId wave2
  = Some (out2, sim2) ->
  forall c i v1 v2, out1 c !! i = Some v1 -> out2 c !! i = Some v2 -> (v2 <= v1)%Q.
Proof.
  intros Hd Hp Hb Hw H1 H2 c i v1 v2 E1 E2.
  apply runSimulationWave_Some in H1 as (W1 & H1 & _).
  apply runSimulationWave_Some in H2 as (W2 & H2 & _).
  rewrite decide_False in H1, H2 by exact Hd.
  pose proof (waveMultiplier_mono wave1 wave2 ltac:(lia) Hw ltac:(lia)) as Hm.
  refine (uniformWave_compare disasterId buildingState bonus bonus _ _ health out2 out1
            Hd _ (Qle_refl _) Hb H2 H1 c i v2 v1 E2 E1).
  set (p := DISASTER_CONFIG disasterId) in *.
  set (m1 := waveMultiplier_ref wave1) in *. set (m2 := waveMultiplier_ref wave2) in *.
  nra.
Qed.

(** X25: for Earthquake, Hurricane and Tsunami a larger structural bonus
    (of at most 1) never costs health: from the same building and health,
    no level ends the wave lower under the larger bonus. *)
Theorem higher_bonus_protects (buildingState : BuildingState)
    (health : ComponentHealth) (bonus1 bonus2 : Q) (prevState1 prevState2 : SimulationState)
    (disasterId : DisasterId) (waveNumber : Z)
    (out1 out2 : ComponentHealth) (sim1 sim2 : SimulationState) :
  disasterId <> LightningStorm ->
  (bonus1 <= bonus2)%Q -> (bonus2 <= 1)%Q ->
  runSimulationWave buildingState health bonus1 prevState1 disasterId waveNumber
  = Some (out1, sim1) ->
  runSimulationWave buildingState health bonus2 prevState2 disasterId waveNumber
  = Some (out2, sim2) ->
  forall c i v1 v2, out1 c !! i = Some v1 -> out2 c !! i = Some v2 -> (v1 <= v2)%Q.
Proof.
  intros Hd Hb Hb1 H1 H2 c i v1 v2 E1 E2.
  apply runSimulationWave_Some in H1 as (_ & H1 & _).
  apply runSimulationWave_Some in H2 as (_ & H2 & _).
  rewrite decide_False in H1, H2 by exact Hd.
  exact (uniformWave_compare disasterId buildingState bonus1 bonus2 _ _ health out1 out2
           Hd (Qle_refl _) Hb Hb1 H1 H2 c i v1 v2 E1 E2).
Qed.

(** X26: in an Earthquake, Hurricane or Tsunami wave with a bonus of at
    most 1, of two levels of one component that have the same material
    and the same health the lower one ends with no more health than the
    higher one. *)
Theorem lower_levels_suffer_more (buildingState : BuildingState)
    (health : ComponentHealth) (bonus : Q) (prevState : SimulationState)
    (disasterId : DisasterId) (waveNumber : Z)
    (out : ComponentHealth) (sim' : SimulationState)
    (c : BuildingComponentId) (i j : nat) (m : MaterialTypeId) (h : Q) :
  disasterId <> LightningStorm -> (bonus <= 1)%Q ->
  runSimulationWave buildingState health bonus prevState disasterId waveNumber
  = Some (out, sim') ->
  c ∉ defenseComponents -> (i <= j)%nat ->
  buildingState c !! i = Some m -> buildingState c !! j = Some m ->
  health c !! i = Some h -> health c !! j = Some h ->
  exists vi vj, out c !! i = Some vi /\ out c !! j = Some vj /\ (vi <= vj)%Q.
Proof.
  intros Hd Hb H Hc Hij Bi Bj Ei Ej.
  destruct (runSimulationWave_uniform_level _ _ _ _ _ _ _ _ Hd H) as (md & _ & L).
  do 2 eexists. split; [exact (L c i m h Hc Bi Ei)|].
  split; [exact (L c j m h Hc Bj Ej)|].
  apply Qmax0_mono.
  pose proof (levelDamage_compare disasterId
     (Qmax 0 (DISASTER_CONFIG disasterId * waveMultiplier_ref waveNumber
              - resistance (COMPONENT_CONFIG (matchingDefense_ref disasterId) md)))
     (Qmax 0 (DISASTER_CONFIG disasterId * waveMultiplier_ref waveNumber
              - resistance (COMPONENT_CONFIG (matchingDefense_ref disasterId) md)))
     bonus bonus c (length (buildingState c)) m i j
     (Qle_refl _) (Qle_refl _) Hb Hij (lookup_lt_Some _ _ _ Bj)) as Hcmp.
  lra.
Qed.

(** X27: when the matching defense resists at least the power of the wave,
    an Earthquake, Hurricane or Tsunami wave changes no health value,
    provided no material has a negative resistance and no health value is
    negative. *)
Theorem absorbed_wave_does_no_damage (buildingState : BuildingState)
    (health : ComponentHealth) (bonus : Q) (prevState : SimulationState)
    (disasterId : DisasterId) (waveNumber : Z)
    (out : ComponentHealth) (sim' : SimulationState) (defenseResistance : Q) :
  disasterId <> LightningStorm ->
  runSimulationWave buildingState health bonus prevState disasterId waveNumber
  = Some (out, sim') ->
  defenseResistanceOf buildingState disasterId = Some defenseResistance ->
  (DISASTER_CONFIG disasterId * waveMultiplier_ref waveNumber <= defenseResistance)%Q ->
  (forall c m, 0 <= resistance (COMPONENT_CONFIG c m))%Q ->
  (forall c i v, health c !! i = Some v -> 0 <= v)%Q ->
  forall c i h, health c !! i = Some h ->
    exists v, out c !! i = Some v /\ (v == h)%Q.
Proof.
  intros Hd H Hr Hle Hres Hpos c i h Eh.
  apply runSimulationWave_Some in H as (_ & H & _).
  rewrite decide_False in H by exact Hd.
  apply uniformWave_spec in H as (md & Emd & H); [|exact Hd].
  apply defenseResistanceOf_Some in Hr as (md' & Emd' & ->); [|exact Hd].
  rewrite Emd in Emd'. injection Emd' as <-.
  destruct (H c) as [L D].
  destruct (decide (c ∈ defenseComponents)) as [Hc|Hc].
  { rewrite (D Hc). exists h. split; [exact Eh|reflexivity]. }
  pose proof (damageLevels_spec _ _ _ _ _ (L Hc)) as (_ & F & S).
  destruct (buildingState c !! i) as [m|] eqn:Em.
  2:{ apply lookup_ge_None in Em. exists h. split; [|reflexivity].
      rewrite (F i) by (right; simpl; lia). exact Eh. }
  destruct (S i m Em) as (h' & Eh' & E). simpl in Eh', E.
  rewrite Eh in Eh'. injection Eh' as <-.
  eexists. split; [exact E|].
  rewrite levelDamage_ref. unfold healthDelta_ref.
  set (r := resistance (COMPONENT_CONFIG (matchingDefense_ref disasterId) md)) in *.
  assert (E0 : (Qmax 0 (DISASTER_CONFIG disasterId * waveMultiplier_ref waveNumber - r)
                == 0)%Q).
  { destruct (Q.max_spec 0 (DISASTER_CONFIG disasterId * waveMultiplier_ref waveNumber - r))
      as [[? ->]|[? ->]]; lra. }
  pose proof (Hres c m) as Hrm.
  assert (E1 : (Qmax 0 (Qmax 0 (DISASTER_CONFIG disasterId * waveMultiplier_ref waveNumber - r)
                        - resistance (COMPONENT_CONFIG c m)) == 0)%Q).
  { rewrite E0.
    destruct (Q.max_spec 0 (0 - resistance (COMPONENT_CONFIG c m))) as [[? ->]|[? ->]]; lra. }
  rewrite E1. pose proof (Hpos c i h Eh) as Hh.
  rewrite Qmax0_id; [ring|]. ring_simplify. exact Hh.
Qed.

(** ** The floors the lightning reaches *)

Lemma applyDamage_lookup (nh nh' : ComponentHealth) (c : BuildingComponentId)
    (i : nat) (d : Q) :
  applyDamage nh c i d = Some nh' ->
  (forall c' j, j <> i -> nh' c' !! j = nh c' !! j) /\
  (forall c', c' <> c -> nh' c' = nh c') /\
  (forall h, nh c !! i = Some h -> nh' c !! i = Some (Qmax 0 (h - d))).
Proof.
  intros H. apply applyDamage_Some in H as (h & Eh & ->).
  split; [|split].
  - intros c' j Hj. destruct (decide (c' = c)) as [->|Hc].
    + rewrite fn_lookup_insert. apply list_lookup_insert_ne. congruence.
    + rewrite fn_lookup_insert_ne by congruence. reflexivity.
  - intros c' Hc. rewrite fn_lookup_insert_ne by congruence. reflexivity.
  - intros h' Eh'. rewrite Eh in Eh'. injection Eh' as <-.
    rewrite fn_lookup_insert. apply list_lookup_insert_eq.
    eapply lookup_lt_Some; exact Eh.
Qed.

(** One pass of the loop body: the five writes at [floorIndex], followed
    by whatever comes next. *)
Lemma strikeFloor_spec (floorIndex : nat) (finalDamage : Q)
    (next : ComponentHealth -> option ComponentHealth) (nh out : ComponentHealth) :
  (newHealth ← applyDamage nh Beams floorIndex (finalDamage / 1.25)%Q;
   newHealth ← applyDamage newHealth Walls floorIndex (finalDamage / 1.5)%Q;
   newHealth ← applyDamage newHealth Glass floorIndex (finalDamage / 2)%Q;
   newHealth ← applyDamage newHealth Pillars floorIndex (finalDamage / 1.2)%Q;
   newHealth ← applyDamage newHealth Floor floorIndex (finalDamage / 1.8)%Q;
   next newHealth) = Some out ->
  exists nh5, next nh5 = Some out /\
    (forall c, length (nh5 c) = length (nh c)) /\
    (forall c j, j <> floorIndex -> nh5 c !! j = nh c !! j) /\
    (forall c h, c ∈ floorComponents -> nh c !! floorIndex = Some h ->
       nh5 c !! floorIndex = Some (Qmax 0 (h - finalDamage / strikeDivisor c))).
Proof.
  intros H.
  destruct (applyDamage nh Beams floorIndex _) as [nh1|] eqn:E1;
    cbn [mbind option_bind] in H; [|discriminate].
  destruct (applyDamage nh1 Walls floorIndex _) as [nh2|] eqn:E2;
    cbn [mbind option_bind] in H; [|discriminate].
  destruct (applyDamage nh2 Glass floorIndex _) as [nh3|] eqn:E3;
    cbn [mbind option_bind] in H; [|discriminate].
  destruct (applyDamage nh3 Pillars floorIndex _) as [nh4|] eqn:E4;
    cbn [mbind option_bind] in H; [|discriminate].
  destruct (applyDamage nh4 Floor floorIndex _) as [nh5|] eqn:E5;
    cbn [mbind option_bind] in H; [|discriminate].
  exists nh5. split; [exact H|].
  pose proof (applyDamage_lookup _ _ _ _ _ E1) as (N1 & O1 & W1).
  pose proof (applyDamage_lookup _ _ _ _ _ E2) as (N2 & O2 & W2).
  pose proof (applyDamage_lookup _ _ _ _ _ E3) as (N3 & O3 & W3).
  pose proof (applyDamage_lookup _ _ _ _ _ E4) as (N4 & O4 & W4).
  pose proof (applyDamage_lookup _ _ _ _ _ E5) as (N5 & O5 & W5).
  split; [|split].
  - intros c.
    rewrite (applyDamage_length _ _ _ c _ _ E5), (applyDamage_length _ _ _ c _ _ E4),
      (applyDamage_length _ _ _ c _ _ E3), (applyDamage_length _ _ _ c _ _ E2),
      (applyDamage_length _ _ _ c _ _ E1). reflexivity.
  - intros c j Hj. rewrite N5, N4, N3, N2, N1 by exact Hj. reflexivity.
  - intros c h Hc Eh. unfold floorComponents in Hc.
    repeat (apply elem_of_cons in Hc as [->|Hc]); [..|inversion Hc];
      cbn [strikeDivisor].
    + (* Pillars *)
      rewrite (O5 Pillars) by discriminate. apply W4.
      rewrite (O3 Pillars), (O2 Pillars), (O1 Pillars) by discriminate. exact Eh.
    + (* Beams *)
      rewrite (O5 Beams), (O4 Beams), (O3 Beams), (O2 Beams) by discriminate.
      apply W1. exact Eh.
    + (* Walls *)
      rewrite (O5 Walls), (O4 Walls), (O3 Walls) by discriminate. apply W2.
      rewrite (O1 Walls) by discriminate. exact Eh.
    + (* Glass *)
      rewrite (O5 Glass), (O4 Glass) by discriminate. apply W3.
      rewrite (O2 Glass), (O1 Glass) by discriminate. exact Eh.
    + (* Floor *)
      apply W5.
      rewrite (O4 Floor), (O3 Floor), (O2 Floor), (O1 Floor) by discriminate. exact Eh.
Qed.

(** A level that is the target of none of the remaining passes is left
    as it is. *)
Lemma strikeTopFloors_untouched (effectivePower bonus : Q) (j : nat) :
  forall (offsets : list nat) (nh out : ComponentHealth),
    strikeTopFloors offsets effectivePower bonus nh = Some out ->
    (forall i, i ∈ offsets -> (j + i + 1)%nat <> length (nh Beams)) ->
    forall c, out c !! j = nh c !! j.
Proof.
  induction offsets as [|i rest IH]; intros nh out H Hn c; simpl in H.
  - congruence.
  - destruct (Z.of_nat (length (nh Beams)) - 1 - Z.of_nat i <? 0)%Z eqn:Eb;
      [congruence|].
    apply Z.ltb_ge in Eb.
    apply strikeFloor_spec in H as (nh5 & H & Hlen & Hne & _).
    rewrite (IH _ _ H).
    + apply Hne. pose proof (Hn i ltac:(left)). lia.
    + intros i' Hi'. rewrite Hlen. apply Hn. right. exact Hi'.
Qed.

(** The pass of offset [k] sets the level [k] below the top, and no later
    pass touches it. *)
Lemma strikeTopFloors_level (effectivePower bonus : Q) :
  forall (offsets : list nat) (nh out : ComponentHealth),
    StronglySorted lt offsets ->
    strikeTopFloors offsets effectivePower bonus nh = Some out ->
    forall k c h, k ∈ offsets -> (k < length (nh Beams))%nat ->
      c ∈ floorComponents ->
      nh c !! (length (nh Beams) - 1 - k)%nat = Some h ->
      out c !! (length (nh Beams) - 1 - k)%nat
      = Some (Qmax 0 (h - effectivePower * (1 / (num k * 1.5 + 1)) * (1 - bonus)
                          / strikeDivisor c)).
Proof.
  induction offsets as [|i rest IH]; intros nh out Hs H k c h Hk Hlt Hc Eh.
  - inversion Hk.
  - apply StronglySorted_inv in Hs as [Hs Hall]. rewrite Forall_forall in Hall.
    simpl in H.
    destruct (Z.of_nat (length (nh Beams)) - 1 - Z.of_nat i <? 0)%Z eqn:Eb.
    { apply Z.ltb_lt in Eb. apply elem_of_cons in Hk as [->|Hk]; [lia|].
      pose proof (Hall k Hk). lia. }
    apply Z.ltb_ge in Eb.
    replace (Z.to_nat (Z.of_nat (length (nh Beams)) - 1 - Z.of_nat i))
      with (length (nh Beams) - 1 - i)%nat in H by lia.
    apply strikeFloor_spec in H as (nh5 & H & Hlen & Hne & Hw).
    apply elem_of_cons in Hk as [->|Hk].
    + rewrite (strikeTopFloors_untouched _ _ _ _ _ _ H).
      * apply Hw; assumption.
      * intros i' Hi'. rewrite Hlen.
        pose proof (Hall i' Hi'). lia.
    + pose proof (Hall k Hk) as Hik.
      rewrite <- (Hlen Beams).
      apply (IH nh5 out Hs H k c h Hk); [rewrite Hlen; exact Hlt|exact Hc|].
      rewrite Hlen, Hne by lia. exact Eh.
Qed.

(** X28: a lightning wave that gets past the rod damages the top three
    floors (fewer when the building is lower): the level [k] floors below
    the top, [k] from 0 to 2, of each of pillars, beams, walls, glass and
    floor loses the power left after the rod times [1 / (1.5 k + 1)]
    times [1 - bonus], divided by the component's divisor, and is clamped
    at 0. *)
Theorem lightning_damages_top_three_floors (buildingState : BuildingState)
    (health : ComponentHealth) (bonus : Q) (prevState : SimulationState)
    (waveNumber : Z) (out : ComponentHealth) (sim' : SimulationState)
    (spdaMaterial : MaterialTypeId) (k : nat) (c : BuildingComponentId) (h : Q) :
  runSimulationWave buildingState health bonus prevState LightningStorm waveNumber
  = Some (out, sim') ->
  buildingState LightningRod !! 0%nat = Some spdaMaterial ->
  (resistance (COMPONENT_CONFIG LightningRod spdaMaterial)
   < DISASTER_CONFIG LightningStorm * waveMultiplier_ref waveNumber)%Q ->
  (k < 3)%nat -> (k < length (health Beams))%nat ->
  c ∈ floorComponents ->
  health c !! (length (health Beams) - 1 - k)%nat = Some h ->
  out c !! (length (health Beams) - 1 - k)%nat
  = Some (Qmax 0 (h - Qmax 0 (DISASTER_CONFIG LightningStorm * waveMultiplier_ref waveNumber
                              - resistance (COMPONENT_CONFIG LightningRod spdaMaterial))
                      * (1 / (num k * 1.5 + 1)) * (1 - bonus) / strikeDivisor c)).
Proof.
  intros H Em Hlt Hk Hlen Hc Eh.
  apply runSimulationWave_Some in H as (_ & H & _).
  rewrite decide_True in H by reflexivity.
  apply lightningWave_spec in H as (m & Em' & _ & H).
  rewrite Em in Em'. injection Em' as <-.
  destruct (H Hlt) as (rodHealth & roofHealth & nh2 & _ & _ & -> & Hs). clear H.
  assert (Hfloor : forall c', c' ∈ floorComponents ->
            (<[Roof := <[0%nat := Qmax 0 (roofHealth
                 - Qmax 0 (DISASTER_CONFIG LightningStorm * waveMultiplier_ref waveNumber
                           - resistance (COMPONENT_CONFIG LightningRod spdaMaterial))
                   * 1.2 * (1 - bonus))]> (health Roof)]>
               (<[LightningRod := <[0%nat := Qmax 0 (rodHealth
                 - (DISASTER_CONFIG LightningStorm * waveMultiplier_ref waveNumber
                    - resistance (COMPONENT_CONFIG LightningRod spdaMaterial)) * 2)]>
                   (health LightningRod)]> health)) c' = health c').
  { intros c' Hc'. unfold floorComponents in Hc'.
    repeat (apply elem_of_cons in Hc' as [->|Hc']); [..|inversion Hc'];
      rewrite !fn_lookup_insert_ne by discriminate; reflexivity. }
  assert (HB : Beams ∈ floorComponents)
    by (apply (bool_decide_unpack _); vm_compute; exact I).
  assert (Hsorted : StronglySorted lt [0; 1; 2]%nat) by (repeat constructor; lia).
  pose proof (strikeTopFloors_level _ _ _ _ _ Hsorted Hs k c h) as L.
  rewrite (Hfloor Beams HB), (Hfloor c Hc) in L.
  apply L; [|exact Hlen|exact Hc|exact Eh].
  apply (bool_decide_unpack _).
  assert (k = 0 \/ k = 1 \/ k = 2)%nat as [->|[->| ->]] by lia; vm_compute; exact I.
Qed.

(** X29: a lightning wave leaves every level more than three floors below
    the top as it was, for every component but the rod and the roof. *)
Theorem lightning_spares_lower_floors (buildingState : BuildingState)
    (health : ComponentHealth) (bonus : Q) (prevState : SimulationState)
    (waveNumber : Z) (out : ComponentHealth) (sim' : SimulationState)
    (c : BuildingComponentId) (j : nat) :
  runSimulationWave buildingState health bonus prevState LightningStorm waveNumber
  = Some (out, sim') ->
  c <> LightningRod -> c <> Roof ->
  (j + 3 < length (health Beams))%nat ->
  out c !! j = health c !! j.
Proof.
  intros H Hrod Hroof Hj.
  apply runSimulationWave_Some in H as (_ & H & _).
  rewrite decide_True in H by reflexivity.
  apply lightningWave_spec in H as (m & Em & Habs & H).
  destruct (Qlt_le_dec (resistance (COMPONENT_CONFIG LightningRod m))
              (DISASTER_CONFIG LightningStorm * waveMultiplier_ref waveNumber)) as [Hlt|Hle].
  2:{ rewrite (Habs Hle). reflexivity. }
  destruct (H Hlt) as (rodHealth & roofHealth & nh2 & _ & _ & -> & Hs). clear H.
  rewrite (strikeTopFloors_untouched _ _ j _ _ _ Hs).
  - rewrite !fn_lookup_insert_ne by congruence. reflexivity.
  - intros i Hi. rewrite !fn_lookup_insert_ne by discriminate.
    assert (i < 3)%nat; [|lia].
    repeat (apply elem_of_cons in Hi as [->|Hi]); [lia..|inversion Hi].
Qed.

End App.

(** ** The sample building *)

Lemma sample_wellShaped : wellShaped sampleBuilding sampleHealth.
Proof.
  split; [intros c; destruct c; reflexivity|].
  split; intros c Hc; destruct c; try reflexivity;
    apply (bool_decide_pack _) in Hc; vm_compute in Hc; destruct Hc.
Defined.

Lemma sampleRod_wellShaped : wellShaped sampleBuildingRod sampleHealth.
Proof.
  split; [intros c; destruct c; reflexivity|].
  split; intros c Hc; destruct c; try reflexivity;
    apply (bool_decide_pack _) in Hc; vm_compute in Hc; destruct Hc.
Defined.

Lemma sample_healthWithin : healthWithin 0 100 sampleHealth.
Proof.
  intros c i v E.
  assert (Hv : v = 100%Q).
  { destruct c; simpl in E;
      repeat (destruct i as [|i]; simpl in E; [congruence|]); discriminate. }
  rewrite Hv. split; discriminate.
Defined.

(** The hurricane of the specification's example on the sample building:
    the weak glass of the ground floor drops to 70, the stronger glass
    above it to 90, and the defenses keep their health. *)
Example sample_hurricane_wave1 :
  exists out sim',
    runSimulationWave sampleConfig samplePower sampleBuilding sampleHealth 0
      sampleState Hurricane 1 = Some (out, sim') /\
    map Qred (out Glass) = [70%Q; 90%Q] /\
    map Qred (out WindDampers) = [100%Q] /\
    phase sim' = repair 1.
Proof. vm_compute. eexists _, _. repeat split. Qed.

(** A lightning storm of full intensity on the sample building: the rod
    and the roof are destroyed, the top floor takes the full strike and
    the floor below it two fifths of it. *)
Example sample_lightning_wave3 :
  exists out sim',
    runSimulationWave sampleConfig samplePower sampleBuilding sampleHealth 0
      sampleState LightningStorm 3 = Some (out, sim') /\
    map Qred (out LightningRod) = [0%Q] /\
    map Qred (out Roof) = [0%Q] /\
    map Qred (out Beams) = [(308 # 5)%Q; 4%Q] /\
    resultMessage sim' = Some SeverelyCompromised.
Proof. vm_compute. eexists _, _. repeat split. Qed.

(** A health map shorter than the building leaves the numeric domain. *)
Example sample_short_health :
  runSimulationWave sampleConfig samplePower sampleBuilding
    (<[Glass := [100%Q]]> sampleHealth) 0 sampleState Hurricane 1 = None.
Proof. reflexivity. Qed.

(** ** Instances of the theorems on the sample building *)

Lemma structuralBonus_range_monotone_witness :
  (0 <= structuralBonus sampleConfig 20 80 0.4 sampleBuilding <= 0.4)%Q /\
  (0 <= structuralBonus sampleConfig 20 80 0.4 sampleBuildingStrong <= 0.4)%Q /\
  (structuralBonus sampleConfig 20 80 0.4 sampleBuilding
   <= structuralBonus sampleConfig 20 80 0.4 sampleBuildingStrong)%Q.
Proof.
  destruct (structuralBonus_range_monotone sampleConfig 20 80 0.4
              sampleBuilding sampleBuildingStrong) as (R1 & R2 & M).
  - vm_compute. discriminate.
  - split; [exact R1|]. split; [exact R2|].
    apply M; [discriminate | discriminate | vm_compute; discriminate].
Defined.

Lemma uniform_wave_health_delta_witness :
  exists out sim' v,
    runSimulationWave sampleConfig samplePower sampleBuilding sampleHealth 0
      sampleState Tsunami 3 = Some (out, sim') /\
    out Glass !! 1%nat = Some v /\ (v == 30)%Q.
Proof.
  destruct (uniform_wave_health_delta sampleConfig samplePower sampleBuilding
              sampleHealth 0 sampleState Tsunami 3)
    as (out & sim' & md & Hrun & Emd & H).
  - discriminate.
  - lia.
  - exact sample_wellShaped.
  - injection Emd as <-.
    destruct (H Glass 1%nat "strong" 100%Q) as (v & Ev & Hv).
    + intros Hin. apply (bool_decide_pack _) in Hin. vm_compute in Hin. exact Hin.
    + reflexivity.
    + reflexivity.
    + exists out, sim', v. split; [exact Hrun|]. split; [exact Ev|].
      rewrite Hv. vm_compute. reflexivity.
Defined.

Lemma lightning_rod_roof_damage_witness :
  exists out sim',
    runSimulationWave sampleConfig samplePower sampleBuilding sampleHealth 0.2
      sampleState LightningStorm 1 = Some (out, sim') /\
    out LightningRod !! 0%nat = Some (Qmax 0 (100 - (150 * 0.6 - 30) * 2)) /\
    out Roof !! 0%nat = Some (Qmax 0 (100 - Qmax 0 (150 * 0.6 - 30) * 1.2 * (1 - 0.2))).
Proof.
  apply (lightning_rod_roof_damage sampleConfig samplePower sampleBuilding sampleHealth
           0.2 sampleState 1 "weak" 100 100).
  - lia.
  - exact sample_wellShaped.
  - reflexivity.
  - reflexivity.
  - reflexivity.
  - vm_compute. reflexivity.
Defined.

Lemma wave_only_damages_witness :
  exists out sim',
    runSimulationWave sampleConfig samplePower sampleBuilding sampleHealth 0.2
      sampleState Earthquake 2 = Some (out, sim') /\
    healthWithin 0 100 out /\
    onlyDamaged sampleHealth out.
Proof.
  apply (wave_only_damages sampleConfig samplePower 0.4).
  - vm_compute. discriminate.
  - split; vm_compute; discriminate.
  - lia.
  - exact sample_wellShaped.
  - exact sample_healthWithin.
Defined.

Lemma lightning_absorbed_no_damage_witness :
  exists out sim',
    runSimulationWave sampleConfig samplePower sampleBuildingRod sampleHealth 0.2
      sampleState LightningStorm 3 = Some (out, sim') /\
    out = sampleHealth.
Proof.
  apply (lightning_absorbed_no_damage sampleConfig samplePower sampleBuildingRod
           sampleHealth 0.2 sampleState 3 "strong").
  - lia.
  - exact sampleRod_wellShaped.
  - reflexivity.
  - vm_compute. discriminate.
Defined.

Lemma uniform_wave_defenses_unchanged_witness :
  exists out sim',
    runSimulationWave sampleConfig samplePower sampleBuilding sampleHealth 0.2
      sampleState Hurricane 3 = Some (out, sim') /\
    out LightningRod = sampleHealth LightningRod /\
    out WindDampers = sampleHealth WindDampers /\
    out TsunamiBarriers = sampleHealth TsunamiBarriers /\
    out SeismicDampers = sampleHealth SeismicDampers.
Proof.
  apply (uniform_wave_defenses_unchanged sampleConfig samplePower).
  - discriminate.
  - lia.
  - exact sample_wellShaped.
Defined.






Lemma hurricane_wave1_glass_example_witness :
  exists out sim' v,
    runSimulationWave sampleConfig samplePower sampleBuilding sampleHealth 0
      sampleState Hurricane 1 = Some (out, sim') /\
    (levelDamage sampleConfig Hurricane (Qmax 0 (100 * 0.6 - 20)) 0 Glass 2 "weak" 0
     == 30)%Q /\
    out Glass !! 0%nat = Some v /\ (v == 70)%Q.
Proof.
  apply (hurricane_wave1_glass_example sampleConfig samplePower sampleBuilding
           sampleHealth sampleState 0 "weak" "weak" 100).
  - exact sample_wellShaped.
  - reflexivity.
  - reflexivity.
  - reflexivity.
  - reflexivity.
  - reflexivity.
  - reflexivity.
  - reflexivity.
Defined.

Lemma repair_restores_and_charges_witness :
  exists newHealth,
    handleRepairComponent sampleConfig sampleBuilding sampleDamagedHealth 2000 Glass 0
    = Some (newHealth, (2000 + (100 - 40) * (200 / 200))%Q) /\
    newHealth Glass !! 0%nat = Some 100%Q /\
    ((100 - 40) * (200 / 200) == 60)%Q.
Proof.
  destruct (repair_restores_and_charges sampleConfig sampleBuilding sampleDamagedHealth
              2000 Glass 0 "weak" 40) as (newHealth & Hrun & Hnew & _ & _ & Hex).
  - reflexivity.
  - reflexivity.
  - vm_compute. reflexivity.
  - exists newHealth. split; [exact Hrun|]. split; [exact Hnew|].
    apply Hex; reflexivity.
Defined.

(** ** The sound module *)

Lemma clampVolume_range (volume : Q) : (0 <= clampVolume volume <= 1)%Q.
Proof.
  unfold clampVolume.
  destruct (Q.min_spec 1 volume) as [[? E]|[? E]];
    destruct (Q.max_spec 0 (Qmin 1 volume)) as [[? E']|[? E']]; rewrite E'; lra.
Qed.

Lemma clampVolume_id (volume : Q) :
  (0 <= volume <= 1)%Q -> (clampVolume volume == volume)%Q.
Proof.
  intros [H0 H1]. unfold clampVolume.
  destruct (Q.min_spec 1 volume) as [[? E]|[? E]];
    destruct (Q.max_spec 0 (Qmin 1 volume)) as [[? E']|[? E']]; rewrite E'; lra.
Qed.

Lemma clampVolume_0 : (clampVolume 0 == 0)%Q.
Proof. reflexivity. Qed.

Lemma musicSequence_step (step : nat) :
  is_Some (musicSequence !! (step mod length musicSequence)%nat).
Proof.
  apply lookup_lt_is_Some_2. apply Nat.mod_upper_bound. discriminate.
Qed.

Lemma soundInvariant_initial : soundInvariant initialSoundState.
Proof.
  unfold soundInvariant, initialSoundState. simpl.
  repeat split; try discriminate. constructor.
Qed.

Lemma initAudioContext_fields (hasWindow : bool) (st : SoundState) :
  sfxVolume (initAudioContext hasWindow st) = sfxVolume st /\
  musicVolume (initAudioContext hasWindow st) = musicVolume st /\
  isGloballyMuted (initAudioContext hasWindow st) = isGloballyMuted st /\
  lastSfxVolume (initAudioContext hasWindow st) = lastSfxVolume st /\
  lastMusicVolume (initAudioContext hasWindow st) = lastMusicVolume st /\
  musicInterval (initAudioContext hasWindow st) = musicInterval st /\
  currentStep (initAudioContext hasWindow st) = currentStep st /\
  scheduled (initAudioContext hasWindow st) = scheduled st.
Proof.
  unfold initAudioContext. destruct (negb (audioContext st) && hasWindow);
    repeat split; reflexivity.
Qed.

Lemma soundInvariant_init (hasWindow : bool) (st : SoundState) :
  soundInvariant st -> soundInvariant (initAudioContext hasWindow st).
Proof.
  unfold soundInvariant.
  destruct (initAudioContext_fields hasWindow st)
    as (-> & -> & -> & -> & -> & -> & _ & ->).
  tauto.
Qed.

Lemma soundInvariant_scheduleNextNote (st : SoundState) :
  isGloballyMuted st = false ->
  soundInvariant st -> soundInvariant (scheduleNextNote st).
Proof.
  intros Hm H. pose proof H as (H1 & H2 & H3 & H4 & H5 & H6). unfold scheduleNextNote.
  destruct (musicSequence !! (currentStep st mod length musicSequence)%nat)
    as [[freq dur]|]; [|exact H].
  cbv zeta. unfold soundInvariant. simpl. rewrite Hm.
  split; [exact H1|]. split; [exact H2|]. split; [exact H3|]. split; [exact H4|].
  split; [discriminate|].
  destruct freq as [f|]; simpl; [|exact H6].
  destruct (negb (Qeq_bool f 0)); simpl; [|exact H6].
  apply Forall_app. split; [exact H6|].
  constructor; [|constructor]. lra.
Qed.

Lemma soundInvariant_playMusic (hasWindow : bool) (st : SoundState) :
  soundInvariant st -> soundInvariant (playMusic hasWindow st).
Proof.
  intros H. apply (soundInvariant_init hasWindow) in H. unfold playMusic. cbv zeta.
  destruct (negb (audioContext (initAudioContext hasWindow st))); simpl; [exact H|].
  destruct (musicInterval (initAudioContext hasWindow st)); simpl; [exact H|].
  destruct (isGloballyMuted (initAudioContext hasWindow st)) eqn:Em; [exact H|].
  apply soundInvariant_scheduleNextNote; assumption.
Qed.

Lemma soundInvariant_setSfx (volume : Q) (st : SoundState) :
  soundInvariant st -> soundInvariant (setSfxVolume volume st).
Proof.
  intros (H1 & H2 & H3 & H4 & H5 & H6). unfold soundInvariant, setSfxVolume. simpl.
  pose proof (clampVolume_range volume).
  destruct (isGloballyMuted st); repeat split; try assumption; try tauto; lra.
Qed.

Lemma soundInvariant_setMusic (volume : Q) (st : SoundState) :
  soundInvariant st -> soundInvariant (setMusicVolume volume st).
Proof.
  intros (H1 & H2 & H3 & H4 & H5 & H6). unfold soundInvariant, setMusicVolume. simpl.
  pose proof (clampVolume_range volume).
  destruct (isGloballyMuted st); repeat split; try assumption; try tauto; lra.
Qed.

Lemma soundInvariant_stopMusic (st : SoundState) :
  soundInvariant st -> soundInvariant (stopMusic st).
Proof.
  intros (H1 & H2 & H3 & H4 & H5 & H6). unfold soundInvariant, stopMusic. simpl.
  repeat split; try assumption; try tauto.
Qed.

Lemma soundInvariant_toggleMute (hasWindow : bool) (st : SoundState) :
  soundInvariant st -> soundInvariant (toggleMute hasWindow st).1.
Proof.
  intros H. apply (soundInvariant_init hasWindow) in H.
  unfold toggleMute. cbv zeta. cbn [fst].
  set (st0 := initAudioContext hasWindow st) in *.
  destruct H as (H1 & H2 & H3 & H4 & H5 & H6).
  destruct (isGloballyMuted st0) eqn:Em; cbn [isGloballyMuted negb].
  - (* unmuting *)
    apply soundInvariant_playMusic, soundInvariant_setMusic, soundInvariant_setSfx.
    unfold soundInvariant. simpl.
    repeat split; try tauto; try (intros; discriminate).
  - (* muting *)
    apply soundInvariant_setMusic, soundInvariant_setSfx.
    unfold soundInvariant, stopMusic. simpl.
    repeat split; try tauto; try (intros; discriminate).
Qed.

Lemma soundInvariant_play (hasWindow : bool) (params : PlayParams) (st : SoundState) :
  soundInvariant st -> soundInvariant (play hasWindow params st).
Proof.
  intros H. apply (soundInvariant_init hasWindow) in H. unfold play. cbv zeta.
  destruct (negb (audioContext (initAudioContext hasWindow st))); [exact H|].
  destruct (Qleb _ 0) eqn:E; [exact H|]. apply Qleb_gt in E.
  destruct H as (H1 & H2 & H3 & H4 & H5 & H6).
  unfold soundInvariant. simpl. repeat split; try assumption; try tauto.
  apply Forall_app. split; [exact H6|]. constructor; [exact E|constructor].
Qed.

Lemma soundInvariant_playNoise (hasWindow : bool) (params : NoiseParams) (st : SoundState) :
  soundInvariant st -> soundInvariant (playNoise hasWindow params st).
Proof.
  intros H. apply (soundInvariant_init hasWindow) in H. unfold playNoise. cbv zeta.
  destruct (negb (audioContext (initAudioContext hasWindow st))); [exact H|].
  destruct (Qleb _ 0) eqn:E; [exact H|]. apply Qleb_gt in E.
  destruct H as (H1 & H2 & H3 & H4 & H5 & H6).
  unfold soundInvariant. simpl. repeat split; try assumption; try tauto.
  apply Forall_app. split; [exact H6|]. constructor; [exact E|constructor].
Qed.

Lemma soundStep_invariant (hasWindow : bool) (st st' : SoundState) :
  soundStep hasWindow st st' -> soundInvariant st -> soundInvariant st'.
Proof.
  intros Hstep H. destruct Hstep as [v st|v st|st|p st|p st|st|st|st Ht].
  - apply soundInvariant_setSfx, H.
  - apply soundInvariant_setMusic, H.
  - apply soundInvariant_toggleMute, H.
  - apply soundInvariant_play, H.
  - apply soundInvariant_playNoise, H.
  - apply soundInvariant_playMusic, H.
  - apply soundInvariant_stopMusic, H.
  - apply soundInvariant_scheduleNextNote; [|exact H].
    destruct H as (_ & _ & _ & _ & H5 & _).
    destruct (isGloballyMuted st); [|reflexivity].
    rewrite H5 in Ht by reflexivity. discriminate.
Qed.

(** X19: whatever calls are made into the sound module, and whenever
    the music timer fires, both volumes stay in [0, 1], the music timer is
    never set while the module is muted, no sound effect is started with a
    gain of zero or less, and no note of the music is louder than 0.15. *)
Theorem sound_module_keeps_volumes_in_range (hasWindow : bool) (st : SoundState) :
  rtc (soundStep hasWindow) initialSoundState st ->
  (0 <= getSfxVolume st <= 1)%Q /\
  (0 <= getMusicVolume st <= 1)%Q /\
  (getIsMuted st = true -> musicInterval st = false) /\
  Forall (fun sound =>
            match sound with
            | Tone _ _ _ peak _ _ | Noise peak _ _ _ _ => (0 < peak)%Q
            | MusicNote _ _ peak _ => (0 <= peak <= 0.15)%Q
            end)
    (scheduled st).
Proof.
  intros Hsteps.
  assert (H : soundInvariant st).
  { pose proof soundInvariant_initial as H0. revert H0.
    induction Hsteps as [s|s s' s'' Hstep _ IH]; intros H0; [exact H0|].
    apply IH. eapply soundStep_invariant; eassumption. }
  destruct H as (H1 & H2 & _ & _ & H5 & H6).
  unfold getSfxVolume, getMusicVolume, getIsMuted. tauto.
Qed.

Ltac sound_simpl :=
  cbn [fst snd audioContext sfxVolume musicVolume isGloballyMuted lastSfxVolume
       lastMusicVolume musicNodes musicInterval currentStep scheduled negb andb orb].

Lemma initAudioContext_twice (hasWindow : bool) (st : SoundState) :
  initAudioContext hasWindow (initAudioContext hasWindow st) = initAudioContext hasWindow st.
Proof.
  unfold initAudioContext.
  destruct (audioContext st) eqn:E, hasWindow; sound_simpl; rewrite ?E; reflexivity.
Qed.

Lemma initAudioContext_true (st : SoundState) :
  audioContext (initAudioContext true st) = true.
Proof.
  unfold initAudioContext. destruct (audioContext st) eqn:E; sound_simpl; [exact E|reflexivity].
Qed.

Lemma scheduleNextNote_fields (st : SoundState) :
  sfxVolume (scheduleNextNote st) = sfxVolume st /\
  musicVolume (scheduleNextNote st) = musicVolume st /\
  isGloballyMuted (scheduleNextNote st) = isGloballyMuted st /\
  musicInterval (scheduleNextNote st) = true.
Proof.
  unfold scheduleNextNote.
  destruct (musicSequence_step (currentStep st)) as [[freq dur] ->].
  cbv zeta. sound_simpl. repeat split; reflexivity.
Qed.

Lemma playMusic_fields (hasWindow : bool) (st : SoundState) :
  sfxVolume (playMusic hasWindow st) = sfxVolume st /\
  musicVolume (playMusic hasWindow st) = musicVolume st /\
  isGloballyMuted (playMusic hasWindow st) = isGloballyMuted st.
Proof.
  unfold playMusic. cbv zeta.
  destruct (initAudioContext_fields hasWindow st) as (E1 & E2 & E3 & _).
  destruct (negb (audioContext (initAudioContext hasWindow st))
            || musicInterval (initAudioContext hasWindow st)
            || isGloballyMuted (initAudioContext hasWindow st)).
  - repeat split; assumption.
  - destruct (scheduleNextNote_fields (initAudioContext hasWindow st)) as (F1 & F2 & F3 & _).
    rewrite F1, F2, F3. repeat split; assumption.
Qed.

(** The state and the flag after [toggleMute] mutes. *)
Lemma toggleMute_mutes (hasWindow : bool) (st : SoundState) :
  isGloballyMuted st = false ->
  toggleMute hasWindow st
  = (mkSound (audioContext (initAudioContext hasWindow st)) (clampVolume 0) (clampVolume 0)
       true (sfxVolume st) (musicVolume st) 0 false 0 (scheduled st),
     true).
Proof.
  intros Hm. unfold toggleMute. cbv zeta.
  destruct (initAudioContext_fields hasWindow st)
    as (E1 & E2 & E3 & E4 & E5 & E6 & E7 & E8).
  sound_simpl. rewrite E3, Hm. sound_simpl.
  unfold setMusicVolume, setSfxVolume, stopMusic. cbv zeta. sound_simpl.
  rewrite E1, E2, E8. reflexivity.
Qed.

(** The volumes and the flag after [toggleMute] unmutes. *)
Lemma toggleMute_unmutes (hasWindow : bool) (st : SoundState) :
  isGloballyMuted st = true ->
  (toggleMute hasWindow st).2 = false /\
  isGloballyMuted (toggleMute hasWindow st).1 = false /\
  sfxVolume (toggleMute hasWindow st).1 = clampVolume (lastSfxVolume st) /\
  musicVolume (toggleMute hasWindow st).1 = clampVolume (lastMusicVolume st).
Proof.
  intros Hm. unfold toggleMute. cbv zeta.
  destruct (initAudioContext_fields hasWindow st)
    as (E1 & E2 & E3 & E4 & E5 & E6 & E7 & E8).
  sound_simpl. rewrite E3, Hm. sound_simpl.
  match goal with
  | |- context [playMusic hasWindow ?x] =>
      destruct (playMusic_fields hasWindow x) as (F1 & F2 & F3)
  end.
  rewrite F1, F2, F3.
  unfold setMusicVolume, setSfxVolume. cbv zeta. sound_simpl.
  rewrite E4, E5. repeat split; reflexivity.
Qed.

Lemma play_silent (hasWindow : bool) (params : PlayParams) (st : SoundState) :
  (sfxVolume st == 0)%Q -> scheduled (play hasWindow params st) = scheduled st.
Proof.
  intros H0. unfold play. cbv zeta.
  destruct (initAudioContext_fields hasWindow st) as (E1 & _ & _ & _ & _ & _ & _ & E8).
  destruct (negb (audioContext (initAudioContext hasWindow st))); [exact E8|].
  rewrite E1.
  assert (Hz : Qleb (default 0.3%Q (play_volume params) * sfxVolume st) 0 = true)
    by (apply Qleb_le; rewrite H0; lra).
  rewrite Hz. exact E8.
Qed.

Lemma playNoise_silent (hasWindow : bool) (params : NoiseParams) (st : SoundState) :
  (sfxVolume st == 0)%Q -> scheduled (playNoise hasWindow params st) = scheduled st.
Proof.
  intros H0. unfold playNoise. cbv zeta.
  destruct (initAudioContext_fields hasWindow st) as (E1 & _ & _ & _ & _ & _ & _ & E8).
  destruct (negb (audioContext (initAudioContext hasWindow st))); [exact E8|].
  rewrite E1.
  assert (Hz : Qleb (default 0.2%Q (noise_volume params) * sfxVolume st) 0 = true)
    by (apply Qleb_le; rewrite H0; lra).
  rewrite Hz. exact E8.
Qed.

Lemma scheduleNextNote_context (st : SoundState) :
  audioContext (scheduleNextNote st) = audioContext st.
Proof.
  unfold scheduleNextNote.
  destruct (musicSequence_step (currentStep st)) as [[freq dur] ->].
  cbv zeta. sound_simpl. reflexivity.
Qed.

Lemma playMusic_context (st : SoundState) : audioContext (playMusic true st) = true.
Proof.
  unfold playMusic. cbv zeta.
  destruct (negb (audioContext (initAudioContext true st))
            || musicInterval (initAudioContext true st)
            || isGloballyMuted (initAudioContext true st)).
  - apply initAudioContext_true.
  - rewrite scheduleNextNote_context. apply initAudioContext_true.
Qed.

Lemma playMusic_interval (st : SoundState) :
  isGloballyMuted st = false -> musicInterval (playMusic true st) = true.
Proof.
  intros Hm. unfold playMusic. cbv zeta.
  destruct (initAudioContext_fields true st) as (_ & _ & E3 & _ & _ & E6 & _).
  rewrite initAudioContext_true, E3, Hm, E6. sound_simpl.
  destruct (musicInterval st) eqn:Ei; sound_simpl.
  - exact E6.
  - apply scheduleNextNote_fields.
Qed.

Lemma playMusic_playing (hasWindow : bool) (st : SoundState) :
  audioContext st = true -> musicInterval st = true -> playMusic hasWindow st = st.
Proof.
  intros Hc Hi. unfold playMusic, initAudioContext. rewrite Hc. sound_simpl.
  rewrite Hc, Hi. sound_simpl. reflexivity.
Qed.

(** X20: muting and unmuting brings both volumes back.  From an unmuted
    state with volumes in [0, 1], [toggleMute] returns [true] and sets
    both volumes to 0, and a second [toggleMute] returns [false] and
    restores the volumes the module had before. *)
Theorem mute_unmute_restores_volumes (hasWindow : bool) (st : SoundState) :
  isGloballyMuted st = false ->
  (0 <= sfxVolume st <= 1)%Q -> (0 <= musicVolume st <= 1)%Q ->
  let muted := toggleMute hasWindow st in
  let unmuted := toggleMute hasWindow muted.1 in
  muted.2 = true /\
  (sfxVolume muted.1 == 0)%Q /\ (musicVolume muted.1 == 0)%Q /\
  unmuted.2 = false /\
  (sfxVolume unmuted.1 == sfxVolume st)%Q /\
  (musicVolume unmuted.1 == musicVolume st)%Q.
Proof.
  intros Hm Hs Hmu muted unmuted. unfold unmuted, muted.
  rewrite (toggleMute_mutes hasWindow st Hm). sound_simpl.
  split; [reflexivity|]. split; [apply clampVolume_0|]. split; [apply clampVolume_0|].
  match goal with
  | |- context [toggleMute hasWindow ?m] =>
      destruct (toggleMute_unmutes hasWindow m eq_refl) as (U1 & _ & U3 & U4)
  end.
  rewrite U1, U3, U4. sound_simpl.
  split; [reflexivity|]. split; apply clampVolume_id; assumption.
Qed.

(** X21: once the module is muted, no call of [play] or [playNoise]
    starts a sound and [playMusic] starts no music, whatever the
    parameters. *)
Theorem mute_silences_every_sound (hasWindow : bool) (st : SoundState)
    (params : PlayParams) (noise : NoiseParams) :
  isGloballyMuted st = false ->
  let muted := (toggleMute hasWindow st).1 in
  scheduled (play hasWindow params muted) = scheduled muted /\
  scheduled (playNoise hasWindow noise muted) = scheduled muted /\
  scheduled (playMusic hasWindow muted) = scheduled muted /\
  musicInterval (playMusic hasWindow muted) = false.
Proof.
  intros Hm muted. unfold muted.
  rewrite (toggleMute_mutes hasWindow st Hm). cbn [fst].
  set (m := mkSound _ _ _ _ _ _ _ _ _ _).
  split; [apply play_silent, clampVolume_0|].
  split; [apply playNoise_silent, clampVolume_0|].
  unfold playMusic. cbv zeta.
  destruct (initAudioContext_fields hasWindow m) as (_ & _ & E3 & _ & _ & E6 & _ & E8).
  rewrite E3. unfold m at 2 4. sound_simpl. rewrite !orb_true_r.
  split; [exact E8 | exact E6].
Qed.

(** X22: a volume set while the module is muted is in force at once, so
    that [play] starts a tone although the module is muted, and it is
    discarded by the next [toggleMute], which restores the volume from
    before the mute. *)
Theorem volume_set_while_muted_is_discarded (st : SoundState) (volume : Q)
    (params : PlayParams) :
  isGloballyMuted st = false ->
  (0 <= sfxVolume st <= 1)%Q ->
  (0 < volume <= 1)%Q ->
  (0 < default 0.3 (play_volume params))%Q ->
  let muted := (toggleMute true st).1 in
  let changed := setSfxVolume volume muted in
  isGloballyMuted changed = true /\
  (exists tone, scheduled (play true params changed) = scheduled changed ++ [tone]) /\
  (sfxVolume (toggleMute true changed).1 == sfxVolume st)%Q.
Proof.
  intros Hm Hs Hv Hp muted changed. unfold changed, muted.
  rewrite (toggleMute_mutes true st Hm). sound_simpl.
  unfold setSfxVolume. cbv zeta. sound_simpl.
  rewrite initAudioContext_true.
  assert (Hc : (clampVolume volume == volume)%Q) by (apply clampVolume_id; lra).
  split; [reflexivity|]. split.
  - unfold play, initAudioContext. cbv zeta. sound_simpl.
    assert (Hpos : Qleb (default 0.3%Q (play_volume params) * clampVolume volume) 0 = false).
    { apply Qleb_gt. rewrite Hc. apply Qmult_lt_0_compat; lra. }
    rewrite Hpos. sound_simpl. eexists. reflexivity.
  - match goal with
    | |- context [toggleMute true ?m] =>
        destruct (toggleMute_unmutes true m eq_refl) as (_ & _ & U3 & _)
    end.
    rewrite U3. sound_simpl. apply clampVolume_id, Hs.
Qed.

(** X23: [playMusic] while the music plays changes nothing, and
    [stopMusic] followed by [playMusic] starts the tune again at its first
    note, whatever step it had reached: in an unmuted state with a window,
    the next note is the first of the sequence, 130.81 Hz on a triangle
    wave for one step of 0.3 seconds, at 0.15 of the music volume. *)
Theorem music_restarts_from_first_note (st : SoundState) :
  isGloballyMuted st = false ->
  playMusic true (playMusic true st) = playMusic true st /\
  let restarted := playMusic true (stopMusic st) in
  musicInterval restarted = true /\
  currentStep restarted = 1%nat /\
  exists peak duration,
    scheduled restarted = scheduled st ++ [MusicNote triangle 130.81 peak duration] /\
    (peak == musicVolume st * 0.15)%Q /\ (duration == 0.3)%Q.
Proof.
  intros Hm. split.
  - apply playMusic_playing.
    + apply playMusic_context.
    + apply playMusic_interval, Hm.
  - cbv zeta. unfold playMusic. cbv zeta.
    rewrite initAudioContext_true.
    destruct (initAudioContext_fields true (stopMusic st))
      as (_ & E2 & E3 & _ & _ & E6 & E7 & E8).
    rewrite E3, E6. unfold stopMusic at 1 2. sound_simpl. rewrite Hm. sound_simpl.
    unfold scheduleNextNote. rewrite E7. unfold stopMusic at 1. sound_simpl.
    change (musicSequence !! (0 mod length musicSequence)%nat)
      with (Some (Some 130.81%Q, 1%nat)).
    cbv zeta. sound_simpl. rewrite E3, E2, E8.
    unfold stopMusic. sound_simpl. rewrite Hm. sound_simpl.
    split; [reflexivity|]. split; [reflexivity|].
    eexists _, _. split; [reflexivity|]. split; reflexivity.
Qed.


(** ** Instances of the further theorems *)

Lemma sampleDamaged_wellShaped : wellShaped sampleBuilding sampleDamagedHealth.
Proof.
  split; [intros c; destruct c; reflexivity|].
  split; intros c Hc; destruct c; try reflexivity;
    apply (bool_decide_pack _) in Hc; vm_compute in Hc; destruct Hc.
Defined.

Lemma sampleDamaged_healthWithin : healthWithin 0 100 sampleDamagedHealth.
Proof.
  intros c i v E.
  assert (Hv : v = 100%Q \/ v = 40%Q).
  { destruct c; simpl in E;
      repeat (destruct i as [|i]; simpl in E; [injection E as <-; tauto|]); discriminate. }
  destruct Hv as [-> | ->]; split; discriminate.
Defined.

Lemma sample_singleDefense : singleDefense sampleBuilding.
Proof.
  intros d1 d2 H1 _ N1 _. exfalso.
  destruct d1; try (apply N1; reflexivity);
    apply (bool_decide_pack _) in H1; vm_compute in H1; exact H1.
Defined.

Lemma material_changes_keep_total_cost_witness :
  (calculateInitialCost sampleConfig sampleBuilding + (600 - 200)
   == buildingCost sampleConfig
        (<[Glass := <[0%nat := "strong"%string]> (sampleBuilding Glass)]> sampleBuilding))%Q.
Proof.
  apply (material_changes_keep_total_cost sampleConfig sampleBuilding).
  apply rtc_once.
  apply (materialStep_change sampleConfig sampleBuilding _ _ _ Glass "strong" 0).
  reflexivity.
Defined.

Lemma material_change_sets_one_level_witness :
  exists buildingState' totalCost',
    handleMaterialChange sampleConfig idle sampleBuilding 4700 Glass "strong" 0
    = Some (buildingState', totalCost') /\
    buildingState' Glass !! 0%nat = Some "strong"%string /\
    (forall c i, (c, i) <> (Glass, 0%nat) ->
       buildingState' c !! i = sampleBuilding c !! i) /\
    (forall health, wellShaped sampleBuilding health -> wellShaped buildingState' health).
Proof.
  apply (proj1 (material_change_sets_one_level sampleConfig sampleBuilding 4700 Glass
                  "strong" 0)).
  eexists. reflexivity.
Defined.

Lemma material_change_round_trip_witness :
  exists b1 cost1 b2 cost2,
    handleMaterialChange sampleConfig idle sampleBuilding 4700 Glass "strong" 0
    = Some (b1, cost1) /\
    handleMaterialChange sampleConfig idle b1 cost1 Glass "weak" 0 = Some (b2, cost2) /\
    (forall c, b2 c = sampleBuilding c) /\
    (cost2 == 4700)%Q.
Proof.
  apply (material_change_round_trip sampleConfig sampleBuilding 4700 Glass "strong" "weak" 0).
  reflexivity.
Defined.

Lemma material_change_keeps_bonus_witness :
  structuralBonus sampleConfig 20 80 0.4
    (<[Glass := <[0%nat := "strong"%string]> (sampleBuilding Glass)]> sampleBuilding)
  = structuralBonus sampleConfig 20 80 0.4 sampleBuilding.
Proof.
  apply (material_change_keeps_bonus sampleConfig 20 80 0.4 idle sampleBuilding _
           4700 (4700 + (600 - 200)) Glass "strong" 0).
  - intros Hin. apply (bool_decide_pack _) in Hin. vm_compute in Hin. exact Hin.
  - reflexivity.
Defined.

Lemma material_upgrade_keeps_or_raises_bonus_witness :
  (structuralBonus sampleConfig 20 80 0.4 sampleBuilding
   <= structuralBonus sampleConfig 20 80 0.4
        (<[Pillars := <[0%nat := "strong"%string]> (sampleBuilding Pillars)]>
           sampleBuilding))%Q.
Proof.
  apply (material_upgrade_keeps_or_raises_bonus sampleConfig 20 80 0.4 sampleBuilding _
           4700 (4700 + (500 - 200)) Pillars "strong" "weak" 0).
  - vm_compute. discriminate.
  - apply (bool_decide_unpack _). vm_compute. exact I.
  - reflexivity.
  - vm_compute. discriminate.
  - reflexivity.
Defined.

Lemma repair_twice_is_repair_once_witness :
  handleRepairComponent sampleConfig sampleBuilding
    (<[Glass := <[0%nat := 100%Q]> (sampleDamagedHealth Glass)]> sampleDamagedHealth)
    (4700 + (100 - 40) * (200 / 200)) Glass 0
  = Some (<[Glass := <[0%nat := 100%Q]> (sampleDamagedHealth Glass)]> sampleDamagedHealth,
          (4700 + (100 - 40) * (200 / 200))%Q).
Proof.
  apply (repair_twice_is_repair_once sampleConfig sampleBuilding sampleDamagedHealth _
           4700 _ Glass 0).
  reflexivity.
Defined.

Lemma repair_charge_at_most_half_cost_witness :
  exists health' totalCost',
    handleRepairComponent sampleConfig sampleBuilding sampleDamagedHealth 4700 Glass 0
    = Some (health', totalCost') /\
    (4700 <= totalCost' <= 4700 + 200 / 2)%Q /\
    ((40 == 0)%Q -> (totalCost' == 4700 + 200 / 2)%Q).
Proof.
  apply (repair_charge_at_most_half_cost sampleConfig sampleBuilding sampleDamagedHealth
           4700 Glass 0 "weak" 40).
  - reflexivity.
  - reflexivity.
  - split; discriminate.
  - discriminate.
Defined.

Lemma session_keeps_health_in_range_witness :
  exists out sim',
    runSimulationWave sampleConfig samplePower sampleBuilding sampleHealth
      (structuralBonus sampleConfig 20 80 0.4 sampleBuilding) sampleState Tsunami 1
    = Some (out, sim') /\
    wellShaped sampleBuilding out /\ healthWithin 0 100 out.
Proof.
  destruct (runSimulationWave_total sampleConfig samplePower sampleBuilding sampleHealth
              (structuralBonus sampleConfig 20 80 0.4 sampleBuilding) sampleState Tsunami 1
              sample_wellShaped) as (out & sim' & Hrun); [lia|].
  exists out, sim'. split; [exact Hrun|].
  apply (session_keeps_health_in_range sampleConfig samplePower 20 80 0.4
           sampleBuilding sampleHealth out).
  - split; discriminate.
  - exact sample_wellShaped.
  - exact sample_healthWithin.
  - apply rtc_once. exact (healthStep_wave _ _ _ _ _ _ _ _ _ _ _ _ Hrun).
Defined.

(** The range on a damaged building, and the value 100 on a health map
    with no value. *)
Lemma overallHealth_in_range_witness :
  (0 <= overallHealth sampleDamagedHealth <= 100)%Q /\
  overallHealth (fun _ => []) = 100%Q.
Proof.
  split.
  - apply (overallHealth_in_range sampleDamagedHealth).
    + exact sampleDamaged_healthWithin.
    + vm_compute. reflexivity.
  - apply (overallHealth_in_range (fun _ => [])).
    + intros c i v E. rewrite lookup_nil in E. discriminate.
    + vm_compute. reflexivity.
    + reflexivity.
Defined.

Lemma wave_never_raises_overall_health_witness :
  exists out sim',
    runSimulationWave sampleConfig samplePower sampleBuilding sampleHealth 0.2
      sampleState Tsunami 1 = Some (out, sim') /\
    (overallHealth out <= overallHealth sampleHealth)%Q.
Proof.
  destruct (runSimulationWave_total sampleConfig samplePower sampleBuilding sampleHealth
              0.2 sampleState Tsunami 1 sample_wellShaped) as (out & sim' & Hrun); [lia|].
  exists out, sim'. split; [exact Hrun|].
  apply (wave_never_raises_overall_health sampleConfig samplePower sampleBuilding
           sampleHealth 0.2 sampleState Tsunami 1 out sim').
  - discriminate.
  - exact sample_healthWithin.
  - exact Hrun.
Defined.

Lemma repair_never_lowers_overall_health_witness :
  (overallHealth sampleDamagedHealth
   <= overallHealth
        (<[Glass := <[0%nat := 100%Q]> (sampleDamagedHealth Glass)]> sampleDamagedHealth))%Q.
Proof.
  apply (repair_never_lowers_overall_health sampleConfig sampleBuilding sampleDamagedHealth _
           4700 (4700 + (100 - 40) * (200 / 200)) Glass 0).
  - exact sampleDamaged_healthWithin.
  - reflexivity.
Defined.

Lemma result_message_follows_overall_health_witness :
  exists out sim',
    runSimulationWave sampleConfig samplePower sampleBuilding sampleHealth 0
      sampleState Tsunami 3 = Some (out, sim') /\
    resultMessage sim' =
      Some (if Qltb 75 (overallHealth out) then MinimalDamage
            else if Qltb 50 (overallHealth out) then SignificantDamage
            else if Qltb 20 (overallHealth out) then SeverelyCompromised
            else TotalCollapse).
Proof.
  destruct (runSimulationWave_total sampleConfig samplePower sampleBuilding sampleHealth
              0 sampleState Tsunami 3 sample_wellShaped) as (out & sim' & Hrun); [lia|].
  exists out, sim'. split; [exact Hrun|].
  apply (result_message_follows_overall_health sampleConfig samplePower sampleBuilding
           sampleHealth 0 sampleState Tsunami out sim' Hrun).
  apply allHealthValues_nonempty.
  rewrite (runSimulationWave_length _ _ _ _ _ _ _ _ _ _ Hrun Roof). simpl. lia.
Defined.

Lemma three_waves_reach_results_witness :
  waveEffect (handleStartSimulation Tsunami) = Some (Tsunami, 1%Z) /\
  exists out1 sim1,
    runSimulationWave sampleConfig samplePower sampleBuilding sampleHealth 0
      (handleStartSimulation Tsunami) Tsunami 1 = Some (out1, sim1) /\
    phase sim1 = repair 1 /\ waveEffect sim1 = None /\
    waveEffect (handleNextWave sim1) = Some (Tsunami, 2%Z) /\
    exists out2 sim2,
      runSimulationWave sampleConfig samplePower sampleBuilding sampleDamagedHealth 0
        (handleNextWave sim1) Tsunami 2 = Some (out2, sim2) /\
      phase sim2 = repair 2 /\ waveEffect sim2 = None /\
      waveEffect (handleNextWave sim2) = Some (Tsunami, 3%Z) /\
      exists out3 sim3,
        runSimulationWave sampleConfig samplePower sampleBuilding sampleHealth 0
          (handleNextWave sim2) Tsunami 3 = Some (out3, sim3) /\
        phase sim3 = results /\ is_Some (resultMessage sim3) /\
        activeDisaster sim3 = Some Tsunami /\
        waveEffect sim3 = None /\ handleNextWave sim3 = sim3.
Proof.
  apply (three_waves_reach_results sampleConfig samplePower sampleBuilding
           sampleHealth sampleDamagedHealth sampleHealth 0 Tsunami).
  - exact sample_wellShaped.
  - exact sampleDamaged_wellShaped.
  - exact sample_wellShaped.
Defined.

Lemma shown_price_is_charged_witness :
  exists health',
    handleRepairComponent sampleConfig sampleBuilding sampleDamagedHealth 4700 Glass 0
    = Some (health', (4700 + (100 - 40) * (200 / 200))%Q) /\
    health' Glass !! 0%nat = Some 100%Q.
Proof.
  pose proof (shown_price_is_charged sampleConfig sampleLabel sampleBuilding
                sampleDamagedHealth 4700
                [mkGroup Glass (sampleLabel Glass)
                   [mkItem Glass 0 40 ((100 - 40) * (200 / 200)) false]]
                (mkGroup Glass (sampleLabel Glass)
                   [mkItem Glass 0 40 ((100 - 40) * (200 / 200)) false])
                (mkItem Glass 0 40 ((100 - 40) * (200 / 200)) false)) as H.
  destruct H as (_ & _ & _ & H).
  - reflexivity.
  - apply elem_of_cons. left. reflexivity.
  - apply elem_of_cons. left. reflexivity.
  - exact H.
Defined.

Lemma damaged_list_is_complete_witness :
  exists groups,
    groupedDamagedComponents sampleConfig sampleLabel sampleBuilding sampleDamagedHealth
    = Some groups /\
    (forall c i v, sampleDamagedHealth c !! i = Some v -> (v < 100)%Q ->
       exists g it,
         g ∈ groups /\ group_componentId g = c /\
         it ∈ group_items g /\ item_levelIndex it = i /\ item_health it = v) /\
    (groups = [] <->
     forall c i v, sampleDamagedHealth c !! i = Some v -> (100 <= v)%Q).
Proof.
  apply (damaged_list_is_complete sampleConfig sampleLabel sampleBuilding
           sampleDamagedHealth).
  exact sampleDamaged_wellShaped.
Defined.

Lemma damaged_groups_are_sorted_witness :
  NoDup (map group_componentId
           [mkGroup Glass (sampleLabel Glass)
              [mkItem Glass 0 40 ((100 - 40) * (200 / 200)) false;
               mkItem Glass 1 80 ((100 - 80) * (600 / 200)) false]]) /\
  forall g,
    g ∈ [mkGroup Glass (sampleLabel Glass)
           [mkItem Glass 0 40 ((100 - 40) * (200 / 200)) false;
            mkItem Glass 1 80 ((100 - 80) * (600 / 200)) false]] ->
    group_items g <> [] /\
    group_label g = sampleLabel (group_componentId g) /\
    StronglySorted (fun a b => (item_health a <= item_health b)%Q) (group_items g) /\
    forall it, it ∈ group_items g ->
      item_isRoof it = Nat.eqb (length (sampleBuilding (group_componentId g))) 1.
Proof.
  apply (damaged_groups_are_sorted sampleConfig sampleLabel sampleBuilding
           sampleTwoDamagedHealth).
  reflexivity.
Defined.

Lemma repaired_level_leaves_the_list_witness :
  (Glass, 1%nat) <> (Glass, 0%nat).
Proof.
  apply (repaired_level_leaves_the_list sampleConfig sampleLabel sampleBuilding
           sampleTwoDamagedHealth
           (<[Glass := <[0%nat := 100%Q]> (sampleTwoDamagedHealth Glass)]>
              sampleTwoDamagedHealth)
           4700 (4700 + (100 - 40) * (200 / 200)) Glass 0
           [mkGroup Glass (sampleLabel Glass)
              [mkItem Glass 1 80 ((100 - 80) * (600 / 200)) false]]
           (mkGroup Glass (sampleLabel Glass)
              [mkItem Glass 1 80 ((100 - 80) * (600 / 200)) false])
           (mkItem Glass 1 80 ((100 - 80) * (600 / 200)) false)).
  - reflexivity.
  - reflexivity.
  - apply elem_of_cons. left. reflexivity.
  - apply elem_of_cons. left. reflexivity.
Defined.

Lemma selectors_keep_single_defense_witness :
  singleDefense
    (<[WindDampers := <[0%nat := "strong"%string]> (sampleBuilding WindDampers)]>
       sampleBuilding).
Proof.
  apply (selectors_keep_single_defense sampleConfig idle sampleBuilding _
           4700 (4700 + (900 - 200)) WindDampers "strong" 0 sample_singleDefense).
  left. split.
  - apply (bool_decide_unpack _). vm_compute. exact I.
  - reflexivity.
Defined.

Lemma sound_module_keeps_volumes_in_range_witness :
  (0 <= getSfxVolume (toggleMute true (setSfxVolume 2 initialSoundState)).1 <= 1)%Q /\
  (0 <= getMusicVolume (toggleMute true (setSfxVolume 2 initialSoundState)).1 <= 1)%Q /\
  (getIsMuted (toggleMute true (setSfxVolume 2 initialSoundState)).1 = true ->
   musicInterval (toggleMute true (setSfxVolume 2 initialSoundState)).1 = false) /\
  Forall (fun sound =>
            match sound with
            | Tone _ _ _ peak _ _ | Noise peak _ _ _ _ => (0 < peak)%Q
            | MusicNote _ _ peak _ => (0 <= peak <= 0.15)%Q
            end)
    (scheduled (toggleMute true (setSfxVolume 2 initialSoundState)).1).
Proof.
  apply (sound_module_keeps_volumes_in_range true).
  eapply rtc_l; [apply (soundStep_setSfx true 2)|].
  apply rtc_once. apply soundStep_toggle.
Defined.

Lemma mute_unmute_restores_volumes_witness :
  (toggleMute true initialSoundState).2 = true /\
  (sfxVolume (toggleMute true initialSoundState).1 == 0)%Q /\
  (musicVolume (toggleMute true initialSoundState).1 == 0)%Q /\
  (toggleMute true (toggleMute true initialSoundState).1).2 = false /\
  (sfxVolume (toggleMute true (toggleMute true initialSoundState).1).1 == 1.0)%Q /\
  (musicVolume (toggleMute true (toggleMute true initialSoundState).1).1 == 0.5)%Q.
Proof.
  apply (mute_unmute_restores_volumes true initialSoundState).
  - reflexivity.
  - split; discriminate.
  - split; discriminate.
Defined.

Lemma mute_silences_every_sound_witness :
  scheduled (play true (mkPlay triangle (Some 800%Q) (Some 0.2%Q) 0.1 None None)
               (toggleMute true initialSoundState).1)
  = scheduled (toggleMute true initialSoundState).1 /\
  scheduled (playNoise true (mkNoise (Some 0.4%Q) 0.2 None (Some 200%Q) (Some 2%Q))
               (toggleMute true initialSoundState).1)
  = scheduled (toggleMute true initialSoundState).1 /\
  scheduled (playMusic true (toggleMute true initialSoundState).1)
  = scheduled (toggleMute true initialSoundState).1 /\
  musicInterval (playMusic true (toggleMute true initialSoundState).1) = false.
Proof.
  apply (mute_silences_every_sound true initialSoundState).
  reflexivity.
Defined.

Lemma volume_set_while_muted_is_discarded_witness :
  isGloballyMuted (setSfxVolume 0.5 (toggleMute true initialSoundState).1) = true /\
  (exists tone,
     scheduled (play true (mkPlay triangle (Some 800%Q) (Some 0.2%Q) 0.1 None None)
                  (setSfxVolume 0.5 (toggleMute true initialSoundState).1))
     = scheduled (setSfxVolume 0.5 (toggleMute true initialSoundState).1) ++ [tone]) /\
  (sfxVolume (toggleMute true (setSfxVolume 0.5 (toggleMute true initialSoundState).1)).1
   == 1.0)%Q.
Proof.
  apply (volume_set_while_muted_is_discarded initialSoundState 0.5
           (mkPlay triangle (Some 800%Q) (Some 0.2%Q) 0.1 None None)).
  - reflexivity.
  - split; discriminate.
  - split; [reflexivity|discriminate].
  - reflexivity.
Defined.

Lemma music_restarts_from_first_note_witness :
  playMusic true (playMusic true initialSoundState) = playMusic true initialSoundState /\
  musicInterval (playMusic true (stopMusic initialSoundState)) = true /\
  currentStep (playMusic true (stopMusic initialSoundState)) = 1%nat /\
  exists peak duration,
    scheduled (playMusic true (stopMusic initialSoundState))
    = scheduled initialSoundState ++ [MusicNote triangle 130.81 peak duration] /\
    (peak == 0.5 * 0.15)%Q /\ (duration == 0.3)%Q.
Proof.
  apply (music_restarts_from_first_note initialSoundState).
  reflexivity.
Defined.

Lemma sampleDampers_wellShaped : wellShaped sampleBuildingDampers sampleHealth.
Proof.
  split; [intros c; destruct c; reflexivity|].
  split; intros c Hc; destruct c; try reflexivity;
    apply (bool_decide_pack _) in Hc; vm_compute in Hc; destruct Hc.
Defined.

Lemma sampleTower_wellShaped : wellShaped sampleTower sampleTowerHealth.
Proof.
  split; [intros c; destruct c; reflexivity|].
  split; intros c Hc; destruct c; try reflexivity;
    apply (bool_decide_pack _) in Hc; vm_compute in Hc; destruct Hc.
Defined.

Lemma later_waves_damage_more_witness :
  exists out1 sim1 out2 sim2,
    runSimulationWave sampleConfig samplePower sampleBuilding sampleHealth 0.2
      sampleState Tsunami 1 = Some (out1, sim1) /\
    runSimulationWave sampleConfig samplePower sampleBuilding sampleHealth 0.2
      sampleState Tsunami 3 = Some (out2, sim2) /\
    forall c i v1 v2, out1 c !! i = Some v1 -> out2 c !! i = Some v2 -> (v2 <= v1)%Q.
Proof.
  destruct (runSimulationWave_total sampleConfig samplePower sampleBuilding sampleHealth
              0.2 sampleState Tsunami 1 sample_wellShaped) as (out1 & sim1 & H1); [lia|].
  destruct (runSimulationWave_total sampleConfig samplePower sampleBuilding sampleHealth
              0.2 sampleState Tsunami 3 sample_wellShaped) as (out2 & sim2 & H2); [lia|].
  exists out1, sim1, out2, sim2. split; [exact H1|]. split; [exact H2|].
  apply (later_waves_damage_more sampleConfig samplePower sampleBuilding sampleHealth 0.2
           sampleState sampleState Tsunami 1 3 out1 out2 sim1 sim2).
  - discriminate.
  - vm_compute. discriminate.
  - vm_compute. discriminate.
  - lia.
  - exact H1.
  - exact H2.
Defined.

Lemma higher_bonus_protects_witness :
  exists out1 sim1 out2 sim2,
    runSimulationWave sampleConfig samplePower sampleBuilding sampleHealth 0.1
      sampleState Earthquake 2 = Some (out1, sim1) /\
    runSimulationWave sampleConfig samplePower sampleBuilding sampleHealth 0.3
      sampleState Earthquake 2 = Some (out2, sim2) /\
    forall c i v1 v2, out1 c !! i = Some v1 -> out2 c !! i = Some v2 -> (v1 <= v2)%Q.
Proof.
  destruct (runSimulationWave_total sampleConfig samplePower sampleBuilding sampleHealth
              0.1 sampleState Earthquake 2 sample_wellShaped) as (out1 & sim1 & H1); [lia|].
  destruct (runSimulationWave_total sampleConfig samplePower sampleBuilding sampleHealth
              0.3 sampleState Earthquake 2 sample_wellShaped) as (out2 & sim2 & H2); [lia|].
  exists out1, sim1, out2, sim2. split; [exact H1|]. split; [exact H2|].
  apply (higher_bonus_protects sampleConfig samplePower sampleBuilding sampleHealth 0.1 0.3
           sampleState sampleState Earthquake 2 out1 out2 sim1 sim2).
  - discriminate.
  - vm_compute. discriminate.
  - vm_compute. discriminate.
  - exact H1.
  - exact H2.
Defined.

Lemma lower_levels_suffer_more_witness :
  exists out sim' vi vj,
    runSimulationWave sampleConfig samplePower sampleTower sampleTowerHealth 0.2
      sampleState Tsunami 3 = Some (out, sim') /\
    out Glass !! 0%nat = Some vi /\ out Glass !! 2%nat = Some vj /\ (vi <= vj)%Q.
Proof.
  destruct (runSimulationWave_total sampleConfig samplePower sampleTower sampleTowerHealth
              0.2 sampleState Tsunami 3 sampleTower_wellShaped) as (out & sim' & H); [lia|].
  destruct (lower_levels_suffer_more sampleConfig samplePower sampleTower sampleTowerHealth
              0.2 sampleState Tsunami 3 out sim' Glass 0 2 "weak" 100)
    as (vi & vj & Ei & Ej & Hle).
  - discriminate.
  - vm_compute. discriminate.
  - exact H.
  - intros Hc. apply (bool_decide_pack _) in Hc. vm_compute in Hc. destruct Hc.
  - lia.
  - reflexivity.
  - reflexivity.
  - reflexivity.
  - reflexivity.
  - exists out, sim', vi, vj. repeat split; assumption.
Defined.

Lemma absorbed_wave_does_no_damage_witness :
  exists out sim' v,
    runSimulationWave sampleConfig samplePower sampleBuildingDampers sampleHealth 0.2
      sampleState Hurricane 1 = Some (out, sim') /\
    out Glass !! 0%nat = Some v /\ (v == 100)%Q.
Proof.
  destruct (runSimulationWave_total sampleConfig samplePower sampleBuildingDampers
              sampleHealth 0.2 sampleState Hurricane 1 sampleDampers_wellShaped)
    as (out & sim' & H); [lia|].
  destruct (absorbed_wave_does_no_damage sampleConfig samplePower sampleBuildingDampers
              sampleHealth 0.2 sampleState Hurricane 1 out sim' 60)
    with (c := Glass) (i := 0%nat) (h := 100%Q) as (v & Ev & Hv).
  - discriminate.
  - exact H.
  - reflexivity.
  - vm_compute. discriminate.
  - intros c m. destruct c; simpl; destruct (String.eqb m "weak"); vm_compute; discriminate.
  - intros c i v E. exact (proj1 (sample_healthWithin c i v E)).
  - reflexivity.
  - exists out, sim', v. repeat split; assumption.
Defined.

Lemma lightning_damages_top_three_floors_witness :
  exists out sim',
    runSimulationWave sampleConfig samplePower sampleTower sampleTowerHealth 0.2
      sampleState LightningStorm 3 = Some (out, sim') /\
    out Glass !! 3%nat
    = Some (Qmax 0 (100 - Qmax 0 (150 * waveMultiplier_ref 3 - 30)
                          * (1 / (num 1 * 1.5 + 1)) * (1 - 0.2) / 2)).
Proof.
  destruct (runSimulationWave_total sampleConfig samplePower sampleTower sampleTowerHealth
              0.2 sampleState LightningStorm 3 sampleTower_wellShaped)
    as (out & sim' & H); [lia|].
  exists out, sim'. split; [exact H|].
  apply (lightning_damages_top_three_floors sampleConfig samplePower sampleTower
           sampleTowerHealth 0.2 sampleState 3 out sim' "weak" 1 Glass 100).
  - exact H.
  - reflexivity.
  - vm_compute. reflexivity.
  - lia.
  - simpl. lia.
  - apply (bool_decide_unpack _). vm_compute. exact I.
  - reflexivity.
Defined.

Lemma lightning_spares_lower_floors_witness :
  exists out sim',
    runSimulationWave sampleConfig samplePower sampleTower sampleTowerHealth 0.2
      sampleState LightningStorm 3 = Some (out, sim') /\
    out Glass !! 1%nat = sampleTowerHealth Glass !! 1%nat.
Proof.
  destruct (runSimulationWave_total sampleConfig samplePower sampleTower sampleTowerHealth
              0.2 sampleState LightningStorm 3 sampleTower_wellShaped)
    as (out & sim' & H); [lia|].
  exists out, sim'. split; [exact H|].
  apply (lightning_spares_lower_floors sampleConfig samplePower sampleTower
           sampleTowerHealth 0.2 sampleState 3 out sim' Glass 1).
  - exact H.
  - discriminate.
  - discriminate.
  - simpl. lia.
Defined.
